(** * Confetti orchestrator: a shallow embedding of [Confetti] and its timers

    The repository ships two variants of one class [Confetti]:
    - the options-object variant (package fast-confetti), whose methods take
      one [ConfettiOptions] object: module [FastConfetti] below;
    - the colours-array variant (package confetti-manager), whose methods
      take a colour list and an options object: module [ConfettiManager].

    Both are thin layers over three collaborators that are not part of the
    repository: the rendering primitive of canvas-confetti ([confetti(...)],
    [confetti.create], [confetti.reset], [confetti.shapeFromText]), the
    timer API of the host ([setTimeout], [setInterval], [clearInterval],
    [requestAnimationFrame], [cancelAnimationFrame], [Date.now]) and
    [Math.random].  The rendering primitive is modelled by the trace of the
    calls it receives, the timer API by a queue of pending callbacks, and
    [Math.random] by an oracle carried in the state.

    JavaScript numbers are held as rationals ([Q]); every finite double is
    one.  The module [Binary64] evaluates on IEEE-754 doubles the
    computations of the class whose result is compared digit for digit:
    the floored particle ratios of [realistic] and the [scalar] of the
    fade of [reset]. *)

From Stdlib Require Import ZArith QArith Qround Lia Lqa SpecFloat.
From stdpp Require Import gmap strings list fin_maps.

Open Scope Z_scope.

(** ** JavaScript values held by an options object *)

(** An entry of [shapes]: a string (a built-in name such as ['circle'], or
    any other text), the descriptor returned by
    [confetti.shapeFromText({text, scalar})], or some other shape object
    (a path or bitmap descriptor). *)
Inductive shape : Type :=
| ShName (name : string)
| ShText (text : string) (scalar : Q)
| ShObj (tag : nat).

(** The values of the fields of [ConfettiOptions]: numbers (the finite
    ones as rationals, then the infinities and [NaN]), booleans, colour
    lists, shape lists, the origin point, and [undefined]. *)
Inductive value : Type :=
| VUndef
| VNum (q : Q)
| VInfinity (negative : bool)
| VNaN
| VBool (b : bool)
| VColors (cs : list string)
| VShapes (ss : list shape)
| VOrigin (x y : option Q).

(** An options object: own enumerable properties, by name. *)
Abbreviation obj := (gmap string value).

(** Object literals.  A literal [{ k1: v1, ...src, k2: v2 }] is evaluated
    left to right: a property write sets its key, a spread copies every own
    property of its source over what has been accumulated so far, and
    spreading [undefined] adds nothing. *)
Inductive part : Type :=
| Field (key : string) (v : value)
| Spread (src : option obj).

Definition assign (acc : obj) (p : part) : obj :=
  match p with
  | Field key v => <[key := v]> acc
  | Spread src => default ∅ src ∪ acc
  end.

Definition literal (parts : list part) : obj := foldl assign ∅ parts.

(** [options?.key]: the property of a possibly undefined object. *)
Definition field (options : option obj) (key : string) : option value :=
  options ≫= (λ o, o !! key).

(** Truthiness of a value. *)
Definition truthy (v : value) : bool :=
  match v with
  | VUndef => false
  | VNum q => negb (Qeq_bool q 0)
  | VInfinity _ => true
  | VNaN => false
  | VBool b => b
  | VColors _ | VShapes _ | VOrigin _ _ => true
  end.

(** [a || b] where [a] is a property read. *)
Definition js_or (a : option value) (b : value) : value :=
  match a with
  | Some v => if truthy v then v else b
  | None => b
  end.

(** [a || d] for a field typed [number] that is then used in arithmetic;
    the TypeScript types exclude any other kind of value there. *)
Definition num_or (a : option value) (d : Q) : Q :=
  match js_or a (VNum d) with
  | VNum q => q
  | _ => d
  end.

Definition Math_floor (q : Q) : Q := inject_Z (Qfloor q).

Definition Math_max (a b : Q) : Q := if Qle_bool a b then b else a.

(** ** IEEE-754 doubles

    For the two computations of the class whose result is compared digit
    for digit: the floored ratios of [realistic] and the [scalar] of the
    fade of [reset]. *)

Module Binary64.

Definition prec : Z := 53.
Definition emax : Z := 1024.

Definition of_Z (z : Z) : spec_float :=
  binary_normalize prec emax z 0 false.

(** The double nearest to a decimal literal [n / d]. *)
Definition of_Q (q : Q) : spec_float :=
  SFdiv prec emax (of_Z (Qnum q)) (of_Z (Zpos (Qden q))).

Definition mul : spec_float → spec_float → spec_float := SFmul prec emax.
Definition div : spec_float → spec_float → spec_float := SFdiv prec emax.
Definition sub : spec_float → spec_float → spec_float := SFsub prec emax.

(** [Math.floor] of a finite double, as an integer. *)
Definition floor (f : spec_float) : option Z :=
  match f with
  | S754_zero _ => Some 0
  | S754_finite s m e =>
      let v := if s then Zneg m else Zpos m in
      Some (if 0 <=? e then v * 2 ^ e else v / 2 ^ (- e))
  | _ => None
  end.

(** The value of a finite double, in lowest terms. *)
Definition to_Q (f : spec_float) : option Q :=
  match f with
  | S754_zero _ => Some 0%Q
  | S754_finite s m e =>
      let v := if s then Zneg m else Zpos m in
      Some (Qred (if 0 <=? e then inject_Z (v * 2 ^ e)
                  else Qmake v (Pos.pow 2 (Z.to_pos (- e)))))
  | _ => None
  end.

(** [Math.floor(count * particleRatio)] with [count = 200], on doubles. *)
Definition realistic_count (particleRatio : Q) : option Z :=
  floor (mul (of_Z 200) (of_Q particleRatio)).

(** A double as the value of a property. *)
Definition number (f : spec_float) : value :=
  match to_Q f, f with
  | Some q, _ => VNum q
  | None, S754_infinity negative => VInfinity negative
  | None, _ => VNaN
  end.

(** [1 - currentStep / steps], on doubles; [steps] is the quotient
    [duration / stepTime], which the division of the doubles rounds. *)
Definition fade_double (currentStep : Z) (steps : Q) : spec_float :=
  sub (of_Z 1) (div (of_Z currentStep) (of_Q steps)).

(** Its value, when it is finite. *)
Definition fade_scalar (currentStep : Z) (steps : Q) : option Q :=
  to_Q (fade_double currentStep steps).

End Binary64.

(** ** The state of one [Confetti] object *)

(** A canvas element, by identity. *)
Definition canvas := nat.

(** Timer and animation-frame handles are positive integers, hence truthy. *)
Definition handle := positive.

Record Confetti : Type := mkConfetti {
  defaults : obj;
  confettiInstance : option canvas;
  timerId : option handle;
  animationFrameId : option handle
}.

(** ** Callbacks

    The closures that the class hands to the timer API, each with the
    variables it captures.  A variable that the closure itself mutates
    ([currentStep] in [reset], [skew] in [snow]) is part of the closure. *)

Inductive method : Type :=
| m_cannon | m_randomDirection | m_realistic | m_fireworks | m_stars
| m_snow | m_fall | m_pride | m_reset.

Inductive callback : Type :=
| CbLaunch (options : obj)
| CbInfiniteTick (end_ : Q) (delay : Q) (m : method) (options : option obj)
| CbInvoke (m : method) (options : option obj)
| CbFireworksTick (animationEnd : Q) (options : option obj)
| CbSnowStart (options : option obj)
| CbSnowFrame (animationEnd : Q) (skew : Q) (options : option obj)
| CbFallShoot (processedShapes : list shape) (options : option obj)
| CbPrideFrame (end_ : Q) (options : option obj)
| CbResetTick (steps : Q) (currentStep : Z) (options : obj)
| CbLaunchColors (colors : option (list string)) (options : option obj).

Inductive kind : Type :=
| Timeout
| Interval (period : Z)
| Frame.

Record timer : Type := mkTimer {
  tid : handle;
  due : Z;
  tkind : kind;
  tcb : callback
}.

(** ** What the collaborators observe *)

Inductive event : Type :=
| Render (target : option canvas) (config : obj)
| GlobalReset
| Warn (message : string)
| Invoke (m : method).

(** ** The world: clock, pending timers, the object, the trace *)

Record world : Type := mkWorld {
  now : Z;
  fresh : handle;
  timers : list timer;
  self : Confetti;
  trace : list (Z * event);
  random : nat → Q;
  draws : nat;
  frame_ms : Z
}.

Definition set_now (t : Z) (w : world) : world :=
  mkWorld t (fresh w) (timers w) (self w) (trace w) (random w) (draws w)
    (frame_ms w).

Definition set_timers (ts : list timer) (w : world) : world :=
  mkWorld (now w) (fresh w) ts (self w) (trace w) (random w) (draws w)
    (frame_ms w).

Definition set_self (c : Confetti) (w : world) : world :=
  mkWorld (now w) (fresh w) (timers w) c (trace w) (random w) (draws w)
    (frame_ms w).

Definition set_timerId (h : option handle) (w : world) : world :=
  set_self (mkConfetti (defaults (self w)) (confettiInstance (self w)) h
              (animationFrameId (self w))) w.

Definition set_animationFrameId (h : option handle) (w : world) : world :=
  set_self (mkConfetti (defaults (self w)) (confettiInstance (self w))
              (timerId (self w)) h) w.

Definition set_confettiInstance (c : option canvas) (w : world) : world :=
  set_self (mkConfetti (defaults (self w)) c (timerId (self w))
              (animationFrameId (self w))) w.

(** A call received by a collaborator, stamped with the clock. *)
Definition emit (e : event) (w : world) : world :=
  mkWorld (now w) (fresh w) (timers w) (self w) (trace w ++ [(now w, e)])
    (random w) (draws w) (frame_ms w).

(** ** The host's timer API *)

(** A delay in milliseconds: an integer, never negative. *)
Definition ms (q : Q) : Z := Z.max 0 (Qfloor q).

Definition register (k : kind) (cb : callback) (delay : Z) (w : world)
  : handle * world :=
  (fresh w,
   mkWorld (now w) (Pos.succ (fresh w))
     (timers w ++ [mkTimer (fresh w) (now w + delay) k cb])
     (self w) (trace w) (random w) (draws w) (frame_ms w)).

Definition setTimeout (cb : callback) (delay : Q) (w : world)
  : handle * world :=
  register Timeout cb (ms delay) w.

Definition setInterval (cb : callback) (delay : Q) (w : world)
  : handle * world :=
  register (Interval (ms delay)) cb (ms delay) w.

Definition requestAnimationFrame (cb : callback) (w : world)
  : handle * world :=
  register Frame cb (frame_ms w) w.

Definition is_frame (t : timer) : bool :=
  match tkind t with Frame => true | _ => false end.

(** [clearInterval(id)] (the same list serves [clearTimeout]). *)
Definition clearInterval (id : handle) (w : world) : world :=
  set_timers
    (filter (λ t, ¬ (is_frame t = false ∧ tid t = id)) (timers w)) w.

Definition cancelAnimationFrame (id : handle) (w : world) : world :=
  set_timers
    (filter (λ t, ¬ (is_frame t = true ∧ tid t = id)) (timers w)) w.

Definition Date_now (w : world) : Q := inject_Z (now w).

Definition Math_random (w : world) : Q * world :=
  (random w (draws w),
   mkWorld (now w) (fresh w) (timers w) (self w) (trace w) (random w)
     (S (draws w)) (frame_ms w)).

(** ** The options-object variant *)

Module FastConfetti.

(** [constructor(config = {})] *)
Definition constructor (config : option obj) : Confetti :=
  mkConfetti
    (literal
       [Field "colors"
          (VColors ["#a864fd"; "#29cdff"; "#78ff44"; "#ff718d"; "#fdff6a";
                    "#9400D3"]);
        Field "particleCount" (VNum 200);
        Field "spread" (VNum 60);
        Field "startVelocity" (VNum 30);
        Field "decay" (VNum 0.9);
        Field "scalar" (VNum 1);
        Field "angle" (VNum 90);
        Field "origin" (VOrigin (Some 0.5%Q) (Some 0.5%Q));
        Spread config])
    None None None.

Definition launchConfetti (options : obj) (w : world) : world :=
  let finalOptions :=
    literal [Spread (Some (defaults (self w))); Spread (Some options)] in
  emit (Render (confettiInstance (self w)) finalOptions) w.

Definition launchConfettiWithDelay (options : obj) (w : world) : world :=
  let delay := num_or (options !! "delay") 0 in
  snd (setTimeout (CbLaunch options) delay w).

(** [custom(options = {})] *)
Definition custom (options : option obj) (w : world) : world :=
  launchConfettiWithDelay (default ∅ options) w.

(** [infinite(method, interval = 1000, duration = 5000, options?)] *)
Definition infinite (m : method) (interval duration : option Q)
    (options : option obj) (w : world) : world :=
  let interval := default 1000%Q interval in
  let duration := default 5000%Q duration in
  let end_ := (Date_now w + duration)%Q in
  let delay := num_or (field options "delay") 0 in
  let '(id, w) := setInterval (CbInfiniteTick end_ delay m options) interval w in
  set_timerId (Some id) w.

Definition stopInfinite (w : world) : world :=
  match timerId (self w) with
  | Some id => set_timerId None (clearInterval id w)
  | None => w
  end.

(** The properties that [cannon] writes before it spreads [options]. *)
Definition cannon_fields : list part :=
  [Field "particleCount" (VNum 100)].

Definition cannon (options : option obj) (w : world) : world :=
  launchConfettiWithDelay (literal (cannon_fields ++ [Spread options])) w.

(** The properties that [randomDirection] writes before it spreads
    [options], from its three draws. *)
Definition randomDirection_fields (r1 r2 r3 : Q) : list part :=
  [Field "particleCount" (VNum (Math_floor (r1 * 300)));
   Field "spread" (VNum (Math_floor (r2 * 360)));
   Field "angle" (VNum (Math_floor (r3 * 360)))].

Definition randomDirection (options : option obj) (w : world) : world :=
  let '(r1, w) := Math_random w in
  let '(r2, w) := Math_random w in
  let '(r3, w) := Math_random w in
  launchConfettiWithDelay
    (literal (randomDirection_fields r1 r2 r3 ++ [Spread options])) w.

(** The properties that the inner [fire] of [realistic] writes before it
    spreads [options]. *)
Definition realistic_fields (particleRatio : Q) (opts : obj) : list part :=
  let count := 200%Q in
  [Field "origin" (VOrigin None (Some 0.7%Q));
   Field "particleCount" (VNum (Math_floor (count * particleRatio)));
   Spread (Some opts)].

(** The inner [fire] of [realistic]. *)
Definition realistic_fire (options : option obj) (particleRatio : Q)
    (opts : obj) (w : world) : world :=
  launchConfettiWithDelay
    (literal (realistic_fields particleRatio opts ++ [Spread options])) w.

(** The five calls [fire(particleRatio, opts)] of [realistic], in order. *)
Definition realistic_presets : list (Q * obj) :=
  [(0.25%Q, literal [Field "spread" (VNum 26);
                     Field "startVelocity" (VNum 55)]);
   (0.2%Q, literal [Field "spread" (VNum 60)]);
   (0.35%Q, literal [Field "spread" (VNum 100); Field "decay" (VNum 0.91);
                     Field "scalar" (VNum 0.8)]);
   (0.1%Q, literal [Field "spread" (VNum 120);
                    Field "startVelocity" (VNum 25);
                    Field "decay" (VNum 0.92);
                    Field "scalar" (VNum 1.2)]);
   (0.1%Q, literal [Field "spread" (VNum 120);
                    Field "startVelocity" (VNum 45)])].

Definition realistic (options : option obj) (w : world) : world :=
  foldl (λ w preset, realistic_fire options preset.1 preset.2 w) w
    realistic_presets.

Definition randomInRange (min max : Q) (w : world) : Q * world :=
  let '(r, w) := Math_random w in ((r * (max - min) + min)%Q, w).

(** The [defaults] literal of [fireworks]. *)
Definition fireworks_defaults : obj :=
  literal [Field "startVelocity" (VNum 30); Field "spread" (VNum 360);
           Field "ticks" (VNum 60); Field "zIndex" (VNum 0)].

(** The properties that a burst of [fireworks] writes before it spreads
    [options]. *)
Definition fireworks_fields (particleCount x r : Q) : list part :=
  [Spread (Some fireworks_defaults);
   Field "particleCount" (VNum particleCount);
   Field "origin" (VOrigin (Some x) (Some (r - 0.2)%Q))].

(** One of the two bursts of the inner [fire] of [fireworks]. *)
Definition fireworks_burst (options : option obj) (particleCount : Q)
    (min max : Q) (w : world) : world :=
  let '(x, w) := randomInRange min max w in
  let '(r, w) := Math_random w in
  launchConfettiWithDelay
    (literal (fireworks_fields particleCount x r ++ [Spread options])) w.

Definition fireworks_fire (options : option obj) (particleCount : Q)
    (w : world) : world :=
  let w := fireworks_burst options particleCount 0.1 0.3 w in
  fireworks_burst options particleCount 0.7 0.9 w.

Definition fireworks (options : option obj) (w : world) : world :=
  let animationEnd :=
    (Date_now w + num_or (field options "duration") 15000)%Q in
  let '(interval, w) :=
    setInterval (CbFireworksTick animationEnd options) 250 w in
  set_timerId (Some interval) w.

(** The interval callback of [fireworks]; [interval] is its own handle. *)
Definition fireworks_tick (animationEnd : Q) (options : option obj)
    (interval : handle) (w : world) : world :=
  let timeLeft := (animationEnd - Date_now w)%Q in
  if Qle_bool timeLeft 0 then clearInterval interval w
  else
    let particleCount :=
      (50 * (timeLeft / num_or (field options "duration") 15000))%Q in
    fireworks_fire options particleCount w.

(** The properties that [stars] writes before it spreads [options]. *)
Definition stars_fields : list part :=
  let defaultColors := ["FFE400"; "FFBD00"; "E89400"; "FFCA6C"; "FDFFB8"] in
  [Field "particleCount" (VNum 40);
   Field "shapes" (VShapes [ShName "star"]);
   Field "colors" (VColors defaultColors);
   Field "scalar" (VNum 1.2)].

Definition stars (options : option obj) (w : world) : world :=
  let starOptions := literal (stars_fields ++ [Spread options]) in
  launchConfettiWithDelay starOptions w.

Definition snow (options : option obj) (w : world) : world :=
  let delay := num_or (field options "delay") 0 in
  snd (setTimeout (CbSnowStart options) delay w).

(** The timeout callback of [snow]. *)
Definition snow_start (options : option obj) (w : world) : world :=
  let animationEnd :=
    (Date_now w + num_or (field options "duration") 5000)%Q in
  let skew := 1%Q in
  let '(id, w) :=
    requestAnimationFrame (CbSnowFrame animationEnd skew options) w in
  set_animationFrameId (Some id) w.

(** The properties that a frame of [snow] writes before it spreads
    [options]. *)
Definition snow_fields (ticks x y gravity scalar drift : Q) : list part :=
  [Field "particleCount" (VNum 1);
   Field "startVelocity" (VNum 0);
   Field "ticks" (VNum ticks);
   Field "origin" (VOrigin (Some x) (Some y));
   Field "shapes" (VShapes [ShName "circle"]);
   Field "gravity" (VNum gravity);
   Field "scalar" (VNum scalar);
   Field "drift" (VNum drift);
   Field "colors" (VColors ["#FCFCFC"])].

(** The inner [frame] of [snow]; [skew] is the captured variable. *)
Definition snow_frame (animationEnd skew : Q) (options : option obj)
    (w : world) : world :=
  let timeLeft := (animationEnd - Date_now w)%Q in
  if Qle_bool timeLeft 0
     || bool_decide (animationFrameId (self w) = None) then w
  else
    let ticks :=
      Math_max 200
        (500 * (timeLeft / num_or (field options "duration") 5000)) in
    let skew := Math_max 0.8 (skew - 0.001) in
    let '(x, w) := Math_random w in
    let '(r, w) := Math_random w in
    let '(gravity, w) := randomInRange 0.4 0.6 w in
    let '(scalar, w) := randomInRange 0.4 1 w in
    let '(drift, w) := randomInRange (-0.4) 0.4 w in
    let w :=
      launchConfetti
        (literal
           (snow_fields ticks x (r * skew - 0.2) gravity scalar drift
              ++ [Spread options])) w in
    let '(id, w) :=
      requestAnimationFrame (CbSnowFrame animationEnd skew options) w in
    set_animationFrameId (Some id) w.

Definition validShapes : list shape :=
  [ShName "circle"; ShName "square"; ShName "star"].

(** [validShapes.includes(shape)]: strict equality, so an object is never
    included. *)
Definition includes_valid (s : shape) : bool :=
  match s with
  | ShName name => bool_decide (name ∈ ["circle"; "square"; "star"])
  | _ => false
  end.

Definition typeof_string (s : shape) : bool :=
  match s with ShName _ => true | _ => false end.

(** The string a shape becomes inside a template literal. *)
Definition shape_text (s : shape) : string :=
  match s with ShName name => name | _ => "[object Object]" end.

(** The body of the [map] callback of [fall]: the shape it returns and the
    warnings it logs. *)
Definition process_shape (options : option obj) (s : shape)
  : shape * list string :=
  if typeof_string s && negb (includes_valid s) then
    (ShText (shape_text s) (num_or (field options "scalar") 1), [])
  else if includes_valid s then (s, [])
  else
    (ShName "circle",
     ["Invalid shape: " +:+ shape_text s +:+ ", defaulting to circle."]).

Definition fall_shapes (options : option obj) : list shape :=
  match js_or (field options "shapes") (VShapes validShapes) with
  | VShapes ss => ss
  | _ => validShapes
  end.

Definition fall (options : option obj) (w : world) : world :=
  let processed := map (process_shape options) (fall_shapes options) in
  let processedShapes := map fst processed in
  let w := foldl (λ w m, emit (Warn m) w) w (concat (map snd processed)) in
  let delay := num_or (field options "delay") 0 in
  snd (setTimeout (CbFallShoot processedShapes options) delay w).

(** The properties that a burst of [fall] writes before it spreads
    [options]. *)
Definition fall_fields (processedShapes : list shape) (options : option obj)
    (x r : Q) : list part :=
  [Field "particleCount" (js_or (field options "particleCount") (VNum 50));
   Field "startVelocity" (js_or (field options "startVelocity") (VNum 20));
   Field "gravity" (js_or (field options "gravity") (VNum 0.8));
   Field "ticks" (js_or (field options "ticks") (VNum 1200));
   Field "decay" (js_or (field options "decay") (VNum 0.93));
   Field "shapes" (VShapes processedShapes);
   Field "origin" (VOrigin (Some x) (Some 0%Q));
   Field "scalar" (js_or (field options "scalar") (VNum 1.1));
   Field "drift" (VNum (r * 2 - 1))].

(** One iteration of the loop of the inner [shoot] of [fall]. *)
Definition fall_burst (processedShapes : list shape) (options : option obj)
    (w : world) : world :=
  let '(x, w) := Math_random w in
  let '(r, w) := Math_random w in
  launchConfettiWithDelay
    (literal (fall_fields processedShapes options x r ++ [Spread options])) w.

Definition fall_shoot (processedShapes : list shape) (options : option obj)
    (w : world) : world :=
  Nat.iter 10 (fall_burst processedShapes options) w.

Definition pride (options : option obj) (w : world) : world :=
  let duration := num_or (field options "duration") 15000 in
  let end_ := (Date_now w + duration)%Q in
  let '(id, w) := requestAnimationFrame (CbPrideFrame end_ options) w in
  set_animationFrameId (Some id) w.

(** The properties that a burst of [pride] writes before it spreads
    [options]: from the left edge at 60 degrees, from the right at 120. *)
Definition pride_fields (angle x : Q) : list part :=
  [Field "particleCount" (VNum 2);
   Field "angle" (VNum angle);
   Field "spread" (VNum 55);
   Field "origin" (VOrigin (Some x) (Some 0.5%Q))].

(** The inner [frame] of [pride]. *)
Definition pride_frame (end_ : Q) (options : option obj) (w : world)
  : world :=
  let timeLeft := (end_ - Date_now w)%Q in
  if negb (Qle_bool timeLeft 0)
     && negb (bool_decide (animationFrameId (self w) = None)) then
    let w :=
      launchConfettiWithDelay
        (literal (pride_fields 60 0 ++ [Spread options])) w in
    let w :=
      launchConfettiWithDelay
        (literal (pride_fields 120 1 ++ [Spread options])) w in
    let '(id, w) := requestAnimationFrame (CbPrideFrame end_ options) w in
    set_animationFrameId (Some id) w
  else w.

(** The configuration of one fade burst of [reset].  Its [scalar] is
    computed on doubles; [steps] is the rational value of [duration /
    stepTime]. *)
Definition reset_burst (options : obj) (currentStep : Z) (steps : Q) : obj :=
  literal
    [Field "particleCount" (js_or (options !! "particleCount") (VNum 100));
     Field "startVelocity" (VNum 0);
     Field "scalar" (Binary64.number (Binary64.fade_double currentStep steps));
     Field "disableForReducedMotion" (VBool true);
     Field "ticks" (js_or (options !! "ticks") (VNum 200));
     Field "gravity" (js_or (options !! "gravity") (VNum 0.5));
     Field "colors"
       (js_or (options !! "colors") (VColors ["rgba(255, 255, 255, 0.1)"]));
     Field "shapes"
       (js_or (options !! "shapes")
          (VShapes [ShName "circle"; ShName "square"]))].

(** The interval callback of the smooth [reset], entered with the value of
    [currentStep] before its increment; [intervalId] is its own handle. *)
Definition reset_tick (steps : Q) (currentStep : Z) (options : obj)
    (intervalId : handle) (w : world) : world :=
  let currentStep := currentStep + 1 in
  let w := emit (Render None (reset_burst options currentStep steps)) w in
  if Qle_bool steps (inject_Z currentStep) then
    let w := clearInterval intervalId w in
    let w :=
      match timerId (self w) with
      | Some id => set_timerId None (clearInterval id w)
      | None => w
      end in
    emit GlobalReset w
  else w.

(** [reset(type = 'smooth', options = {})] *)
Definition reset (type : option string) (options : option obj) (w : world)
  : world :=
  let type := default "smooth" type in
  let options := default ∅ options in
  let duration := num_or (options !! "duration") 2000 in
  let w :=
    match animationFrameId (self w) with
    | Some id => set_animationFrameId None (cancelAnimationFrame id w)
    | None => w
    end in
  if String.eqb type "instant" then
    let w :=
      match timerId (self w) with
      | Some id => set_timerId None (clearInterval id w)
      | None => w
      end in
    emit GlobalReset w
  else if String.eqb type "smooth" then
    let stepTime := 50%Q in
    let steps := (duration / stepTime)%Q in
    let currentStep := 0 in
    snd (setInterval (CbResetTick steps currentStep options) stepTime w)
  else
    let w :=
      emit (Warn ("Unknown reset type: " +:+ type
                  +:+ ". Defaulting to instant reset.")) w in
    emit GlobalReset w.

Definition customCanvas (c : option canvas) (w : world) : world :=
  match c with
  | Some c => set_confettiInstance (Some c) w
  | None => set_confettiInstance None w
  end.

(** [methodFunction.call(this, options)] of [infinite], for each public
    method name that its parameter type admits.  [reset] receives the
    options object as its [type]: [undefined] selects the default
    ['smooth'], and an object is neither ['instant'] nor ['smooth'] and is
    printed as [[object Object]]. *)
Definition call_method (m : method) (options : option obj) (w : world)
  : world :=
  match m with
  | m_cannon => cannon options w
  | m_randomDirection => randomDirection options w
  | m_realistic => realistic options w
  | m_fireworks => fireworks options w
  | m_stars => stars options w
  | m_snow => snow options w
  | m_fall => fall options w
  | m_pride => pride options w
  | m_reset =>
      match options with
      | None => reset None None w
      | Some _ => reset (Some "[object Object]") None w
      end
  end.

(** The interval callback of [infinite]. *)
Definition infinite_tick (end_ delay : Q) (m : method)
    (options : option obj) (w : world) : world :=
  if negb (Qle_bool (Date_now w) end_) then stopInfinite w
  else snd (setTimeout (CbInvoke m options) delay w).

End FastConfetti.

(** ** The colours-array variant

    Only the methods that the properties below refer to: the two launch
    primitives and the one-shot effects built on them. *)

Module ConfettiManager.

(** [constructor(config = {})]: the same literal as in the other variant;
    this class has no [animationFrameId]. *)
Definition constructor (config : option obj) : Confetti :=
  FastConfetti.constructor config.

Definition launchConfetti (colors : option (list string))
    (options : option obj) (w : world) : world :=
  let checkedColors :=
    match colors with
    | Some (c :: cs) => VColors (c :: cs)
    | _ => default VUndef (defaults (self w) !! "colors")
    end in
  let finalOptions :=
    literal [Spread (Some (defaults (self w)));
             Field "colors" checkedColors;
             Spread options] in
  emit (Render (confettiInstance (self w)) finalOptions) w.

Definition launchConfettiWithDelay (colors : option (list string))
    (options : option obj) (w : world) : world :=
  let delay := num_or (field options "delay") 0 in
  snd (setTimeout (CbLaunchColors colors options) delay w).

Definition custom (colors : option (list string)) (options : option obj)
    (w : world) : world :=
  launchConfettiWithDelay colors (Some (default ∅ options)) w.

Definition cannon (colors : option (list string)) (options : option obj)
    (w : world) : world :=
  launchConfettiWithDelay colors
    (Some (literal [Spread options; Field "particleCount" (VNum 100)])) w.

Definition randomDirection (colors : option (list string))
    (options : option obj) (w : world) : world :=
  let '(r1, w) := Math_random w in
  let '(r2, w) := Math_random w in
  let '(r3, w) := Math_random w in
  launchConfettiWithDelay colors
    (Some (literal [Spread options;
                    Field "particleCount" (VNum (Math_floor (r1 * 300)));
                    Field "spread" (VNum (Math_floor (r2 * 360)));
                    Field "angle" (VNum (Math_floor (r3 * 360)))])) w.

Definition realistic_fire (colors : option (list string))
    (options : option obj) (particleRatio : Q) (opts : obj) (w : world)
  : world :=
  let count := 200%Q in
  launchConfettiWithDelay colors
    (Some (literal
             [Field "origin" (VOrigin None (Some 0.7%Q));
              Field "particleCount"
                (VNum (Math_floor (count * particleRatio)));
              Spread (Some opts);
              Spread options])) w.

Definition realistic (colors : option (list string)) (options : option obj)
    (w : world) : world :=
  foldl (λ w preset, realistic_fire colors options preset.1 preset.2 w) w
    FastConfetti.realistic_presets.

End ConfettiManager.

(** ** The colours-array variant: custom shapes

    [customShape] hands its inner [shoot] to [setTimeout] three times (0,
    100 and 200 ms); what follows is its [defaults] literal, the callback
    of its [map] over the shapes, and [shoot] itself.  [stars], [circle]
    and [square] call it with a one-element shape list. *)

Module CustomShape.

(** An optional [colors] argument, as the value of a property. *)
Definition colors_value (colors : option (list string)) : value :=
  match colors with Some cs => VColors cs | None => VUndef end.

(** The [defaults] literal of [customShape]. *)
Definition customShape_defaults (colors : option (list string))
    (options : option obj) : obj :=
  literal [Field "spread" (VNum 360);
           Field "ticks" (VNum 60);
           Field "gravity" (VNum 0.5);
           Field "decay" (VNum 0.9);
           Field "startVelocity" (VNum 50);
           Field "colors" (colors_value colors);
           Field "origin" (VOrigin (Some 0.5%Q) (Some 0.5%Q));
           Spread options].

(** [['star', 'circle', 'square'].includes(shape)] *)
Definition includes_builtin (s : shape) : bool :=
  match s with
  | ShName name => bool_decide (name ∈ ["star"; "circle"; "square"])
  | _ => false
  end.

(** The callback of the [map] over [shapes]. *)
Definition process_shape (options : option obj) (s : shape) : shape :=
  if FastConfetti.typeof_string s && negb (includes_builtin s) then
    ShText (FastConfetti.shape_text s) (num_or (field options "scalar") 1)
  else s.

(** The inner [shoot]. *)
Definition shoot (processedShapes : list shape)
    (colors : option (list string)) (defaults : obj) (w : world) : world :=
  let w :=
    ConfettiManager.launchConfettiWithDelay colors
      (Some (literal [Spread (Some defaults);
                      Field "particleCount" (VNum 40);
                      Field "scalar" (VNum 1.5);
                      Field "shapes" (VShapes processedShapes)])) w in
  ConfettiManager.launchConfettiWithDelay colors
    (Some (literal [Spread (Some defaults);
                    Field "particleCount" (VNum 20);
                    Field "scalar" (VNum 1);
                    Field "shapes" (VShapes [ShName "circle"])])) w.

End CustomShape.

(** ** The event loop

    The idealised host: a pending callback runs exactly when it is due, the
    earliest first and in order of registration among those due together;
    running a callback takes no time.  An interval stays registered while
    its callback runs, and is re-armed afterwards unless the callback
    cleared it. *)

(** Running a callback; [id] is the handle of the timer that fired.  The
    [Invoke] event is a ghost marker of the call that [infinite] makes. *)
Definition exec (cb : callback) (id : handle) (w : world) : world :=
  match cb with
  | CbLaunch options => FastConfetti.launchConfetti options w
  | CbInfiniteTick end_ delay m options =>
      FastConfetti.infinite_tick end_ delay m options w
  | CbInvoke m options =>
      FastConfetti.call_method m options (emit (Invoke m) w)
  | CbFireworksTick animationEnd options =>
      FastConfetti.fireworks_tick animationEnd options id w
  | CbSnowStart options => FastConfetti.snow_start options w
  | CbSnowFrame animationEnd skew options =>
      FastConfetti.snow_frame animationEnd skew options w
  | CbFallShoot processedShapes options =>
      FastConfetti.fall_shoot processedShapes options w
  | CbPrideFrame end_ options => FastConfetti.pride_frame end_ options w
  | CbResetTick steps currentStep options =>
      FastConfetti.reset_tick steps currentStep options id w
  | CbLaunchColors colors options =>
      ConfettiManager.launchConfetti colors options w
  end.

(** The closure after one run: the variable it mutates on every run. *)
Definition next_closure (cb : callback) : callback :=
  match cb with
  | CbResetTick steps currentStep options =>
      CbResetTick steps (currentStep + 1) options
  | _ => cb
  end.

(** The pending timer that fires next. *)
Fixpoint earliest (ts : list timer) : option timer :=
  match ts with
  | [] => None
  | t :: rest =>
      match earliest rest with
      | Some u => if due u <? due t then Some u else Some t
      | None => Some t
      end
  end.

Definition has_timer (id : handle) (ts : list timer) : bool :=
  existsb (λ t, negb (is_frame t) && Pos.eqb (tid t) id) ts.

Definition remove_timer (id : handle) (ts : list timer) : list timer :=
  filter (λ t, tid t ≠ id) ts.

(** After the callback of an interval: re-arm it if it is still there. *)
Definition rearm (t : timer) (period : Z) (w : world) : world :=
  if has_timer (tid t) (timers w) then
    set_timers
      (remove_timer (tid t) (timers w)
         ++ [mkTimer (tid t) (now w + period) (Interval period)
               (next_closure (tcb t))]) w
  else w.

(** One turn of the event loop; [None] when nothing is pending. *)
Definition step (w : world) : option world :=
  match earliest (timers w) with
  | None => None
  | Some t =>
      let w := set_now (Z.max (now w) (due t)) w in
      match tkind t with
      | Interval period => Some (rearm t period (exec (tcb t) (tid t) w))
      | _ =>
          Some (exec (tcb t) (tid t)
                  (set_timers (remove_timer (tid t) (timers w)) w))
      end
  end.

Fixpoint run (n : nat) (w : world) : world :=
  match n with
  | O => w
  | S n => match step w with Some w' => run n w' | None => w end
  end.

(** A newly loaded page at time [t0], holding the object [c]. *)
Definition boot (t0 : Z) (c : Confetti) (rnd : nat → Q) (frame : Z)
  : world :=
  mkWorld t0 1%positive [] c [] rnd 0%nat frame.

(** The configurations rendered so far, in order. *)
Definition rendered (w : world) : list obj :=
  omap (λ e, match e.2 with Render _ config => Some config | _ => None end)
    (trace w).

(** * The vocabulary of the properties *)

(** The callbacks registered by the one-shot effects. *)
Definition launching (cb : callback) : bool :=
  match cb with
  | CbLaunch _ | CbFallShoot _ _ => true
  | _ => false
  end.

Definition one_shot (t : timer) : Prop :=
  tkind t = Timeout ∧ launching (tcb t) = true.

(** The single-burst effects of the options-object variant. *)
Definition single_burst_effects : list (option obj → world → world) :=
  [FastConfetti.custom; FastConfetti.cannon; FastConfetti.randomDirection;
   FastConfetti.realistic; FastConfetti.stars].

(** A page at time 0 with a default-constructed object, [Math.random]
    always 0 and a frame every 16 ms. *)
Definition page : world :=
  boot 0 (FastConfetti.constructor None) (λ _, 0%Q) 16.

(** The event of a burst launched in [w] with the call-site
    configuration [options]. *)
Definition burst (w : world) (options : obj) : event :=
  Render (confettiInstance (self w))
    (literal [Spread (Some (defaults (self w))); Spread (Some options)]).

Definition launch_timer (T : Z) (c : handle * obj) : timer :=
  mkTimer c.1 T Timeout (CbLaunch c.2).

(** What [realistic()] hands to the launch primitive, call by call. *)
Definition realistic_configs : list obj :=
  map (λ preset,
         literal (FastConfetti.realistic_fields preset.1 preset.2
                    ++ [Spread None]))
    FastConfetti.realistic_presets.

Definition pending_intervals (w : world) : list timer :=
  filter (λ t, is_frame t = false) (timers w).

(** The first action of [reset]: stop the frame-driven loop. *)
Definition stop_frames (w : world) : world :=
  match animationFrameId (self w) with
  | Some id => set_animationFrameId None (cancelAnimationFrame id w)
  | None => w
  end.

(** A running [infinite('cannon')] loop on a fresh page. *)
Definition looping : world :=
  FastConfetti.infinite m_cannon (Some 1000%Q) (Some 5000%Q) None page.


(** The pending callbacks whose handle the object holds: the frame in
    [animationFrameId], the interval (or timeout) in [timerId]. *)
Definition tracks (c : Confetti) (t : timer) : Prop :=
  (is_frame t = true ∧ animationFrameId c = Some (tid t))
  ∨ (is_frame t = false ∧ timerId c = Some (tid t)).

(** Handles are issued in increasing order: every pending handle is older
    than the next one. *)
Definition issued (w : world) : Prop :=
  Forall (λ t, (tid t < fresh w)%positive) (timers w).









(** C4 as claimed, of the scalars: burst [k] of the fade carries the
    rational [1 - k/40]. *)
Definition fades_by_fortieths (options : obj) (w : world) : Prop :=
  ∀ (k : nat) (c : obj),
    rendered (run 40 (FastConfetti.reset (Some "smooth") (Some options) w))
      !! k = Some c →
    ∃ q, c !! "scalar" = Some (VNum q)
         ∧ q == 1 - inject_Z (Z.of_nat (S k)) / 40.

(** The state [k] ticks into a fade started in [b]. *)
Definition fading (b : world) (steps : Q) (options : obj) (k : Z) : world :=
  mkWorld (now b + 50 * k) (Pos.succ (fresh b))
    [mkTimer (fresh b) (now b + 50 * (k + 1)) (Interval 50)
       (CbResetTick steps k options)]
    (self b)
    (trace b
       ++ map (λ j, (now b + 50 * j,
                     Render None (FastConfetti.reset_burst options j steps)))
            (seqZ 1 k))
    (random b) (draws b) (frame_ms b).

(** The state after the last tick of a fade started in [b]. *)
Definition faded (b : world) (steps : Q) (options : obj) (k : Z) : world :=
  mkWorld (now b + 50 * k) (Pos.succ (fresh b)) []
    (mkConfetti (defaults (self b)) (confettiInstance (self b)) None
       (animationFrameId (self b)))
    (trace b
       ++ map (λ j, (now b + 50 * j,
                     Render None (FastConfetti.reset_burst options j steps)))
            (seqZ 1 k)
       ++ [(now b + 50 * k, GlobalReset)])
    (random b) (draws b) (frame_ms b).

(** What [cannon()] hands to the launch primitive. *)
Definition cannon_config : obj :=
  literal (FastConfetti.cannon_fields ++ [Spread None]).


Definition with_timerId (h : option handle) (c : Confetti) : Confetti :=
  mkConfetti (defaults c) (confettiInstance c) h (animationFrameId c).











(** A pending delayed burst [L] next to the fade interval of a smooth
    reset started in [b], [k] ticks into the fade. *)
Definition racing (b : world) (L : timer) (steps : Q) (options : obj)
    (k : Z) : world :=
  mkWorld (now b + 50 * k) (Pos.succ (fresh b))
    [L; mkTimer (fresh b) (now b + 50 * (k + 1)) (Interval 50)
          (CbResetTick steps k options)]
    (self b)
    (trace b
       ++ map (λ j, (now b + 50 * j,
                     Render None (FastConfetti.reset_burst options j steps)))
            (seqZ 1 k))
    (random b) (draws b) (frame_ms b).

(** The invariant behind "every burst of an effect": [P] holds of every
    configuration that the effect hands to the launch primitives, [d] are
    the defaults of the object, [old] is what had been rendered before the
    effect was called. *)

(** The bursts that a pending callback can still launch satisfy [P]. *)
Definition launches (P : obj → Prop) (cb : callback) : Prop :=
  match cb with
  | CbLaunch cfg => P cfg
  | CbFireworksTick _ o =>
      ∀ pc x r,
        P (literal (FastConfetti.fireworks_fields pc x r ++ [Spread o]))
  | CbSnowStart o | CbSnowFrame _ _ o =>
      ∀ ticks x y g s dr,
        P (literal (FastConfetti.snow_fields ticks x y g s dr
                      ++ [Spread o]))
  | CbFallShoot ss o =>
      ∀ x r, P (literal (FastConfetti.fall_fields ss o x r ++ [Spread o]))
  | CbPrideFrame _ o =>
      P (literal (FastConfetti.pride_fields 60 0 ++ [Spread o]))
      ∧ P (literal (FastConfetti.pride_fields 120 1 ++ [Spread o]))
  | _ => False
  end.

Definition dispatched (P : obj → Prop) (d : obj) (old : list obj) (c : obj)
  : Prop :=
  c ∈ old
  ∨ ∃ cfg, P cfg ∧ c = literal [Spread (Some d); Spread (Some cfg)].

Definition bursts_inv (P : obj → Prop) (d : obj) (old : list obj)
    (w : world) : Prop :=
  defaults (self w) = d
  ∧ Forall (λ t, launches P (tcb t)) (timers w)
  ∧ Forall (dispatched P d old) (rendered w).

(** The effect-specific computed defaults of each effect: what its object
    literal holds before it spreads the caller's options.  [rnd] is the
    oracle of [Math.random]. *)
Inductive effect_layer (rnd : nat → Q) (options : option obj)
  : method → obj → Prop :=
| layer_cannon :
    effect_layer rnd options m_cannon (literal FastConfetti.cannon_fields)
| layer_randomDirection (i j k : nat) :
    effect_layer rnd options m_randomDirection
      (literal (FastConfetti.randomDirection_fields (rnd i) (rnd j) (rnd k)))
| layer_realistic (preset : Q * obj) :
    preset ∈ FastConfetti.realistic_presets →
    effect_layer rnd options m_realistic
      (literal (FastConfetti.realistic_fields preset.1 preset.2))
| layer_fireworks (particleCount x r : Q) :
    effect_layer rnd options m_fireworks
      (literal (FastConfetti.fireworks_fields particleCount x r))
| layer_stars :
    effect_layer rnd options m_stars (literal FastConfetti.stars_fields)
| layer_snow (ticks x y gravity scalar drift : Q) :
    effect_layer rnd options m_snow
      (literal (FastConfetti.snow_fields ticks x y gravity scalar drift))
| layer_fall (processedShapes : list shape) (x r : Q) :
    effect_layer rnd options m_fall
      (literal (FastConfetti.fall_fields processedShapes options x r))
| layer_pride_left :
    effect_layer rnd options m_pride
      (literal (FastConfetti.pride_fields 60 0))
| layer_pride_right :
    effect_layer rnd options m_pride
      (literal (FastConfetti.pride_fields 120 1)).

(** The merge order: the caller's options, then the effect's computed
    defaults, then the defaults of the object. *)
Definition layered (options : option obj) (e d c : obj) : Prop :=
  ∀ k, c !! k
       = match field options k with
         | Some v => Some v
         | None => match e !! k with Some v => Some v | None => d !! k end
         end.

(** What an effect hands to the launch primitives. *)
Definition handed (rnd : nat → Q) (options : option obj) (m : method)
    (cfg : obj) : Prop :=
  ∃ e, effect_layer rnd options m e ∧ cfg = assign e (Spread options).

(** C1 as claimed, for one field: what the caller put in [options] is what
    every burst of the call carries. *)
Definition override_wins (call : option obj → world → world)
    (options : option obj) (w : world) (k : string) : Prop :=
  ∀ v c, field options k = Some v →
    c ∈ rendered (run 1 (call options w)) → c !! k = Some v.

(** The particle count of a configuration is a non-negative integer. *)
Definition count_ok (c : obj) : Prop :=
  ∃ (n : Z) (q : Q),
    0 <= n ∧ c !! "particleCount" = Some (VNum q) ∧ q == inject_Z n.

(** C3 as claimed, of the bursts rendered so far. *)
Definition counts_ok (w : world) : Prop :=
  ∀ c, c ∈ rendered w → count_ok c.

(** The effects whose computed particle count is an integer. *)
Definition counted_effects : list method :=
  [m_cannon; m_randomDirection; m_realistic; m_stars; m_snow; m_fall;
   m_pride].

(** ** The smooth reset, for any duration *)



(** ** The bursts of [fall] *)

(** The [i]-th handle issued from [h] on. *)
Definition handle_at (h : handle) (i : nat) : handle :=
  Pos.of_nat (Pos.to_nat h + i).

(** What iteration [i] of the loop of [shoot] hands to the launch
    primitive, when the loop starts with the draws of [w]. *)
Definition fall_config (processedShapes : list shape) (options : option obj)
    (w : world) (i : nat) : obj :=
  literal
    (FastConfetti.fall_fields processedShapes options
       (random w (draws w + 2 * i)) (random w (draws w + 2 * i + 1))
       ++ [Spread options]).

(** ** An [infinite('cannon', interval, duration)] loop, tick by tick *)

(** The events of the [j]-th invocation of [cannon] by a loop of period
    [p] started at the time of [b]. *)
Definition loop_shot (b : world) (p j : Z) : list (Z * event) :=
  [(now b + p * j, Invoke m_cannon);
   (now b + p * j, burst b cannon_config)].

(** The interval callback of the loop of duration [D] started in [b]. *)
Definition loop_tick (b : world) (D : Z) : callback :=
  CbInfiniteTick (inject_Z (now b) + inject_Z D) 0 m_cannon None.

(** The state after [k] ticks of the loop, next handle [next]. *)
Definition loop_at (b : world) (p D : Z) (next : handle) (k : Z) : world :=
  mkWorld (now b + p * k) next
    [mkTimer (fresh b) (now b + p * (k + 1)) (Interval p) (loop_tick b D)]
    (with_timerId (Some (fresh b)) (self b))
    (trace b ++ concat (map (loop_shot b p) (seqZ 1 k)))
    (random b) (draws b) (frame_ms b).

(** The state once the loop has stopped itself at its [k]-th tick. *)
Definition loop_stopped (b : world) (p : Z) (next : handle) (k : Z) : world :=
  mkWorld (now b + p * k) next []
    (with_timerId None (self b))
    (trace b ++ concat (map (loop_shot b p) (seqZ 1 (k - 1))))
    (random b) (draws b) (frame_ms b).

(** ** A [fireworks] loop, tick by tick *)







(** ** A [snow] loop, frame by frame *)










(** ** A [pride] loop, frame by frame *)






(** ** Calls and turns, in any order *)

(** A call of a public method of the options-object variant, a turn of the
    event loop, or the passing of time. *)
Inductive action : Type :=
| Turn
| Wait (until : Z)
| Call (m : method) (options : option obj)
| CallCustom (options : option obj)
| CallInfinite (m : method) (interval duration : option Q)
    (options : option obj)
| CallReset (type : option string) (options : option obj)
| CallCustomCanvas (c : option canvas).

Definition perform (a : action) (w : world) : world :=
  match a with
  | Turn => default w (step w)
  | Wait until => set_now (Z.max (now w) until) w
  | Call m options => FastConfetti.call_method m options w
  | CallCustom options => FastConfetti.custom options w
  | CallInfinite m interval duration options =>
      FastConfetti.infinite m interval duration options w
  | CallReset type options => FastConfetti.reset type options w
  | CallCustomCanvas c => FastConfetti.customCanvas c w
  end.

Definition script (actions : list action) (w : world) : world :=
  foldl (λ w a, perform a w) w actions.

(** The interval of an [infinite] loop is pending under the handle [id],
    and the object no longer holds that handle. *)
Definition orphan (id : handle) (w : world) : Prop :=
  (∃ t, t ∈ timers w ∧ tid t = id)
  ∧ (∀ t, t ∈ timers w → tid t = id →
       ∃ p e d m o, tkind t = Interval p ∧ tcb t = CbInfiniteTick e d m o)
  ∧ timerId (self w) ≠ Some id
  ∧ (id < fresh w)%positive.

(** The calls that start an interval loop and store its handle. *)
Definition overwrites (a : action) : Prop :=
  match a with
  | CallInfinite _ _ _ _ | Call m_fireworks _ => True
  | _ => False
  end.

(** ** The bursts of the colours-array variant *)

(** The event of a burst launched in [w] by the colours-array variant with
    the arguments [colors] and [options]. *)
Definition legacy_burst (w : world) (colors : option (list string))
    (options : option obj) : event :=
  Render (confettiInstance (self w))
    (literal [Spread (Some (defaults (self w)));
              Field "colors"
                match colors with
                | Some (c :: cs) => VColors (c :: cs)
                | _ => default VUndef (defaults (self w) !! "colors")
                end;
              Spread options]).

Definition legacy_launch_timer (colors : option (list string)) (T : Z)
    (c : handle * option obj) : timer :=
  mkTimer c.1 T Timeout (CbLaunchColors colors c.2).

(** What the colours-array [realistic] hands to the launch primitive, call
    by call. *)
Definition legacy_realistic_configs (options : option obj) : list obj :=
  map (λ preset : Q * obj,
         literal [Field "origin" (VOrigin None (Some 0.7%Q));
                  Field "particleCount" (VNum (Math_floor (200 * preset.1)));
                  Spread (Some preset.2);
                  Spread options])
    FastConfetti.realistic_presets.

(** * Properties *)

(** ** Object literals *)

Lemma literal_snoc (parts : list part) (p : part) :
  literal (parts ++ [p]) = assign (literal parts) p.
Proof. unfold literal. by rewrite foldl_app. Qed.

Lemma lookup_assign_spread (src : option obj) (acc : obj) (k : string) :
  assign acc (Spread src) !! k
  = match field src k with Some v => Some v | None => acc !! k end.
Proof.
  destruct src as [o|]; simpl.
  - rewrite lookup_union. destruct (o !! k), (acc !! k); reflexivity.
  - rewrite lookup_union, lookup_empty. by destruct (acc !! k).
Qed.

Lemma lookup_assign_field (key : string) (v : value) (acc : obj) (k : string) :
  assign acc (Field key v) !! k
  = if decide (key = k) then Some v else acc !! k.
Proof. simpl. apply lookup_insert. Qed.

(** A literal that ends in [...options]: the properties of [options] win,
    the others are those of the literal without the spread. *)
Lemma lookup_literal_spread (parts : list part) (src : option obj)
    (k : string) :
  literal (parts ++ [Spread src]) !! k
  = match field src k with Some v => Some v | None => literal parts !! k end.
Proof. rewrite literal_snoc. apply lookup_assign_spread. Qed.

(** The [finalOptions] of [launchConfetti]. *)
Lemma lookup_finalOptions (d options : obj) (k : string) :
  literal [Spread (Some d); Spread (Some options)] !! k
  = match options !! k with Some v => Some v | None => d !! k end.
Proof.
  change [Spread (Some d); Spread (Some options)]
    with ([Spread (Some d)] ++ [Spread (Some options)]).
  rewrite lookup_literal_spread. simpl. destruct (options !! k); [done|].
  change [Spread (Some d)] with ([] ++ [Spread (Some d)]).
  rewrite lookup_literal_spread. simpl. destruct (d !! k); [done|].
  apply lookup_empty.
Qed.

(** ** The timer queue *)

Arguments literal : simpl never.
Arguments num_or : simpl never.
Arguments ms : simpl never.

Lemma ms_nonneg (q : Q) : 0 <= ms q.
Proof. unfold ms. lia. Qed.

Lemma ms_inject_Z (z : Z) : 0 <= z → ms (inject_Z z) = z.
Proof. intros H. unfold ms. rewrite Qfloor_Z. lia. Qed.

Lemma earliest_elem (ts : list timer) (t : timer) :
  earliest ts = Some t → t ∈ ts.
Proof.
  revert t. induction ts as [|a ts IH]; intros t; simpl; [done|].
  destruct (earliest ts) as [u|].
  - destruct (due u <? due a); intros [= <-].
    + right. by apply IH.
    + left.
  - intros [= <-]. left.
Qed.

Lemma earliest_None (ts : list timer) : earliest ts = None → ts = [].
Proof.
  destruct ts as [|a ts]; simpl; [done|].
  destruct (earliest ts) as [u|]; [destruct (due u <? due a)|]; done.
Qed.

Lemma remove_timer_subseteq (id : handle) (ts : list timer) :
  remove_timer id ts ⊆ ts.
Proof. intros t. unfold remove_timer. rewrite list_elem_of_filter. tauto. Qed.

Lemma clearInterval_subseteq (id : handle) (w : world) :
  timers (clearInterval id w) ⊆ timers w.
Proof. intros t. simpl. rewrite list_elem_of_filter. tauto. Qed.

Lemma cancelAnimationFrame_subseteq (id : handle) (w : world) :
  timers (cancelAnimationFrame id w) ⊆ timers w.
Proof. intros t. simpl. rewrite list_elem_of_filter. tauto. Qed.

(** ** Callbacks that only launch bursts *)

Lemma launchConfettiWithDelay_self (options : obj) (w : world) :
  self (FastConfetti.launchConfettiWithDelay options w) = self w.
Proof. reflexivity. Qed.

Lemma launchConfettiWithDelay_timers (options : obj) (w : world) :
  timers (FastConfetti.launchConfettiWithDelay options w)
  = timers w
      ++ [mkTimer (fresh w) (now w + ms (num_or (options !! "delay") 0))
            Timeout (CbLaunch options)].
Proof. reflexivity. Qed.

Lemma launchConfettiWithDelay_one_shot (options : obj) (w : world) :
  Forall one_shot (timers w) →
  Forall one_shot (timers (FastConfetti.launchConfettiWithDelay options w)).
Proof.
  intros H. rewrite launchConfettiWithDelay_timers.
  apply Forall_app. split; [done|]. by repeat constructor.
Qed.

Lemma fall_burst_self (ss : list shape) (options : option obj) (w : world) :
  self (FastConfetti.fall_burst ss options w) = self w.
Proof. reflexivity. Qed.

Lemma fall_burst_one_shot (ss : list shape) (options : option obj)
    (w : world) :
  Forall one_shot (timers w) →
  Forall one_shot (timers (FastConfetti.fall_burst ss options w)).
Proof.
  intros H. unfold FastConfetti.fall_burst. simpl.
  apply Forall_app. split; [done|]. by repeat constructor.
Qed.

Lemma fall_shoot_quiet (ss : list shape) (options : option obj) (w : world) :
  Forall one_shot (timers w) →
  self (FastConfetti.fall_shoot ss options w) = self w
  ∧ Forall one_shot (timers (FastConfetti.fall_shoot ss options w)).
Proof.
  unfold FastConfetti.fall_shoot. generalize 10%nat as n.
  induction n as [|n IH]; intros H; [done|].
  rewrite Nat.iter_succ. destruct (IH H) as [IH1 IH2]. split.
  - by rewrite fall_burst_self.
  - by apply fall_burst_one_shot.
Qed.

Lemma exec_launching (cb : callback) (id : handle) (w : world) :
  launching cb = true →
  Forall one_shot (timers w) →
  self (exec cb id w) = self w ∧ Forall one_shot (timers (exec cb id w)).
Proof.
  destruct cb; simpl; try done; intros _ H.
  by apply fall_shoot_quiet.
Qed.

Lemma step_one_shot (w w' : world) :
  Forall one_shot (timers w) →
  step w = Some w' →
  self w' = self w ∧ Forall one_shot (timers w').
Proof.
  intros H. unfold step.
  destruct (earliest (timers w)) as [t|] eqn:E; [|done].
  apply earliest_elem in E.
  destruct (proj1 (Forall_forall _ _) H t E) as [Hk Hl].
  rewrite Hk. intros [= <-].
  apply (exec_launching (tcb t) (tid t)
           (set_timers (remove_timer (tid t) (timers w))
              (set_now (now w `max` due t) w))); [done|]. simpl.
  eapply Forall_forall. intros x Hx.
  apply (proj1 (Forall_forall _ _) H). by apply remove_timer_subseteq in Hx.
Qed.

Lemma run_one_shot (n : nat) (w : world) :
  Forall one_shot (timers w) → self (run n w) = self w.
Proof.
  revert w. induction n as [|n IH]; intros w H; simpl; [done|].
  destruct (step w) as [w'|] eqn:E; [|done].
  destruct (step_one_shot _ _ H E) as [Hs Ht]. by rewrite IH.
Qed.

Lemma fall_self (options : option obj) (w : world) :
  self (FastConfetti.fall options w) = self w.
Proof.
  unfold FastConfetti.fall. simpl.
  generalize (concat (map snd (map (FastConfetti.process_shape options)
                                 (FastConfetti.fall_shapes options)))).
  intros l. revert w. induction l as [|m l IH]; intros w; simpl; [done|].
  by rewrite IH.
Qed.

Lemma fall_timers (options : option obj) (w : world) :
  ∃ t, one_shot t ∧ timers (FastConfetti.fall options w) = timers w ++ [t].
Proof.
  unfold FastConfetti.fall. simpl.
  generalize (concat (map snd (map (FastConfetti.process_shape options)
                                 (FastConfetti.fall_shapes options)))).
  intros l.
  assert (G : ∀ w,
    now (foldl (λ w m, emit (Warn m) w) w l) = now w
    ∧ fresh (foldl (λ w m, emit (Warn m) w) w l) = fresh w
    ∧ timers (foldl (λ w m, emit (Warn m) w) w l) = timers w).
  { induction l as [|m l IH]; intros w'; simpl; [done|].
    destruct (IH (emit (Warn m) w')) as (-> & -> & ->). done. }
  destruct (G w) as (-> & -> & ->).
  eexists. split; [|reflexivity]. by split.
Qed.

(** ** C10: the one-shot effects leave the stored state alone *)

Lemma single_burst_one_shot (f : option obj → world → world)
    (options : option obj) (w : world) :
  f ∈ single_burst_effects →
  self (f options w) = self w
  ∧ (Forall one_shot (timers w) → Forall one_shot (timers (f options w))).
Proof.
  unfold single_burst_effects. intros Hf.
  repeat (apply elem_of_cons in Hf as [->|Hf]);
    [..|by apply elem_of_nil in Hf]; (split; [reflexivity|]); intros H.
  - by apply launchConfettiWithDelay_one_shot.
  - by apply launchConfettiWithDelay_one_shot.
  - unfold FastConfetti.randomDirection. simpl.
    apply Forall_app. split; [done|]. by repeat constructor.
  - unfold FastConfetti.realistic, FastConfetti.realistic_fire.
    generalize FastConfetti.realistic_presets. intros l. revert w H.
    induction l as [|p l IH]; intros w H; simpl; [done|].
    apply IH. by apply launchConfettiWithDelay_one_shot.
  - by apply launchConfettiWithDelay_one_shot.
Qed.

(** C10.  In the options-object variant, [custom], [cannon],
    [randomDirection], [realistic] and [stars] return with every stored
    field of the object ([defaults], [confettiInstance], [timerId],
    [animationFrameId]) as it was, in any state; so does [fall].  When the
    only pending callbacks are those of such effects, the object is still
    unchanged after any number of turns of the event loop, that is, after
    the delayed bursts have fired.  The other public methods do write a
    field: [fireworks] and [infinite] write [timerId], [snow] (in its
    delayed start) and [pride] write [animationFrameId], [reset] empties
    [timerId], and [customCanvas] writes [confettiInstance]. *)
Theorem single_burst_effects_keep_state (options : option obj) (w : world) :
  Forall one_shot (timers w) →
  (∀ f w', f ∈ single_burst_effects → self (f options w') = self w')
  ∧ (∀ w', self (FastConfetti.fall options w') = self w')
  ∧ (∀ f n, f ∈ single_burst_effects → self (run n (f options w)) = self w)
  ∧ (∀ n, self (run n (FastConfetti.fall options w)) = self w)
  ∧ (timerId (self page) = None
     ∧ timerId (self (FastConfetti.fireworks None page)) = Some 1%positive)
  ∧ (timerId (self (FastConfetti.infinite m_cannon None None None page))
     = Some 1%positive)
  ∧ (animationFrameId (self page) = None
     ∧ animationFrameId (self (run 1 (FastConfetti.snow None page)))
       = Some 2%positive)
  ∧ animationFrameId (self (FastConfetti.pride None page)) = Some 1%positive
  ∧ (timerId
       (self (FastConfetti.reset (Some "instant") None
                (FastConfetti.infinite m_cannon None None None page)))
     = None)
  ∧ (confettiInstance (self page) = None
     ∧ confettiInstance (self (FastConfetti.customCanvas (Some 7%nat) page))
       = Some 7%nat).
Proof.
  intros H. split; [|split; [|split; [|split]]].
  - intros f w' Hf. by apply single_burst_one_shot.
  - apply fall_self.
  - intros f n Hf.
    destruct (single_burst_one_shot f options w Hf) as [Hs Ht].
    rewrite run_one_shot; [done|]. by apply Ht.
  - intros n. rewrite run_one_shot; [apply fall_self|].
    destruct (fall_timers options w) as (t & Ht & ->).
    apply Forall_app. split; [done|]. by apply Forall_singleton.
  - repeat split; reflexivity.
Qed.

Lemma single_burst_effects_keep_state_witness :
  Forall one_shot (timers page)
  ∧ self (run 1 (FastConfetti.cannon None page)) = self page.
Proof.
  assert (H : Forall one_shot (timers page)) by constructor.
  split; [exact H|].
  refine (proj1 (proj2 (proj2
    (single_burst_effects_keep_state None page H)))
    FastConfetti.cannon 1%nat _).
  right. left.
Defined.

(** ** Turns of the event loop, one at a time *)

Lemma run_S (n : nat) (w w' : world) :
  step w = Some w' → run (S n) w = run n w'.
Proof. intros H. simpl. by rewrite H. Qed.

Lemma run_stuck (n : nat) (w : world) : timers w = [] → run n w = w.
Proof.
  intros H. destruct n as [|n]; [done|]. simpl. unfold step. by rewrite H.
Qed.

Lemma step_None (w : world) : step w = None ↔ timers w = [].
Proof.
  unfold step. split.
  - destruct (earliest (timers w)) as [t|] eqn:E.
    + by destruct (tkind t).
    + intros _. by apply earliest_None.
  - by intros ->.
Qed.

Lemma earliest_pick (before after : list timer) (t : timer) :
  Forall (λ u, due t < due u) before →
  Forall (λ u, due t <= due u) after →
  earliest (before ++ t :: after) = Some t.
Proof.
  intros Hb Ha.
  assert (E : earliest (t :: after) = Some t).
  { simpl. destruct (earliest after) as [u|] eqn:E; [|done].
    apply earliest_elem in E.
    pose proof (proj1 (Forall_forall _ _) Ha u E) as Hu.
    by rewrite (proj2 (Z.ltb_ge _ _) Hu). }
  induction Hb as [|b before Hb _ IH]; [done|].
  simpl. rewrite IH. by rewrite (proj2 (Z.ltb_lt _ _) Hb).
Qed.

Lemma filter_all {A} (P : A → Prop) `{∀ x, Decision (P x)} (l : list A) :
  Forall P l → filter P l = l.
Proof.
  induction 1 as [|x l Hx _ IH]; [done|].
  by rewrite filter_cons_True, IH.
Qed.

Lemma remove_timer_pick (before after : list timer) (t : timer) :
  Forall (λ u, tid u ≠ tid t) (before ++ after) →
  remove_timer (tid t) (before ++ t :: after) = before ++ after.
Proof.
  intros H. apply Forall_app in H as [Hb Ha]. unfold remove_timer.
  rewrite filter_app, filter_cons_False by (intros ?; congruence).
  by rewrite !filter_all.
Qed.

(** The next turn, when the timer that fires is a one-shot. *)
Lemma step_timeout (w : world) (before after : list timer) (t : timer) :
  timers w = before ++ t :: after →
  tkind t = Timeout →
  Forall (λ u, due t < due u) before →
  Forall (λ u, due t <= due u) after →
  Forall (λ u, tid u ≠ tid t) (before ++ after) →
  step w
  = Some (exec (tcb t) (tid t)
            (set_timers (before ++ after) (set_now (now w `max` due t) w))).
Proof.
  intros Ht Hk Hb Ha Hid. unfold step.
  rewrite Ht, (earliest_pick _ _ _ Hb Ha), Hk.
  cbn [set_now timers]. rewrite Ht.
  by rewrite (remove_timer_pick _ _ _ Hid).
Qed.

Lemma step_launch_head (T : Z) (c : handle * obj)
    (cfgs : list (handle * obj)) (w : world) :
  timers w = map (launch_timer T) (c :: cfgs) →
  NoDup (map fst (c :: cfgs)) →
  step w
  = Some (mkWorld (now w `max` T) (fresh w) (map (launch_timer T) cfgs)
            (self w) (trace w ++ [(now w `max` T, burst w c.2)])
            (random w) (draws w) (frame_ms w)).
Proof.
  intros Ht Hnd. simpl in Ht, Hnd. apply NoDup_cons in Hnd as [Hid Hnd].
  rewrite (step_timeout w [] (map (launch_timer T) cfgs) (launch_timer T c));
    [done|done|done|constructor|..].
  - apply Forall_forall. intros u Hu.
    apply list_elem_of_fmap in Hu as (c' & -> & _). done.
  - simpl. apply Forall_forall. intros u Hu.
    apply list_elem_of_fmap in Hu as (c' & -> & Hc). simpl.
    intros E. apply Hid. apply list_elem_of_fmap. by exists c'.
Qed.

Lemma run_launches_now (cfgs : list (handle * obj)) (w : world) :
  timers w = map (launch_timer (now w)) cfgs →
  NoDup (map fst cfgs) →
  run (length cfgs) w
  = mkWorld (now w) (fresh w) [] (self w)
      (trace w ++ map (λ c, (now w, burst w c.2)) cfgs)
      (random w) (draws w) (frame_ms w).
Proof.
  revert w. induction cfgs as [|c cfgs IH]; intros w Ht Hnd.
  - destruct w; simpl in *; subst. by rewrite app_nil_r.
  - cbn [length]. rewrite (run_S _ _ _ (step_launch_head _ _ _ _ Ht Hnd)).
    apply NoDup_cons in Hnd as [_ Hnd].
    rewrite Z.max_id. rewrite IH; [|done|done].
    simpl. by rewrite <- app_assoc.
Qed.

(** A batch of delayed bursts that are due together fires in the order of
    registration. *)
Lemma run_launches (cfgs : list (handle * obj)) (T : Z) (w : world) :
  timers w = map (launch_timer T) cfgs →
  NoDup (map fst cfgs) →
  now w <= T →
  cfgs ≠ [] →
  run (length cfgs) w
  = mkWorld T (fresh w) [] (self w)
      (trace w ++ map (λ c, (T, burst w c.2)) cfgs)
      (random w) (draws w) (frame_ms w).
Proof.
  intros Ht Hnd Hnow Hne. destruct cfgs as [|c cfgs]; [done|].
  cbn [length]. rewrite (run_S _ _ _ (step_launch_head _ _ _ _ Ht Hnd)).
  apply NoDup_cons in Hnd as [_ Hnd].
  rewrite Z.max_r by done. rewrite run_launches_now; [|done|done].
  simpl. by rewrite <- app_assoc.
Qed.

(** ** C2: the five bursts of [realistic] *)

Ltac nodup_handles :=
  repeat (apply NoDup_cons; split;
          [rewrite ?not_elem_of_cons; repeat split;
           try apply not_elem_of_nil; lia|]);
  apply NoDup_nil; exact I.

Lemma realistic_run (w : world) :
  timers w = [] →
  run 5 (FastConfetti.realistic None w)
  = mkWorld (now w) (Pos.iter Pos.succ (fresh w) 5) [] (self w)
      (trace w ++ map (λ cfg, (now w, burst w cfg)) realistic_configs)
      (random w) (draws w) (frame_ms w).
Proof.
  intros H. destruct w as [t0 fr ts c tr rnd dr fm]. simpl in H. subst ts.
  set (ids := [fr; Pos.succ fr; Pos.succ (Pos.succ fr);
               Pos.succ (Pos.succ (Pos.succ fr));
               Pos.succ (Pos.succ (Pos.succ (Pos.succ fr)))]).
  rewrite (run_launches (zip ids realistic_configs) (t0 + 0)).
  - cbn [now]. rewrite Z.add_0_r. reflexivity.
  - reflexivity.
  - change (map fst (zip ids realistic_configs)) with ids. subst ids.
    nodup_handles.
  - change (t0 <= t0 + 0). lia.
  - done.
Qed.

Lemma realistic_schedule (w : world) :
  ∃ ids : list handle,
    length ids = 5%nat
    ∧ timers (FastConfetti.realistic None w)
      = timers w ++ map (launch_timer (now w)) (zip ids realistic_configs).
Proof.
  exists [fresh w; Pos.succ (fresh w); Pos.succ (Pos.succ (fresh w));
          Pos.succ (Pos.succ (Pos.succ (fresh w)));
          Pos.succ (Pos.succ (Pos.succ (Pos.succ (fresh w))))].
  split; [done|].
  rewrite <- (Z.add_0_r (now w)).
  unfold FastConfetti.realistic, FastConfetti.realistic_presets,
    FastConfetti.realistic_fire.
  cbn [foldl fst snd]. rewrite !launchConfettiWithDelay_timers.
  rewrite <- !app_assoc. reflexivity.
Qed.

Lemma realistic_counts (d : obj) :
  map (λ cfg,
         literal [Spread (Some d); Spread (Some cfg)] !! "particleCount")
    realistic_configs
  = [Some (VNum 50); Some (VNum 40); Some (VNum 70); Some (VNum 20);
     Some (VNum 20)].
Proof.
  unfold realistic_configs, FastConfetti.realistic_presets.
  cbn [map]. rewrite !lookup_finalOptions. reflexivity.
Qed.

(** C2.  [realistic()] registers five delayed bursts, in the order of its
    five calls to [fire], in any state.  On an object with nothing else
    pending, the event loop then dispatches exactly these five bursts, in
    that order, and nothing remains pending; their particle counts are 50,
    40, 70, 20 and 20, whatever the defaults of the object.  The same five
    numbers come out of [Math.floor(200 * ratio)] evaluated on IEEE-754
    doubles. *)
Theorem realistic_five_bursts (w : world) :
  timers w = [] →
  let w' := run 5 (FastConfetti.realistic None w) in
  (∀ w0, ∃ ids : list handle,
      length ids = 5%nat
      ∧ timers (FastConfetti.realistic None w0)
        = timers w0
            ++ map (launch_timer (now w0)) (zip ids realistic_configs))
  ∧ trace w'
    = trace w ++ map (λ cfg, (now w, burst w cfg)) realistic_configs
  ∧ timers w' = []
  ∧ step w' = None
  ∧ length realistic_configs = 5%nat
  ∧ map (λ cfg,
           literal [Spread (Some (defaults (self w))); Spread (Some cfg)]
             !! "particleCount")
      realistic_configs
    = [Some (VNum 50); Some (VNum 40); Some (VNum 70); Some (VNum 20);
       Some (VNum 20)]
  ∧ map (λ preset, Binary64.realistic_count preset.1)
      FastConfetti.realistic_presets
    = [Some 50; Some 40; Some 70; Some 20; Some 20].
Proof.
  intros H w'. subst w'. rewrite (realistic_run w H).
  split; [apply realistic_schedule|].
  split; [reflexivity|]. split; [reflexivity|]. split; [reflexivity|].
  split; [reflexivity|]. split; [apply realistic_counts|].
  vm_compute. reflexivity.
Qed.

Lemma realistic_five_bursts_witness :
  timers page = []
  ∧ rendered (run 5 (FastConfetti.realistic None page))
    = map (λ cfg,
             literal [Spread (Some (defaults (self page)));
                      Spread (Some cfg)])
        realistic_configs.
Proof.
  split; [reflexivity|].
  unfold rendered.
  rewrite (proj1 (proj2 (realistic_five_bursts page eq_refl))).
  reflexivity.
Defined.

(** ** C6: [reset] with an unknown mode *)

Lemma cancelAnimationFrame_intervals (id : handle) (w : world) :
  pending_intervals (cancelAnimationFrame id w) = pending_intervals w.
Proof.
  unfold pending_intervals, cancelAnimationFrame. cbn [timers set_timers].
  rewrite list_filter_filter. apply list_filter_iff.
  intros t. split; [tauto|]. intros H. split; [done|]. rewrite H. by intros [? _].
Qed.

Lemma has_timer_false (id : handle) (ts : list timer) :
  has_timer id ts = false
  ↔ Forall (λ t, ¬ (is_frame t = false ∧ tid t = id)) ts.
Proof.
  unfold has_timer. induction ts as [|t ts IH]; simpl.
  - split; [constructor|done].
  - rewrite orb_false_iff, IH, Forall_cons, andb_false_iff.
    rewrite negb_false_iff, Pos.eqb_neq.
    destruct (is_frame t); intuition congruence.
Qed.

Lemma has_timer_clearInterval (id : handle) (w : world) :
  has_timer id (timers (clearInterval id w)) = false.
Proof.
  apply has_timer_false, Forall_forall. intros t Ht.
  simpl in Ht. by apply list_elem_of_filter in Ht as [Ht _].
Qed.

Lemma stop_frames_spec (w : world) :
  now (stop_frames w) = now w
  ∧ trace (stop_frames w) = trace w
  ∧ timerId (self (stop_frames w)) = timerId (self w)
  ∧ animationFrameId (self (stop_frames w)) = None
  ∧ pending_intervals (stop_frames w) = pending_intervals w.
Proof.
  unfold stop_frames. destruct (animationFrameId (self w)) as [id|] eqn:E.
  - repeat split. apply (cancelAnimationFrame_intervals id w).
  - done.
Qed.

Lemma reset_instant (options : option obj) (w : world) :
  FastConfetti.reset (Some "instant") options w
  = emit GlobalReset
      match timerId (self (stop_frames w)) with
      | Some id => set_timerId None (clearInterval id (stop_frames w))
      | None => stop_frames w
      end.
Proof. reflexivity. Qed.

(** C6 (what the code does).  For a mode other than ['instant'] and
    ['smooth'], [reset] cancels the frame-driven loop, logs the warning
    "Defaulting to instant reset" and calls the global clear, but it does
    not touch the interval loop: [timerId] keeps its value and every
    pending interval stays pending, whereas ['instant'] in the same state
    empties [timerId] and clears that interval. *)
Theorem reset_unknown_mode_keeps_interval (type : string)
    (options : option obj) (w : world) :
  type ≠ "instant" → type ≠ "smooth" →
  let w' := FastConfetti.reset (Some type) options w in
  trace w'
  = trace w
      ++ [(now w, Warn ("Unknown reset type: " +:+ type
                        +:+ ". Defaulting to instant reset."));
          (now w, GlobalReset)]
  ∧ animationFrameId (self w') = None
  ∧ timerId (self w') = timerId (self w)
  ∧ pending_intervals w' = pending_intervals w
  ∧ timerId (self (FastConfetti.reset (Some "instant") options w)) = None
  ∧ (∀ id, timerId (self w) = Some id →
       has_timer id
         (timers (FastConfetti.reset (Some "instant") options w)) = false).
Proof.
  intros Hi Hs w'. subst w'. unfold FastConfetti.reset.
  change (default "smooth" (Some type)) with type.
  change (default "smooth" (Some "instant")) with "instant".
  apply String.eqb_neq in Hi, Hs. rewrite Hi, Hs.
  change (String.eqb "instant" "instant") with true. cbn iota.
  fold (stop_frames w).
  destruct (stop_frames_spec w) as (Hn & Ht & Hti & Haf & Hp).
  split; [cbn; rewrite Hn, Ht, <- app_assoc; reflexivity|].
  split; [exact Haf|]. split; [exact Hti|]. split; [exact Hp|].
  rewrite <- Hti.
  destruct (timerId (self (stop_frames w))) as [i|] eqn:E.
  - split; [reflexivity|]. intros id [= <-]. cbn [emit timers set_timerId set_self].
    apply has_timer_clearInterval.
  - split; [exact E|]. intros id [=].
Qed.

Lemma reset_unknown_mode_keeps_interval_witness :
  "gentle" ≠ "instant" ∧ "gentle" ≠ "smooth"
  ∧ timerId (self (FastConfetti.reset (Some "gentle") None looping))
    = Some 1%positive
  ∧ timerId (self (FastConfetti.reset (Some "instant") None looping)) = None.
Proof.
  assert (Hi : "gentle" ≠ "instant") by discriminate.
  assert (Hs : "gentle" ≠ "smooth") by discriminate.
  pose proof (reset_unknown_mode_keeps_interval "gentle" None looping Hi Hs)
    as (_ & _ & Ht & _ & Hinst & _).
  split; [exact Hi|]. split; [exact Hs|]. split; [|exact Hinst].
  rewrite Ht. vm_compute. reflexivity.
Defined.

(** At the failing input the loop goes on after the reset: the interval
    ticks again and [cannon] is invoked and renders. *)
Lemma reset_unknown_mode_loop_goes_on :
  let w := FastConfetti.reset (Some "gentle") None looping in
  map tid (timers w) = [1%positive]
  ∧ map (λ e, e.1) (trace (run 3 w)) = [0; 0; 1000; 1000]
  ∧ (∃ config, map snd (trace (run 3 w))
       = [Warn "Unknown reset type: gentle. Defaulting to instant reset.";
          GlobalReset; Invoke m_cannon; Render None config])
  ∧ timers (FastConfetti.reset (Some "instant") None looping) = [].
Proof.
  repeat split; try (vm_compute; reflexivity).
  eexists. vm_compute. reflexivity.
Qed.

(** ** C7: starting a loop while another one runs *)


Lemma elem_of_stop_frames (u : world) (t : timer) :
  t ∈ timers (stop_frames u)
  ↔ t ∈ timers u
    ∧ ¬ (is_frame t = true ∧ animationFrameId (self u) = Some (tid t)).
Proof.
  unfold stop_frames. destruct (animationFrameId (self u)) as [a|].
  - cbn [set_animationFrameId set_self cancelAnimationFrame set_timers timers].
    rewrite list_elem_of_filter. split.
    + intros [H1 H2]. split; [done|]. intros [H3 [= ->]]. by apply H1.
    + intros [H1 H2]. split; [|done]. intros [H3 <-]. by apply H2.
  - split; [|by intros [? _]]. intros H. split; [done|]. by intros [_ ?].
Qed.

Lemma elem_of_clear_tracked (u : world) (t : timer) :
  t ∈ timers match timerId (self u) with
             | Some id => set_timerId None (clearInterval id u)
             | None => u
             end
  ↔ t ∈ timers u ∧ ¬ (is_frame t = false ∧ timerId (self u) = Some (tid t)).
Proof.
  destruct (timerId (self u)) as [i|].
  - cbn [set_timerId set_self clearInterval set_timers timers].
    rewrite list_elem_of_filter. split.
    + intros [H1 H2]. split; [done|]. intros [H3 [= ->]]. by apply H1.
    + intros [H1 H2]. split; [|done]. intros [H3 <-]. by apply H2.
  - split; [|by intros [? _]]. intros H. split; [done|]. by intros [_ ?].
Qed.







(** ** C8: the shapes of [fall] *)



Lemma emit_warnings (l : list string) (w : world) :
  foldl (λ w m, emit (Warn m) w) w l
  = mkWorld (now w) (fresh w) (timers w) (self w)
      (trace w ++ map (λ m, (now w, Warn m)) l)
      (random w) (draws w) (frame_ms w).
Proof.
  revert w. induction l as [|m l IH]; intros w.
  - destruct w. cbn. by rewrite app_nil_r.
  - cbn [foldl]. rewrite IH. cbn. by rewrite <- app_assoc.
Qed.




(** ** C4: the smooth reset *)

Ltac wcbn :=
  cbn [now fresh timers self trace random draws frame_ms
       set_now set_timers set_self set_timerId set_animationFrameId
       set_confettiInstance emit register setTimeout setInterval
       requestAnimationFrame clearInterval cancelAnimationFrame
       defaults confettiInstance timerId animationFrameId
       tid due tkind tcb is_frame has_timer existsb negb andb orb
       exec next_closure fst snd app].

Lemma step_interval_alone (w : world) (t : timer) (period : Z) :
  timers w = [t] → tkind t = Interval period →
  step w
  = Some (rearm t period (exec (tcb t) (tid t) (set_now (now w `max` due t) w))).
Proof. intros Ht Hk. unfold step. rewrite Ht. simpl. by rewrite Hk. Qed.

Lemma seqZ_snoc (m k : Z) : 0 <= k → seqZ m (k + 1) = seqZ m k ++ [m + k].
Proof.
  intros H. rewrite seqZ_app by lia. f_equal.
Qed.

Lemma fading_step (b : world) (steps : Q) (options : obj) (k : Z) :
  0 <= k →
  Qle_bool steps (inject_Z (k + 1)) = false →
  step (fading b steps options k) = Some (fading b steps options (k + 1)).
Proof.
  intros Hk Hs.
  rewrite (step_interval_alone (fading b steps options k)
             (mkTimer (fresh b) (now b + 50 * (k + 1)) (Interval 50)
                (CbResetTick steps k options)) 50 eq_refl eq_refl).
  f_equal. unfold rearm, fading. wcbn.
  unfold FastConfetti.reset_tick. wcbn.
  rewrite Hs. wcbn. rewrite Pos.eqb_refl. wcbn.
  unfold remove_timer. rewrite filter_cons_False by (cbn; congruence).
  rewrite filter_nil. wcbn.
  rewrite Z.max_r by lia. unfold set_timers, emit, set_now. wcbn.
  f_equal.
  - do 2 f_equal. lia.
  - rewrite <- app_assoc. f_equal.
    rewrite seqZ_snoc by lia. rewrite map_app. f_equal. cbn [map].
    replace (1 + k) with (k + 1) by lia. reflexivity.
Qed.

(** The last tick of a fade, in any state: the burst, then both intervals
    cleared and the global clear. *)
Lemma has_timer_subseteq (id : handle) (ts ts' : list timer) :
  ts' ⊆ ts → has_timer id ts = false → has_timer id ts' = false.
Proof.
  rewrite !has_timer_false, !Forall_forall. intros Hs H t Ht. apply H, Hs, Ht.
Qed.

Lemma reset_tick_last (steps : Q) (k : Z) (options : obj) (id : handle)
    (w : world) :
  Qle_bool steps (inject_Z (k + 1)) = true →
  let w' := FastConfetti.reset_tick steps k options id w in
  trace w'
  = trace w
      ++ [(now w, Render None (FastConfetti.reset_burst options (k + 1) steps));
          (now w, GlobalReset)]
  ∧ has_timer id (timers w') = false
  ∧ (∀ tracked, timerId (self w) = Some tracked →
       has_timer tracked (timers w') = false)
  ∧ timerId (self w') = None
  ∧ timers w' ⊆ timers w.
Proof.
  intros Hs w'. subst w'. unfold FastConfetti.reset_tick. rewrite Hs.
  cbv zeta.
  set (w1 := emit (Render None (FastConfetti.reset_burst options (k + 1) steps)) w).
  change (timerId (self (clearInterval id w1))) with (timerId (self w)).
  assert (Hsub : timers (clearInterval id w1) ⊆ timers w)
    by apply (clearInterval_subseteq id w1).
  destruct (timerId (self w)) as [tracked|] eqn:E.
  - assert (Hsub' : timers (clearInterval tracked (clearInterval id w1))
                    ⊆ timers (clearInterval id w1))
      by apply clearInterval_subseteq.
    split; [cbn; by rewrite <- app_assoc|]. split; [|split; [|split]].
    + eapply has_timer_subseteq; [exact Hsub'|].
      apply has_timer_clearInterval.
    + intros ? [= <-]. apply has_timer_clearInterval.
    + done.
    + by etrans.
  - split; [cbn; by rewrite <- app_assoc|]. split; [|split; [|split]].
    + apply has_timer_clearInterval.
    + done.
    + done.
    + exact Hsub.
Qed.

Lemma filter_clear_self (id : handle) (t : timer) :
  tid t = id → is_frame t = false →
  filter (λ u, ¬ (is_frame u = false ∧ tid u = id)) [t] = [].
Proof. intros H1 H2. rewrite filter_cons_False by tauto. apply filter_nil. Qed.

Lemma fading_finish (b : world) (steps : Q) (options : obj) (k : Z) :
  0 <= k →
  Qle_bool steps (inject_Z (k + 1)) = true →
  step (fading b steps options k) = Some (faded b steps options (k + 1)).
Proof.
  intros Hk Hs.
  rewrite (step_interval_alone (fading b steps options k)
             (mkTimer (fresh b) (now b + 50 * (k + 1)) (Interval 50)
                (CbResetTick steps k options)) 50 eq_refl eq_refl).
  f_equal. unfold rearm, fading. wcbn.
  unfold FastConfetti.reset_tick. wcbn. rewrite Hs. wcbn.
  rewrite Z.max_r by lia.
  assert (Htr :
    ((trace b
        ++ map (λ j, (now b + 50 * j,
                      Render None (FastConfetti.reset_burst options j steps)))
             (seqZ 1 k))
       ++ [(now b + 50 * (k + 1),
            Render None (FastConfetti.reset_burst options (k + 1) steps))])
      ++ [(now b + 50 * (k + 1), GlobalReset)]
    = trace b
        ++ map (λ j, (now b + 50 * j,
                      Render None (FastConfetti.reset_burst options j steps)))
             (seqZ 1 (k + 1))
        ++ [(now b + 50 * (k + 1), GlobalReset)]).
  { rewrite seqZ_snoc by lia. rewrite map_app, <- !app_assoc. cbn [map app].
    replace (1 + k) with (k + 1) by lia. reflexivity. }
  destruct (timerId (self b)) as [tracked|] eqn:E; wcbn;
    rewrite !(filter_clear_self (fresh b)) by reflexivity;
    rewrite ?filter_nil; wcbn;
    unfold faded, set_self, set_timers, emit, set_now; wcbn;
    rewrite ?(filter_clear_self (fresh b)) by reflexivity;
    rewrite ?filter_nil; rewrite Htr; [reflexivity|].
  f_equal. destruct (self b); simpl in *; by subst.
Qed.

Lemma run_fading (b : world) (steps : Q) (options : obj) (m : nat) (k : Z) :
  0 <= k →
  (∀ j, k < j <= k + Z.of_nat m → Qle_bool steps (inject_Z j) = false) →
  run m (fading b steps options k) = fading b steps options (k + Z.of_nat m).
Proof.
  revert k. induction m as [|m IH]; intros k Hk H.
  - simpl. by rewrite Z.add_0_r.
  - rewrite (run_S _ _ _ (fading_step b steps options k Hk (H (k + 1) ltac:(lia)))).
    rewrite IH; [f_equal; lia|lia|]. intros j Hj. apply H. lia.
Qed.

Lemma stop_frames_timers (w : world) :
  timers w = [] → timers (stop_frames w) = [].
Proof.
  intros H. unfold stop_frames.
  destruct (animationFrameId (self w)); [|done]. simpl. by rewrite H.
Qed.

Lemma stop_frames_self (w : world) :
  self (stop_frames w)
  = mkConfetti (defaults (self w)) (confettiInstance (self w))
      (timerId (self w)) None.
Proof.
  unfold stop_frames. destruct (self w) as [d ci ti [a|]] eqn:E.
  - cbn. by rewrite E.
  - cbn. by rewrite E.
Qed.

Lemma reset_smooth_fading (options : obj) (w : world) :
  timers w = [] →
  FastConfetti.reset (Some "smooth") (Some options) w
  = fading (stop_frames w) (num_or (options !! "duration") 2000 / 50)
      options 0.
Proof.
  intros H. unfold FastConfetti.reset.
  change (default "smooth" (Some "smooth")) with "smooth".
  change (default ∅ (Some options)) with options.
  change (String.eqb "smooth" "instant") with false.
  change (String.eqb "smooth" "smooth") with true. cbv iota zeta.
  fold (stop_frames w). unfold setInterval, register, fading.
  change (ms 50) with 50. wcbn.
  rewrite (stop_frames_timers w H). cbn [app seqZ].
  f_equal.
  - lia.
  - change (seqZ 1 0) with (@nil Z). by rewrite app_nil_r.
Qed.

Lemma reset_burst_scalar (options : obj) (j : Z) (steps : Q) (q : Q) :
  Binary64.fade_scalar j steps = Some q →
  FastConfetti.reset_burst options j steps !! "scalar" = Some (VNum q).
Proof.
  intros H.
  change (FastConfetti.reset_burst options j steps !! "scalar")
    with (Some (Binary64.number (Binary64.fade_double j steps))).
  unfold Binary64.number. unfold Binary64.fade_scalar in H. by rewrite H.
Qed.

(** The forty scalars of a fade of 2000 ms, as the doubles give them: each
    within 2^-54 of [1 - k/40], and equal to it exactly when [k/40] is a
    multiple of 1/8. *)
Lemma fade_scalars_2000 (k : Z) :
  1 <= k <= 40 →
  ∃ q, Binary64.fade_scalar k (2000 / 50) = Some q
       ∧ (- (1 # 18014398509481984) <= q - (1 - inject_Z k / 40)
          <= 1 # 18014398509481984)%Q
       ∧ (q == 1 - inject_Z k / 40 ↔ (5 | k)).
Proof.
  intros Hk.
  assert (H : k ∈ seqZ 1 40) by (apply elem_of_seqZ; lia).
  revert H. generalize k. apply Forall_forall.
  let l := eval vm_compute in (seqZ 1 40) in change (seqZ 1 40) with l.
  repeat (apply Forall_cons; split;
    [eexists; split; [vm_compute; reflexivity|];
     split; [split; by vm_compute|];
     split;
       [intros E;
        first [by vm_compute in E
              | match goal with
                | |- (5 | ?x) => exists (x / 5); reflexivity
                end]
       |intros [z E]; first [by vm_compute | exfalso; lia]]|]).
  apply Forall_nil_2.
Qed.

Lemma steps_2000 (options : obj) :
  options !! "duration" = Some (VNum 2000) →
  num_or (options !! "duration") 2000 = 2000%Q.
Proof. intros ->. reflexivity. Qed.

Lemma fade_40_running (j : Z) : j < 40 → Qle_bool (2000 / 50) (inject_Z j) = false.
Proof.
  intros H. unfold Qle_bool. simpl. apply Z.leb_gt. lia.
Qed.

Lemma run_add (n m : nat) (w : world) : run (n + m) w = run m (run n w).
Proof.
  revert w. induction n as [|n IH]; intros w; [done|].
  simpl. destruct (step w) as [w'|] eqn:E; [apply IH|].
  apply step_None in E. by rewrite !run_stuck.
Qed.

(** C4 as claimed fails on the scalars: [reset('smooth', {duration: 2000})]
    on a fresh page renders as its 28th burst a [scalar] of
    1351079888211149 / 2^52 (0.30000000000000004), the double that
    [1 - 28 / 40] evaluates to, and not the rational 3/10. *)
Lemma smooth_reset_scalars_are_doubles :
  ¬ fades_by_fortieths {[ "duration" := VNum 2000 ]} page
  ∧ (rendered (run 40 (FastConfetti.reset (Some "smooth")
                         (Some {[ "duration" := VNum 2000 ]}) page))
       !! 27%nat) ≫= (λ c, c !! "scalar")
    = Some (VNum (1351079888211149 # 4503599627370496))
  ∧ ¬ (1351079888211149 # 4503599627370496 == 1 - 28 / 40).
Proof.
  set (c := FastConfetti.reset_burst {[ "duration" := VNum 2000 ]} 28
              (2000 / 50)).
  assert (R : rendered (run 40 (FastConfetti.reset (Some "smooth")
                          (Some {[ "duration" := VNum 2000 ]}) page))
                !! 27%nat = Some c) by (vm_compute; reflexivity).
  assert (S : c !! "scalar"
              = Some (VNum (1351079888211149 # 4503599627370496)))
    by (vm_compute; reflexivity).
  assert (N : ¬ (1351079888211149 # 4503599627370496 == 1 - 28 / 40))
    by (by vm_compute).
  split; [|split; [|exact N]].
  - intros H. destruct (H 27%nat c R) as (q & Hq & Hq').
    rewrite S in Hq. injection Hq as <-. by apply N.
  - rewrite R. exact S.
Qed.

(** C4 (amended).  [reset('smooth', options)] with [options.duration =
    2000], on an object with nothing else pending: the call cancels the
    frame loop and registers one interval of 50 ms.  The event loop then
    runs its callback exactly 40 times, at 50, 100, ..., 2000 ms after the
    call; run [k] renders one burst whose [scalar] is the double that
    [1 - k / 40] evaluates to, which is within 2^-54 of the rational
    [1 - k/40] and equal to it exactly on the runs 5, 10, ..., 40; the
    interval is still pending after each of the first 39 runs; the 40th
    run clears it, empties [timerId], calls the global clear, and nothing
    remains pending.  In any state, the 40th run of the callback clears
    its own interval and the interval tracked in [timerId] and then calls
    the global clear. *)
Theorem smooth_reset_2000 (options : obj) (w : world) :
  options !! "duration" = Some (VNum 2000) →
  timers w = [] →
  let w1 := FastConfetti.reset (Some "smooth") (Some options) w in
  let fade_burst k :=
    (now w + 50 * k,
     Render None (FastConfetti.reset_burst options k (2000 / 50))) in
  (∃ t, timers w1 = [t] ∧ tkind t = Interval 50 ∧ due t = now w + 50)
  ∧ animationFrameId (self w1) = None
  ∧ (∀ k : nat, (k < 40)%nat →
       trace (run k w1) = trace w ++ map fade_burst (seqZ 1 (Z.of_nat k))
       ∧ has_timer (fresh w) (timers (run k w1)) = true)
  ∧ trace (run 40 w1)
    = trace w ++ map fade_burst (seqZ 1 40) ++ [(now w + 2000, GlobalReset)]
  ∧ timers (run 40 w1) = []
  ∧ timerId (self (run 40 w1)) = None
  ∧ step (run 40 w1) = None
  ∧ (∀ k, 1 <= k <= 40 →
       ∃ q, FastConfetti.reset_burst options k (2000 / 50) !! "scalar"
            = Some (VNum q)
            ∧ Binary64.fade_scalar k (2000 / 50) = Some q
            ∧ (- (1 # 18014398509481984) <= q - (1 - inject_Z k / 40)
               <= 1 # 18014398509481984)%Q
            ∧ (q == 1 - inject_Z k / 40 ↔ (5 | k)))
  ∧ (∀ (u : world) (id : handle),
       let u' := FastConfetti.reset_tick (2000 / 50) 39 options id u in
       has_timer id (timers u') = false
       ∧ (∀ tracked, timerId (self u) = Some tracked →
            has_timer tracked (timers u') = false)
       ∧ timerId (self u') = None
       ∧ trace u'
         = trace u
             ++ [(now u, Render None
                           (FastConfetti.reset_burst options 40 (2000 / 50)));
                 (now u, GlobalReset)]).
Proof.
  intros Hd Hw w1 fade_burst. subst w1.
  rewrite (reset_smooth_fading options w Hw), (steps_2000 options Hd).
  destruct (stop_frames_spec w) as (Hn & Ht & Hti & Haf & _).
  assert (Hfr : fresh (stop_frames w) = fresh w).
  { unfold stop_frames. by destruct (animationFrameId (self w)). }
  assert (R : ∀ k : nat, (k < 40)%nat →
    run k (fading (stop_frames w) (2000 / 50) options 0)
    = fading (stop_frames w) (2000 / 50) options (Z.of_nat k)).
  { intros k Hk. rewrite run_fading; [done|lia|].
    intros j Hj. apply fade_40_running. lia. }
  assert (R40 : run 40 (fading (stop_frames w) (2000 / 50) options 0)
                = faded (stop_frames w) (2000 / 50) options 40).
  { change 40%nat with (39 + 1)%nat. rewrite run_add, R by lia.
    by rewrite (run_S _ _ _
      (fading_finish (stop_frames w) (2000 / 50) options 39
         ltac:(lia) eq_refl)). }
  split; [eexists; split; [reflexivity|]; split; [reflexivity|];
          cbn; rewrite Hn; lia|].
  split; [exact Haf|].
  split.
  { intros k Hk. rewrite (R k Hk). split.
    - cbn [fading trace]. rewrite Ht, Hn. reflexivity.
    - cbn [fading timers]. rewrite Hfr. unfold has_timer. cbn.
      by rewrite Pos.eqb_refl. }
  rewrite R40.
  split; [cbn [faded trace]; rewrite Ht, Hn; reflexivity|].
  split; [reflexivity|]. split; [reflexivity|]. split; [reflexivity|].
  split.
  { intros k Hk. destruct (fade_scalars_2000 k Hk) as (q & Hq & Hb & He).
    exists q. split; [|done]. by apply reset_burst_scalar. }
  intros u id u'.
  destruct (reset_tick_last (2000 / 50) 39 options id u eq_refl)
    as (H1 & H2 & H3 & H4 & _).
  done.
Qed.

Lemma smooth_reset_2000_witness :
  ({[ "duration" := VNum 2000 ]} : obj) !! "duration" = Some (VNum 2000)
  ∧ timers page = []
  ∧ length
      (rendered
         (run 40 (FastConfetti.reset (Some "smooth")
                    (Some {[ "duration" := VNum 2000 ]}) page)))
    = 40%nat.
Proof.
  assert (Hd : ({[ "duration" := VNum 2000 ]} : obj) !! "duration"
               = Some (VNum 2000)) by reflexivity.
  assert (Hp : timers page = []) by reflexivity.
  split; [exact Hd|]. split; [exact Hp|].
  unfold rendered.
  rewrite (proj1 (proj2 (proj2 (proj2
    (smooth_reset_2000 {[ "duration" := VNum 2000 ]} page Hd Hp))))).
  vm_compute. reflexivity.
Defined.

(** ** C5: [infinite('cannon', 1000, 5000)] *)

Lemma Qle_bool_inject_Z (a b c : Z) :
  Qle_bool (inject_Z a) (inject_Z b + inject_Z c) = (a <=? b + c).
Proof. unfold Qle_bool. simpl. f_equal; lia. Qed.


Lemma cannon_delay : ms (num_or (cannon_config !! "delay") 0) = 0.
Proof. reflexivity. Qed.




(** The setters and the timer API on an explicit state. *)
Section on_explicit_state.
Context (n : Z) (f : handle) (ts : list timer) (s : Confetti)
  (tr : list (Z * event)) (r : nat → Q) (d : nat) (fm : Z).

Lemma set_now_mk (t : Z) :
  set_now t (mkWorld n f ts s tr r d fm) = mkWorld t f ts s tr r d fm.
Proof. reflexivity. Qed.

Lemma set_timers_mk (ts' : list timer) :
  set_timers ts' (mkWorld n f ts s tr r d fm)
  = mkWorld n f ts' s tr r d fm.
Proof. reflexivity. Qed.

Lemma set_timerId_mk (h : option handle) :
  set_timerId h (mkWorld n f ts s tr r d fm)
  = mkWorld n f ts
      (mkConfetti (defaults s) (confettiInstance s) h (animationFrameId s))
      tr r d fm.
Proof. reflexivity. Qed.

Lemma set_animationFrameId_mk (h : option handle) :
  set_animationFrameId h (mkWorld n f ts s tr r d fm)
  = mkWorld n f ts
      (mkConfetti (defaults s) (confettiInstance s) (timerId s) h)
      tr r d fm.
Proof. reflexivity. Qed.

Lemma emit_mk (e : event) :
  emit e (mkWorld n f ts s tr r d fm)
  = mkWorld n f ts s (tr ++ [(n, e)]) r d fm.
Proof. reflexivity. Qed.

Lemma clearInterval_mk (id : handle) :
  clearInterval id (mkWorld n f ts s tr r d fm)
  = mkWorld n f
      (filter (λ t, ¬ (is_frame t = false ∧ tid t = id)) ts) s tr r d fm.
Proof. reflexivity. Qed.

Lemma cancelAnimationFrame_mk (id : handle) :
  cancelAnimationFrame id (mkWorld n f ts s tr r d fm)
  = mkWorld n f
      (filter (λ t, ¬ (is_frame t = true ∧ tid t = id)) ts) s tr r d fm.
Proof. reflexivity. Qed.
End on_explicit_state.


Ltac wnorm :=
  repeat first
    [ rewrite set_now_mk | rewrite set_timers_mk | rewrite set_timerId_mk
    | rewrite set_animationFrameId_mk | rewrite emit_mk
    | rewrite clearInterval_mk | rewrite cancelAnimationFrame_mk
    | progress cbn [defaults confettiInstance timerId animationFrameId] ].

















(** ** C9: a delayed burst and a later [reset] *)

Lemma earliest_pair (a b : timer) :
  earliest [a; b] = Some (if due b <? due a then b else a).
Proof. simpl. by destruct (due b <? due a). Qed.

Section race.
Context (b : world) (L : timer) (cfg : obj) (steps : Q) (options : obj).
Hypothesis L_kind : tkind L = Timeout.
Hypothesis L_cb : tcb L = CbLaunch cfg.
Hypothesis L_id : tid L ≠ fresh b.
Hypothesis L_untracked : timerId (self b) ≠ Some (tid L).

(** The burst is due no later than the next tick: it fires. *)
Lemma racing_burst (k : Z) :
  due L <= now b + 50 * (k + 1) →
  ∃ w', step (racing b L steps options k) = Some w'
        ∧ trace w'
          = trace (racing b L steps options k)
              ++ [((now b + 50 * k) `max` due L, burst b cfg)].
Proof.
  intros Hd. eexists. split.
  - apply (step_timeout _ []
             [mkTimer (fresh b) (now b + 50 * (k + 1)) (Interval 50)
                (CbResetTick steps k options)] L);
      [reflexivity|exact L_kind|constructor| |].
    + repeat constructor. exact Hd.
    + repeat constructor. cbn. congruence.
  - rewrite L_cb. reflexivity.
Qed.

(** The next tick comes first and is not the last one. *)
Lemma racing_tick (k : Z) :
  0 <= k →
  now b + 50 * (k + 1) < due L →
  Qle_bool steps (inject_Z (k + 1)) = false →
  step (racing b L steps options k)
  = Some (racing b L steps options (k + 1)).
Proof.
  intros Hk Hd Hs.
  remember (racing b L steps options (k + 1)) as target eqn:G.
  unfold step, racing. cbn [timers]. rewrite earliest_pair. cbn [due].
  rewrite (proj2 (Z.ltb_lt _ _) Hd). cbn [tkind tid tcb due now]. f_equal.
  wnorm. cbn [exec]. unfold FastConfetti.reset_tick. wnorm. cbn [now].
  rewrite Hs. unfold rearm. cbn [timers tid tcb next_closure now].
  assert (HL : is_frame L = false) by (unfold is_frame; by rewrite L_kind).
  unfold has_timer. cbn [existsb is_frame tkind tid negb andb].
  rewrite Pos.eqb_refl, orb_true_r. wnorm.
  unfold remove_timer. rewrite filter_cons_True by exact L_id.
  rewrite filter_cons_False by (cbn; congruence). rewrite filter_nil.
  rewrite Z.max_r by lia. subst target. unfold racing. cbn [app].
  f_equal.
  - do 3 f_equal. lia.
  - rewrite <- app_assoc. f_equal.
    rewrite seqZ_snoc by lia. rewrite map_app. f_equal. cbn [map].
    replace (1 + k) with (k + 1) by lia. reflexivity.
Qed.

(** The next tick comes first and is the last one: the fade ends, the
    burst stays pending. *)
Lemma racing_last (k : Z) :
  0 <= k →
  now b + 50 * (k + 1) < due L →
  Qle_bool steps (inject_Z (k + 1)) = true →
  ∃ w', step (racing b L steps options k) = Some w'
        ∧ timers w' = [L]
        ∧ now w' = now b + 50 * (k + 1)
        ∧ self w' = with_timerId None (self b)
        ∧ trace w'
          = trace (racing b L steps options k)
              ++ [(now b + 50 * (k + 1),
                   Render None
                     (FastConfetti.reset_burst options (k + 1) steps));
                  (now b + 50 * (k + 1), GlobalReset)].
Proof.
  intros Hk Hd Hs. eexists. split.
  - unfold step, racing. cbn [timers]. rewrite earliest_pair. cbn [due].
    rewrite (proj2 (Z.ltb_lt _ _) Hd). cbn [tkind tid tcb due now].
    reflexivity.
  - assert (HL : is_frame L = false) by (unfold is_frame; by rewrite L_kind).
    wnorm. cbn [exec]. unfold FastConfetti.reset_tick. wnorm. cbn [now].
    rewrite Hs. wnorm. cbn [self timerId].
    rewrite filter_cons_True by (intros [_ ?]; by apply L_id).
    rewrite (filter_clear_self (fresh b)) by reflexivity.
    rewrite Z.max_r by lia.
    destruct (timerId (self b)) as [tracked|] eqn:E; wnorm.
    + rewrite filter_cons_True by (intros [_ ?]; apply L_untracked; congruence).
      rewrite filter_nil. unfold rearm. cbn [timers tid].
      unfold has_timer. cbn [existsb]. rewrite HL. cbn [negb andb orb].
      rewrite (proj2 (Pos.eqb_neq _ _) L_id). cbn [timers now self trace].
      unfold with_timerId. rewrite <- app_assoc. by repeat split.
    + unfold rearm. cbn [timers tid].
      unfold has_timer. cbn [existsb]. rewrite HL. cbn [negb andb orb].
      rewrite (proj2 (Pos.eqb_neq _ _) L_id). cbn [timers now self trace].
      unfold with_timerId. rewrite <- app_assoc. repeat split.
      destruct (self b); simpl in *; by subst.
Qed.

(** Whatever the length of the fade, the burst fires. *)
Lemma racing_fires (m : nat) (k : Z) :
  0 <= k →
  k = 0 ∨ now b + 50 * k < due L →
  due L <= now b + 50 * (k + 1) + 50 * Z.of_nat m →
  ∃ n mid,
    trace (run n (racing b L steps options k))
    = trace (racing b L steps options k)
        ++ mid ++ [(now b `max` due L, burst b cfg)].
Proof.
  revert k. induction m as [|m IH]; intros k Hk Hinv Hd.
  - destruct (racing_burst k ltac:(lia)) as (w' & Hs & Ht).
    exists 1%nat, []. rewrite (run_S _ _ _ Hs). cbn [run app].
    rewrite Ht. do 3 f_equal. lia.
  - destruct (Z.le_gt_cases (due L) (now b + 50 * (k + 1))) as [Hle|Hgt].
    { destruct (racing_burst k Hle) as (w' & Hs & Ht).
      exists 1%nat, []. rewrite (run_S _ _ _ Hs). cbn [run app].
      rewrite Ht. do 3 f_equal. lia. }
    destruct (Qle_bool steps (inject_Z (k + 1))) eqn:Hq.
    + destruct (racing_last k Hk ltac:(lia) Hq)
        as (w' & Hs & Hts & Hn & Hself & Htr).
      exists 2%nat.
      eexists [_; _].
      rewrite (run_S _ _ _ Hs).
      rewrite (run_S _ _ _
        (step_timeout w' [] [] L Hts L_kind (Forall_nil_2 _)
           (Forall_nil_2 _) (Forall_nil_2 _))).
      cbn [run]. rewrite L_cb. cbn [exec app].
      unfold FastConfetti.launchConfetti. cbn [trace emit set_timers set_now
        self now].
      rewrite Htr, Hself, Hn. rewrite <- !app_assoc. cbn [app].
      unfold burst, with_timerId. cbn [defaults confettiInstance].
      rewrite (Z.max_r (now b + 50 * (k + 1))) by lia.
      rewrite (Z.max_r (now b)) by lia. reflexivity.
    + destruct (IH (k + 1) ltac:(lia) ltac:(lia) ltac:(lia))
        as (n & mid & Hrun).
      exists (S n).
      exists ((now b + 50 * (k + 1),
               Render None (FastConfetti.reset_burst options (k + 1) steps))
              :: mid).
      rewrite (run_S _ _ _ (racing_tick k Hk ltac:(lia) Hq)), Hrun.
      cbn [racing trace]. rewrite seqZ_snoc by lia.
      rewrite map_app, <- !app_assoc. cbn [map app].
      replace (1 + k) with (k + 1) by lia. reflexivity.
Qed.
End race.

Lemma stop_frames_keeps (u : world) (L : timer) :
  L ∈ timers u → is_frame L = false → L ∈ timers (stop_frames u).
Proof.
  intros HL Hk. unfold stop_frames.
  destruct (animationFrameId (self u)) as [a|]; [|done].
  cbn. apply list_elem_of_filter. split; [|done]. rewrite Hk. by intros [? _].
Qed.

(** [reset] leaves every one-shot timer that [timerId] does not hold. *)
Lemma reset_keeps_timeouts (type : option string) (options : option obj)
    (u : world) (L : timer) :
  L ∈ timers u → tkind L = Timeout → timerId (self u) ≠ Some (tid L) →
  L ∈ timers (FastConfetti.reset type options u).
Proof.
  intros HL Hk Hid.
  assert (Hf : is_frame L = false) by (unfold is_frame; by rewrite Hk).
  pose proof (stop_frames_keeps u L HL Hf) as HL'.
  destruct (stop_frames_spec u) as (_ & _ & Hti & _ & _).
  unfold FastConfetti.reset. cbv zeta. fold (stop_frames u).
  destruct (String.eqb (default "smooth" type) "instant").
  - destruct (timerId (self (stop_frames u))) as [tracked|] eqn:E; cbn.
    + apply list_elem_of_filter. split; [|done].
      intros [_ Ht]. apply Hid. congruence.
    + done.
  - destruct (String.eqb (default "smooth" type) "smooth"); cbn.
    + apply elem_of_app. by left.
    + done.
Qed.

Lemma stop_frames_no_frames (u : world) :
  Forall (λ t, is_frame t = false) (timers u) →
  timers (stop_frames u) = timers u.
Proof.
  intros H. unfold stop_frames.
  destruct (animationFrameId (self u)) as [a|]; [|done].
  cbn. apply filter_all. eapply Forall_impl; [exact H|].
  intros t Ht. rewrite Ht. by intros [? _].
Qed.

Lemma stop_frames_fresh (u : world) : fresh (stop_frames u) = fresh u.
Proof. unfold stop_frames. by destruct (animationFrameId (self u)). Qed.

Lemma stop_frames_rest (u : world) :
  random (stop_frames u) = random u
  ∧ draws (stop_frames u) = draws u
  ∧ frame_ms (stop_frames u) = frame_ms u.
Proof. unfold stop_frames. by destruct (animationFrameId (self u)). Qed.

Lemma reset_smooth_racing (type : option string) (options : option obj)
    (u : world) (L : timer) :
  default "smooth" type = "smooth" →
  timers u = [L] → is_frame L = false →
  FastConfetti.reset type options u
  = racing (stop_frames u) L
      (num_or (default ∅ options !! "duration") 2000 / 50)
      (default ∅ options) 0.
Proof.
  intros Hty H HL. unfold FastConfetti.reset. rewrite Hty.
  change (String.eqb "smooth" "instant") with false.
  change (String.eqb "smooth" "smooth") with true. cbv iota zeta.
  fold (stop_frames u). unfold setInterval, register, racing.
  change (ms 50) with 50. cbn [snd].
  rewrite stop_frames_no_frames by (rewrite H; by repeat constructor).
  rewrite H. cbn [app]. change (seqZ 1 0) with (@nil Z). cbn [map].
  rewrite app_nil_r. f_equal. lia.
Qed.

Lemma burst_stop_frames (u : world) (cfg : obj) :
  burst (stop_frames u) cfg = burst u cfg.
Proof. unfold burst. by rewrite stop_frames_self. Qed.

(** The other two modes of [reset], next to one pending delayed burst. *)
Lemma reset_abrupt_fires (type : option string) (options : option obj)
    (u : world) (L : timer) (cfg : obj) :
  String.eqb (default "smooth" type) "smooth" = false →
  timers u = [L] → tkind L = Timeout → tcb L = CbLaunch cfg →
  timerId (self u) ≠ Some (tid L) →
  let w2 := FastConfetti.reset type options u in
  ∃ n mid,
    trace (run n w2)
    = trace w2 ++ mid ++ [(now u `max` due L, burst u cfg)].
Proof.
  intros Hty Ht Hk Hcb Hid w2.
  assert (Hf : is_frame L = false) by (unfold is_frame; by rewrite Hk).
  destruct (stop_frames_spec u) as (Hn & _ & Hti & _ & _).
  assert (Hts : timers (stop_frames u) = [L])
    by (rewrite stop_frames_no_frames; [done|rewrite Ht; by repeat constructor]).
  assert (H2 : timers w2 = [L] ∧ now w2 = now u
               ∧ defaults (self w2) = defaults (self u)
               ∧ confettiInstance (self w2) = confettiInstance (self u)).
  { subst w2. unfold FastConfetti.reset. cbv zeta. fold (stop_frames u).
    rewrite Hty.
    destruct (String.eqb (default "smooth" type) "instant").
    - destruct (timerId (self (stop_frames u))) as [tracked|] eqn:E;
        cbn [emit timers now self set_timerId set_self clearInterval
             set_timers defaults confettiInstance];
        rewrite ?Hts, ?Hn, stop_frames_self; cbn [defaults confettiInstance].
      + rewrite filter_cons_True by (intros [_ ?]; apply Hid; congruence).
        by rewrite filter_nil.
      + done.
    - cbn [emit timers now self defaults confettiInstance].
      by rewrite Hts, Hn, stop_frames_self. }
  destruct H2 as (H2t & H2n & H2d & H2c).
  exists 1%nat, [].
  rewrite (run_S _ _ _
    (step_timeout w2 [] [] L H2t Hk (Forall_nil_2 _) (Forall_nil_2 _)
       (Forall_nil_2 _))).
  cbn [run app]. rewrite Hcb. cbn [exec].
  unfold FastConfetti.launchConfetti, burst.
  cbn [emit trace set_timers set_now self now]. by rewrite H2n, H2d, H2c.
Qed.

(** C9.  A burst registered by [launchConfettiWithDelay] on an object with
    nothing else pending, then [reset] called at any later instant [t], in
    any mode and with any options: the one-shot timer of the burst is
    still pending after the reset, and the event loop then fires it;
    the burst is rendered after everything the reset itself logged, at its
    due time (or at [t] if the reset came later than that).  In any state,
    [reset] leaves pending every one-shot timer whose handle is not the one
    stored in [timerId]; the handle of a delayed burst is never stored. *)
Theorem delayed_burst_survives_reset (cfg : obj) (type : option string)
    (options : option obj) (w : world) (t : Z) :
  timers w = [] →
  timerId (self w) ≠ Some (fresh w) →
  now w <= t →
  let w1 := FastConfetti.launchConfettiWithDelay cfg w in
  let D := now w + ms (num_or (cfg !! "delay") 0) in
  let w2 := FastConfetti.reset type options (set_now t w1) in
  self w1 = self w
  ∧ mkTimer (fresh w) D Timeout (CbLaunch cfg) ∈ timers w2
  ∧ (∃ n mid,
       trace (run n w2) = trace w2 ++ mid ++ [(t `max` D, burst w cfg)])
  ∧ (∀ (u : world) (L : timer) type' options',
       L ∈ timers u → tkind L = Timeout →
       timerId (self u) ≠ Some (tid L) →
       L ∈ timers (FastConfetti.reset type' options' u)).
Proof.
  intros Hw Hwf Ht w1 D w2.
  set (L := mkTimer (fresh w) D Timeout (CbLaunch cfg)).
  set (u := set_now t w1).
  assert (Hu : timers u = [L]).
  { subst u w1. cbn [set_now timers]. rewrite launchConfettiWithDelay_timers.
    by rewrite Hw. }
  assert (Hid : timerId (self u) ≠ Some (tid L)) by exact Hwf.
  split; [reflexivity|]. split; [|split].
  - apply reset_keeps_timeouts; [fold u; rewrite Hu; left|done|done].
  - destruct (String.eqb (default "smooth" type) "smooth") eqn:Hty.
    + apply String.eqb_eq in Hty. subst w2. fold u.
      rewrite (reset_smooth_racing type options u L Hty Hu eq_refl).
      destruct (stop_frames_spec u) as (Hn & _ & Hti & _ & _).
      destruct (racing_fires (stop_frames u) L cfg
                  (num_or (default ∅ options !! "duration") 2000 / 50)
                  (default ∅ options) eq_refl eq_refl
                  ltac:(rewrite stop_frames_fresh; cbn; lia)
                  ltac:(by rewrite Hti)
                  (Z.to_nat (D - t)) 0 ltac:(lia) ltac:(by left)
                  ltac:(rewrite Hn; cbn; lia))
        as (n & mid & Hrun).
      exists n, mid. rewrite Hrun, Hn, burst_stop_frames. reflexivity.
    + exact (reset_abrupt_fires type options u L cfg Hty Hu eq_refl eq_refl
               Hid).
  - intros u' L' type' options'. apply reset_keeps_timeouts.
Qed.

Lemma delayed_burst_survives_reset_witness :
  timers page = []
  ∧ timerId (self page) ≠ Some (fresh page)
  ∧ now page <= 100
  ∧ mkTimer 1%positive 300 Timeout (CbLaunch {[ "delay" := VNum 300 ]})
    ∈ timers (FastConfetti.reset (Some "smooth") None
                (set_now 100
                   (FastConfetti.launchConfettiWithDelay
                      {[ "delay" := VNum 300 ]} page))).
Proof.
  assert (H1 : timers page = []) by reflexivity.
  assert (H2 : timerId (self page) ≠ Some (fresh page)) by discriminate.
  assert (H3 : now page <= 100) by (vm_compute; discriminate).
  split; [exact H1|]. split; [exact H2|]. split; [exact H3|].
  exact (proj1 (proj2
    (delayed_burst_survives_reset {[ "delay" := VNum 300 ]} (Some "smooth")
       None page 100 H1 H2 H3))).
Defined.

(** ** Every burst of an effect: an invariant of the event loop *)

Lemma rendered_emit (e : event) (w : world) :
  rendered (emit e w)
  = rendered w ++ match e with Render _ config => [config] | _ => [] end.
Proof.
  unfold rendered. cbn [emit trace]. rewrite omap_app. f_equal.
  by destruct e.
Qed.

Lemma let_pair {A B C} (p : A * B) (f : A → B → C) :
  (let '(a, b) := p in f a b) = f p.1 p.2.
Proof. by destruct p. Qed.

Section bursts.
(** [P]: what holds of every configuration that the effect hands to the
    launch primitives; [d]: the defaults of the object; [old]: what had
    been rendered before the effect was called. *)
Context (P : obj → Prop) (d : obj) (old : list obj).

Lemma bursts_inv_sub (w w' : world) :
  defaults (self w') = defaults (self w) →
  timers w' ⊆ timers w →
  rendered w' = rendered w →
  bursts_inv P d old w → bursts_inv P d old w'.
Proof.
  intros Hd Ht Hr (H1 & H2 & H3). split; [congruence|]. split.
  - apply Forall_forall. intros t Hin.
    apply (proj1 (Forall_forall _ _) H2), Ht, Hin.
  - by rewrite Hr.
Qed.

Lemma bursts_inv_register (k : kind) (cb : callback) (delay : Z)
    (w : world) :
  launches P cb → bursts_inv P d old w → bursts_inv P d old (register k cb delay w).2.
Proof.
  intros Hcb (H1 & H2 & H3). split; [done|]. split; [|done].
  cbn. apply Forall_app. split; [done|]. by apply Forall_singleton.
Qed.

Lemma bursts_inv_random (w : world) :
  bursts_inv P d old w → bursts_inv P d old (Math_random w).2.
Proof. by intros (H1 & H2 & H3). Qed.

Lemma bursts_inv_self (c : Confetti) (w : world) :
  defaults c = defaults (self w) →
  bursts_inv P d old w → bursts_inv P d old (set_self c w).
Proof. intros Hc (H1 & H2 & H3). split; [|done]. cbn. congruence. Qed.

Lemma bursts_inv_launchConfettiWithDelay (cfg : obj) (w : world) :
  P cfg → bursts_inv P d old w →
  bursts_inv P d old (FastConfetti.launchConfettiWithDelay cfg w).
Proof. intros. by apply bursts_inv_register. Qed.

Lemma bursts_inv_launchConfetti (cfg : obj) (w : world) :
  P cfg → bursts_inv P d old w → bursts_inv P d old (FastConfetti.launchConfetti cfg w).
Proof.
  intros Hcfg (H1 & H2 & H3). split; [done|]. split; [done|].
  unfold FastConfetti.launchConfetti. rewrite rendered_emit.
  apply Forall_app. split; [done|]. apply Forall_singleton.
  right. exists cfg. by rewrite H1.
Qed.

Lemma bursts_inv_frame (cb : callback) (w : world) :
  launches P cb → bursts_inv P d old w →
  bursts_inv P d old
    (let '(id, w) := requestAnimationFrame cb w in
     set_animationFrameId (Some id) w).
Proof.
  intros Hcb H. unfold requestAnimationFrame.
  apply (bursts_inv_self _ (register Frame cb (frame_ms w) w).2);
    [reflexivity|].
  by apply bursts_inv_register.
Qed.

Lemma bursts_inv_randomInRange (min max : Q) (w : world) :
  bursts_inv P d old w → bursts_inv P d old (FastConfetti.randomInRange min max w).2.
Proof. by intros (H1 & H2 & H3). Qed.

Ltac bursts_inv_solve H :=
  repeat first
    [ exact H
    | apply bursts_inv_random
    | apply bursts_inv_randomInRange
    | apply bursts_inv_frame; [done|]
    | apply bursts_inv_launchConfettiWithDelay; [done|]
    | apply bursts_inv_launchConfetti; [done|] ].

Lemma bursts_inv_fall_shoot (ss : list shape) (o : option obj) (w : world) :
  launches P (CbFallShoot ss o) → bursts_inv P d old w →
  bursts_inv P d old (FastConfetti.fall_shoot ss o w).
Proof.
  intros Hcb H. unfold FastConfetti.fall_shoot. generalize 10%nat.
  intros n. induction n as [|n IH]; [done|].
  rewrite Nat.iter_succ. unfold FastConfetti.fall_burst at 1.
  rewrite !let_pair.
  apply bursts_inv_launchConfettiWithDelay; [apply Hcb|].
  bursts_inv_solve IH.
Qed.

Lemma bursts_inv_exec (cb : callback) (id : handle) (w : world) :
  launches P cb → bursts_inv P d old w → bursts_inv P d old (exec cb id w).
Proof.
  destruct cb; cbn [launches exec]; try done; intros Hcb H.
  - by apply bursts_inv_launchConfetti.
  - unfold FastConfetti.fireworks_tick.
    destruct (Qle_bool _ 0).
    + apply (bursts_inv_sub w (clearInterval id w));
        [reflexivity|apply clearInterval_subseteq|reflexivity|exact H].
    + unfold FastConfetti.fireworks_fire, FastConfetti.fireworks_burst.
      rewrite !let_pair.
      apply bursts_inv_launchConfettiWithDelay; [apply Hcb|].
      apply bursts_inv_random, bursts_inv_randomInRange.
      apply bursts_inv_launchConfettiWithDelay; [apply Hcb|].
      bursts_inv_solve H.
  - unfold FastConfetti.snow_start. by apply bursts_inv_frame.
  - unfold FastConfetti.snow_frame.
    destruct (_ || _); [done|]. cbv zeta. rewrite !let_pair.
    apply bursts_inv_frame; [done|].
    apply bursts_inv_launchConfetti; [apply Hcb|].
    bursts_inv_solve H.
  - by apply bursts_inv_fall_shoot.
  - unfold FastConfetti.pride_frame.
    destruct (_ && _); [|done]. cbv zeta.
    apply bursts_inv_frame; [done|].
    apply bursts_inv_launchConfettiWithDelay; [apply Hcb|].
    apply bursts_inv_launchConfettiWithDelay; [apply Hcb|]. exact H.
Qed.

Lemma launches_next_closure (cb : callback) :
  launches P cb → next_closure cb = cb.
Proof. by destruct cb. Qed.

Lemma bursts_inv_rearm (t : timer) (period : Z) (w : world) :
  launches P (tcb t) → bursts_inv P d old w → bursts_inv P d old (rearm t period w).
Proof.
  intros Hcb (H1 & H2 & H3). unfold rearm.
  destruct (has_timer (tid t) (timers w)); [|done].
  split; [done|]. split; [|done]. cbn [set_timers timers].
  apply Forall_app. split.
  - apply Forall_forall. intros u Hu.
    apply remove_timer_subseteq in Hu.
    by apply (proj1 (Forall_forall _ _) H2).
  - apply Forall_singleton. cbn. by rewrite launches_next_closure.
Qed.

Lemma bursts_inv_step (w w' : world) :
  bursts_inv P d old w → step w = Some w' → bursts_inv P d old w'.
Proof.
  intros H. unfold step.
  destruct (earliest (timers w)) as [t|] eqn:E; [|done].
  apply earliest_elem in E.
  assert (Hcb : launches P (tcb t)).
  { destruct H as (_ & H2 & _). by apply (proj1 (Forall_forall _ _) H2). }
  assert (Hnow : bursts_inv P d old (set_now (now w `max` due t) w)).
  { by apply (bursts_inv_sub w). }
  destruct (tkind t); intros [= <-].
  - apply bursts_inv_exec; [done|].
    apply (bursts_inv_sub (set_now (now w `max` due t) w));
      [reflexivity|apply remove_timer_subseteq|reflexivity|exact Hnow].
  - apply bursts_inv_rearm; [done|]. by apply bursts_inv_exec.
  - apply bursts_inv_exec; [done|].
    apply (bursts_inv_sub (set_now (now w `max` due t) w));
      [reflexivity|apply remove_timer_subseteq|reflexivity|exact Hnow].
Qed.

Lemma bursts_inv_run (n : nat) (w : world) :
  bursts_inv P d old w → bursts_inv P d old (run n w).
Proof.
  revert w. induction n as [|n IH]; intros w H; [done|].
  simpl. destruct (step w) as [w'|] eqn:E; [|done].
  apply IH. by apply (bursts_inv_step w).
Qed.
End bursts.

(** ** The three layers of a dispatched configuration *)

Lemma handed_layered (rnd : nat → Q) (options : option obj) (m : method)
    (d cfg : obj) :
  handed rnd options m cfg →
  ∃ e, effect_layer rnd options m e
       ∧ layered options e d (literal [Spread (Some d); Spread (Some cfg)]).
Proof.
  intros (e & He & ->). exists e. split; [done|]. intros k.
  rewrite lookup_finalOptions, lookup_assign_spread.
  by destruct (field options k).
Qed.

Lemma bursts_inv_quiet (P : obj → Prop) (w : world) :
  timers w = [] → bursts_inv P (defaults (self w)) (rendered w) w.
Proof.
  intros H. split; [done|]. split; [by rewrite H|].
  apply Forall_forall. intros c Hc. by left.
Qed.

Lemma bursts_inv_warn (P : obj → Prop) (d : obj) (old : list obj)
    (messages : list string) (w : world) :
  bursts_inv P d old w →
  bursts_inv P d old (foldl (λ w m, emit (Warn m) w) w messages).
Proof.
  revert w. induction messages as [|m l IH]; intros w H; [done|].
  simpl. apply IH.
  apply (bursts_inv_sub P d old w); [done|done| |done].
  rewrite rendered_emit. apply app_nil_r.
Qed.

(** Every effect establishes the invariant for its own layer. *)
Lemma call_method_bursts_inv (m : method) (options : option obj)
    (w : world) :
  m ≠ m_reset → timers w = [] →
  bursts_inv (handed (random w) options m) (defaults (self w))
    (rendered w) (FastConfetti.call_method m options w).
Proof.
  intros Hm Hw.
  pose proof (bursts_inv_quiet (handed (random w) options m) w Hw) as H.
  destruct m; cbn [FastConfetti.call_method]; try done.
  - apply bursts_inv_launchConfettiWithDelay; [|done].
    eexists. split; [constructor|apply literal_snoc].
  - unfold FastConfetti.randomDirection. rewrite !let_pair.
    apply bursts_inv_launchConfettiWithDelay.
    + eexists. split; [|apply literal_snoc].
      apply (layer_randomDirection _ _ (draws w) (S (draws w))
               (S (S (draws w)))).
    + by do 3 apply bursts_inv_random.
  - unfold FastConfetti.realistic.
    assert (G : ∀ l u,
      l ⊆ FastConfetti.realistic_presets →
      bursts_inv (handed (random w) options m_realistic)
        (defaults (self w)) (rendered w) u →
      bursts_inv (handed (random w) options m_realistic)
        (defaults (self w)) (rendered w)
        (foldl (λ w preset,
                  FastConfetti.realistic_fire options preset.1 preset.2 w)
           u l)).
    { induction l as [|p l IH]; intros u Hl Hu; [done|]. simpl.
      apply IH; [set_solver|].
      apply bursts_inv_launchConfettiWithDelay; [|done].
      eexists. split; [|apply literal_snoc].
      apply layer_realistic. apply Hl. left. }
    by apply G.
  - unfold FastConfetti.fireworks, setInterval.
    apply (bursts_inv_self _ _ _ _ (register _ _ _ w).2); [reflexivity|].
    apply bursts_inv_register; [|done].
    intros pc x r. eexists. split; [constructor|apply literal_snoc].
  - apply bursts_inv_launchConfettiWithDelay; [|done].
    eexists. split; [constructor|apply literal_snoc].
  - unfold FastConfetti.snow, setTimeout.
    apply bursts_inv_register; [|done].
    intros ticks x y g s dr. eexists. split; [constructor|apply literal_snoc].
  - unfold FastConfetti.fall, setTimeout. cbv zeta.
    apply bursts_inv_register.
    + intros x r. eexists. split; [constructor|apply literal_snoc].
    + by apply bursts_inv_warn.
  - unfold FastConfetti.pride. apply bursts_inv_frame; [|done].
    split; (eexists; split; [constructor|apply literal_snoc]).
Qed.

(** Every burst that an effect dispatches, at any later time, is layered:
    the statement shared by C1 and C3. *)
Lemma effect_bursts_layered (m : method) (options : option obj) (w : world)
    (n : nat) (c : obj) :
  m ≠ m_reset → timers w = [] →
  c ∈ rendered (run n (FastConfetti.call_method m options w)) →
  c ∈ rendered w
  ∨ ∃ e, effect_layer (random w) options m e
         ∧ layered options e (defaults (self w)) c.
Proof.
  intros Hm Hw Hc.
  pose proof (bursts_inv_run _ _ _ n _
                (call_method_bursts_inv m options w Hm Hw)) as (_ & _ & H).
  destruct (proj1 (Forall_forall _ _) H c Hc) as [Hold|(cfg & Hcfg & ->)].
  - by left.
  - right. by apply handed_layered.
Qed.

(** ** C1: the merge order of an effect call *)

Lemma layered_custom (options : option obj) (d : obj) :
  layered options ∅ d
    (literal [Spread (Some d); Spread (Some (default ∅ options))]).
Proof.
  intros k. rewrite lookup_finalOptions, lookup_empty.
  destruct options as [o|]; simpl; [done|]. by rewrite lookup_empty.
Qed.

Lemma custom_bursts_layered (options : option obj) (w : world) (n : nat)
    (c : obj) :
  timers w = [] →
  c ∈ rendered (run n (FastConfetti.custom options w)) →
  c ∈ rendered w ∨ layered options ∅ (defaults (self w)) c.
Proof.
  intros Hw Hc.
  assert (H : bursts_inv (λ cfg, cfg = default ∅ options)
                (defaults (self w)) (rendered w)
                (FastConfetti.custom options w)).
  { apply bursts_inv_launchConfettiWithDelay; [done|].
    by apply bursts_inv_quiet. }
  apply (bursts_inv_run _ _ _ n) in H as (_ & _ & H).
  destruct (proj1 (Forall_forall _ _) H c Hc) as [Hold|(cfg & -> & ->)].
  - by left.
  - right. apply layered_custom.
Qed.

Lemma cannon_run (options : option obj) (w : world) :
  timers w = [] →
  rendered (run 1 (FastConfetti.cannon options w))
  = rendered w
      ++ [literal [Spread (Some (defaults (self w)));
                   Spread (Some (literal (FastConfetti.cannon_fields
                                            ++ [Spread options])))]].
Proof.
  intros Hw.
  set (cfg := literal (FastConfetti.cannon_fields ++ [Spread options])).
  change 1%nat with (length [(fresh w, cfg)]).
  rewrite (run_launches [(fresh w, cfg)]
             (now w + ms (num_or (cfg !! "delay") 0))
             (FastConfetti.cannon options w)).
  - unfold rendered. cbn [trace map]. rewrite omap_app. reflexivity.
  - unfold FastConfetti.cannon. fold cfg.
    rewrite launchConfettiWithDelay_timers, Hw. reflexivity.
  - repeat constructor. apply not_elem_of_nil.
  - pose proof (ms_nonneg (num_or (cfg !! "delay") 0)). cbn. lia.
  - done.
Qed.

Lemma legacy_cannon_run (colors : option (list string))
    (options : option obj) (w : world) :
  timers w = [] →
  ∃ checkedColors,
    rendered (run 1 (ConfettiManager.cannon colors options w))
    = rendered w
        ++ [literal
              ([Spread (Some (defaults (self w)));
                Field "colors" checkedColors]
                 ++ [Spread (Some (literal
                                     ([Spread options]
                                        ++ [Field "particleCount"
                                              (VNum 100)])))])].
Proof.
  intros Hw. eexists.
  unfold ConfettiManager.cannon, ConfettiManager.launchConfettiWithDelay.
  set (cfg := Some (literal [Spread options;
                             Field "particleCount" (VNum 100)])).
  erewrite run_S; cycle 1.
  { apply (step_timeout _ [] []
             (mkTimer (fresh w) (now w + ms (num_or (field cfg "delay") 0))
                Timeout (CbLaunchColors colors cfg)));
      [cbn; rewrite Hw; reflexivity|reflexivity|constructor|constructor
      |constructor]. }
  cbn [run tcb exec]. unfold ConfettiManager.launchConfetti.
  rewrite rendered_emit. reflexivity.
Qed.

Lemma override_loses (call : option obj → world → world)
    (options : option obj) (w : world) (k : string) (v v' : value) :
  field options k = Some v →
  map (λ c, c !! k) (rendered (run 1 (call options w))) = [Some v'] →
  v ≠ v' →
  ¬ override_wins call options w k.
Proof.
  intros Hf Hm Hne H.
  destruct (rendered (run 1 (call options w))) as [|c l] eqn:R; [done|].
  injection Hm as Hc _.
  specialize (H v c Hf ltac:(rewrite R; left)). congruence.
Qed.

(** C1, colours-array variant.  [cannon(undefined, {particleCount: 5})] on
    a fresh page dispatches one burst whose [particleCount] is 100: the
    method spreads [options] first and writes its own [particleCount]
    after.  [randomDirection(undefined, {spread: 45})] loses its [spread]
    in the same way. *)
Lemma legacy_cannon_overrides_particleCount :
  ¬ override_wins (ConfettiManager.cannon None)
      (Some {[ "particleCount" := VNum 5 ]}) page "particleCount"
  ∧ ¬ override_wins (ConfettiManager.randomDirection None)
        (Some {[ "spread" := VNum 45 ]}) page "spread"
  ∧ map (λ c, c !! "particleCount")
      (rendered (run 1 (ConfettiManager.cannon None
                          (Some {[ "particleCount" := VNum 5 ]}) page)))
    = [Some (VNum 100)].
Proof.
  split; [|split].
  - apply (override_loses _ _ _ _ (VNum 5) (VNum 100));
      [reflexivity|vm_compute; reflexivity|discriminate].
  - apply (override_loses _ _ _ _ (VNum 45) (VNum 0));
      [reflexivity|vm_compute; reflexivity|discriminate].
  - vm_compute. reflexivity.
Qed.

(** The merge order of C1 where the code follows it.  Options-object
    variant, on an object with nothing else pending: every burst
    dispatched by [cannon], [randomDirection],
    [realistic], [fireworks], [stars], [snow], [fall] or [pride] called
    with [options], at any later time, takes each field present in
    [options] from [options], each field absent there but present in the
    effect's computed defaults from those, and every other field from the
    defaults of the object; [custom] has no computed defaults and merges
    [options] over the defaults of the object.  In particular the one
    burst of [cannon(options)] carries the [particleCount] of [options]
    when it has one, and 100 otherwise.  Colours-array variant:
    [cannon(colors, options)] writes [particleCount: 100] after it has
    spread [options], so its burst always carries 100; the other fields of
    [options] are dispatched as given. *)
Theorem effects_merge_in_layers (options : option obj) (w : world) :
  timers w = [] →
  (∀ m n c,
     m ≠ m_reset →
     c ∈ rendered (run n (FastConfetti.call_method m options w)) →
     c ∈ rendered w
     ∨ ∃ e, effect_layer (random w) options m e
            ∧ layered options e (defaults (self w)) c)
  ∧ (∀ n c,
       c ∈ rendered (run n (FastConfetti.custom options w)) →
       c ∈ rendered w ∨ layered options ∅ (defaults (self w)) c)
  ∧ (∃ c,
       rendered (run 1 (FastConfetti.cannon options w)) = rendered w ++ [c]
       ∧ layered options (literal FastConfetti.cannon_fields)
           (defaults (self w)) c
       ∧ (∀ v, field options "particleCount" = Some v →
            c !! "particleCount" = Some v)
       ∧ (field options "particleCount" = None →
          c !! "particleCount" = Some (VNum 100)))
  ∧ (∀ colors, ∃ c,
       rendered (run 1 (ConfettiManager.cannon colors options w))
       = rendered w ++ [c]
       ∧ c !! "particleCount" = Some (VNum 100)
       ∧ ∀ k v, k ≠ "particleCount" → field options k = Some v →
           c !! k = Some v).
Proof.
  intros Hw. split; [|split; [|split]].
  - intros m n c Hm Hc. by apply (effect_bursts_layered m options w n c).
  - intros n c Hc. by apply (custom_bursts_layered options w n c).
  - eexists. split; [apply (cannon_run options w Hw)|].
    assert (L : layered options (literal FastConfetti.cannon_fields)
                  (defaults (self w))
                  (literal [Spread (Some (defaults (self w)));
                            Spread (Some (literal (FastConfetti.cannon_fields
                                                     ++ [Spread options])))])).
    { intros k. rewrite lookup_finalOptions, lookup_literal_spread.
      by destruct (field options k). }
    split; [exact L|]. split.
    + intros v Hv. by rewrite (L "particleCount"), Hv.
    + intros Hv. by rewrite (L "particleCount"), Hv.
  - intros colors.
    destruct (legacy_cannon_run colors options w Hw) as (cc & ->).
    eexists. split; [reflexivity|]. split.
    + rewrite lookup_literal_spread. cbn [field mbind option_bind].
      by rewrite literal_snoc, lookup_assign_field, decide_True.
    + intros k v Hk Hv. rewrite lookup_literal_spread.
      cbn [field mbind option_bind].
      rewrite literal_snoc, lookup_assign_field, decide_False by done.
      change [Spread options] with ([] ++ [Spread options]).
      by rewrite lookup_literal_spread, Hv.
Qed.

Lemma effects_merge_in_layers_witness :
  timers page = []
  ∧ ∃ c,
      rendered (run 1 (FastConfetti.cannon
                         (Some {[ "particleCount" := VNum 5 ]}) page))
      = rendered page ++ [c]
      ∧ c !! "particleCount" = Some (VNum 5).
Proof.
  assert (Hp : timers page = []) by reflexivity.
  split; [exact Hp|].
  destruct (effects_merge_in_layers
              (Some {[ "particleCount" := VNum 5 ]}) page Hp)
    as (_ & _ & (c & Hc & _ & Hv & _) & _).
  exists c. split; [exact Hc|]. apply Hv. reflexivity.
Defined.

(** ** C3: the particle count of a dispatched configuration *)

(** C3 as claimed fails: the first tick of [fireworks()] on a fresh page
    dispatches the count [50 * (14750 / 15000)], which is not an integer,
    and [cannon({particleCount: -5})] dispatches -5. *)
Lemma fireworks_and_overrides_dispatch_raw_counts :
  ¬ counts_ok (run 2 (FastConfetti.fireworks None page))
  ∧ ¬ counts_ok
        (run 1 (FastConfetti.cannon
                  (Some {[ "particleCount" := VNum (-5) ]}) page))
  ∧ map (λ c, c !! "particleCount")
      (rendered (run 3 (FastConfetti.fireworks None page)))
    = [Some (VNum (737500 # 15000)); Some (VNum (737500 # 15000))]
  ∧ map (λ c, c !! "particleCount")
      (rendered (run 1 (FastConfetti.cannon
                          (Some {[ "particleCount" := VNum (-5) ]}) page)))
    = [Some (VNum (-5))].
Proof.
  assert (F : map (λ c, c !! "particleCount")
                (rendered (run 2 (FastConfetti.fireworks None page)))
              = [Some (VNum (737500 # 15000))]) by (vm_compute; reflexivity).
  assert (C : map (λ c, c !! "particleCount")
                (rendered (run 1 (FastConfetti.cannon
                   (Some {[ "particleCount" := VNum (-5) ]}) page)))
              = [Some (VNum (-5))]) by (vm_compute; reflexivity).
  split; [|split; [|split]].
  - intros H.
    destruct (rendered (run 2 (FastConfetti.fireworks None page)))
      as [|c l] eqn:R; [done|].
    injection F as Hc _.
    destruct (H c ltac:(rewrite R; left)) as (n & q & Hn & Hq & E).
    rewrite Hc in Hq. injection Hq as <-.
    unfold Qeq in E. simpl in E. lia.
  - intros H.
    destruct (rendered (run 1 (FastConfetti.cannon
                (Some {[ "particleCount" := VNum (-5) ]}) page)))
      as [|c l] eqn:R; [done|].
    injection C as Hc _.
    destruct (H c ltac:(rewrite R; left)) as (n & q & Hn & Hq & E).
    rewrite Hc in Hq. injection Hq as <-.
    unfold Qeq in E. simpl in E. lia.
  - vm_compute. reflexivity.
  - exact C.
Qed.

Lemma layer_count (rnd : nat → Q) (options : option obj) (m : method)
    (e : obj) :
  effect_layer rnd options m e →
  m ∈ counted_effects →
  field options "particleCount" = None →
  (∀ i, 0 <= rnd i)%Q →
  ∃ n : Z, 0 <= n ∧ e !! "particleCount" = Some (VNum (inject_Z n)).
Proof.
  intros He Hm Ho Hr. destruct He.
  - by exists 100.
  - exists (Qfloor (rnd i * 300)). split; [|reflexivity].
    change 0 with (Qfloor 0). apply Qfloor_resp_le.
    apply Qmult_le_0_compat; [apply Hr|done].
  - unfold FastConfetti.realistic_presets in H.
    repeat (apply elem_of_cons in H as [->|H]); [..|by apply elem_of_nil in H].
    + by exists 50.
    + by exists 40.
    + by exists 70.
    + by exists 20.
    + by exists 20.
  - unfold counted_effects in Hm.
    repeat (apply elem_of_cons in Hm as [Hm|Hm]; [discriminate|]).
    by apply elem_of_nil in Hm.
  - by exists 40.
  - by exists 1.
  - exists 50. split; [done|].
    change (literal (FastConfetti.fall_fields processedShapes options x r)
              !! "particleCount")
      with (Some (js_or (field options "particleCount") (VNum 50))).
    by rewrite Ho.
  - by exists 2.
  - by exists 2.
Qed.

(** A tick of [fireworks] that is not past the end launches its two bursts
    with the count [50 * (timeLeft / duration)] as computed. *)
Lemma fireworks_tick_count (options : option obj) (u : world)
    (animationEnd : Q) (id : handle) :
  let timeLeft := (animationEnd - Date_now u)%Q in
  Qle_bool timeLeft 0 = false →
  FastConfetti.fireworks_tick animationEnd options id u
  = FastConfetti.fireworks_fire options
      (50 * (timeLeft / num_or (field options "duration") 15000)) u.
Proof.
  intros timeLeft Ht.
  unfold FastConfetti.fireworks_tick. fold timeLeft. by rewrite Ht.
Qed.

(** C3 (amended).  On an object with nothing else pending and with
    [Math.random] in [0, 1):
    - when [options] holds no [particleCount], every burst dispatched by
      [cannon], [randomDirection], [realistic], [stars], [snow], [fall] or
      [pride], at any later time, has a non-negative integer particle
      count (the effect's own: 100, the floored draw, the floored ratios,
      40, 1, 50, 2);
    - a [particleCount] given in [options] is dispatched as it is by every
      effect, without flooring or clamping. *)
Theorem particle_counts (options : option obj) (w : world) :
  timers w = [] →
  (∀ i, 0 <= random w i < 1)%Q →
  (∀ m n c,
     m ∈ counted_effects →
     field options "particleCount" = None →
     c ∈ rendered (run n (FastConfetti.call_method m options w)) →
     c ∈ rendered w ∨ count_ok c)
  ∧ (∀ m n c v,
       m ≠ m_reset →
       field options "particleCount" = Some v →
       c ∈ rendered (run n (FastConfetti.call_method m options w)) →
       c ∈ rendered w ∨ c !! "particleCount" = Some v).
Proof.
  intros Hw Hr. split.
  - intros m n c Hm Ho Hc.
    assert (Hm' : m ≠ m_reset).
    { intros ->. unfold counted_effects in Hm.
      repeat (apply elem_of_cons in Hm as [Hm|Hm]; [discriminate|]).
      by apply elem_of_nil in Hm. }
    destruct (effect_bursts_layered m options w n c Hm' Hw Hc)
      as [Hold|(e & He & L)]; [by left|right].
    destruct (layer_count (random w) options m e He Hm Ho
                (λ i, proj1 (Hr i))) as (k & Hk & Hek).
    exists k, (inject_Z k). split; [done|]. split; [|reflexivity].
    by rewrite (L "particleCount"), Ho, Hek.
  - intros m n c v Hm Ho Hc.
    destruct (effect_bursts_layered m options w n c Hm Hw Hc)
      as [Hold|(e & He & L)]; [by left|right].
    by rewrite (L "particleCount"), Ho.
Qed.

Lemma particle_counts_witness :
  timers page = []
  ∧ (∀ i, 0 <= random page i < 1)%Q
  ∧ ∀ c, c ∈ rendered (run 5 (FastConfetti.realistic None page)) →
         count_ok c.
Proof.
  assert (Hp : timers page = []) by reflexivity.
  assert (Hr : (∀ i, 0 <= random page i < 1)%Q) by (intros i; by split).
  split; [exact Hp|]. split; [exact Hr|]. intros c Hc.
  destruct (proj1 (particle_counts None page Hp Hr) m_realistic 5%nat c)
    as [Hold|Hok]; [|reflexivity|exact Hc| |exact Hok].
  - unfold counted_effects. do 2 right. left.
  - change (rendered page) with (@nil obj) in Hold.
    by apply elem_of_nil in Hold.
Defined.

(** * Further properties of the code *)

(** ** The smooth reset, for any duration *)








(** ** A delayed burst, from construction to the renderer *)

(** One delayed burst pending alone fires at its due time. *)
Lemma run_launch_alone (id : handle) (cfg : obj) (T : Z) (w : world) :
  timers w = [launch_timer T (id, cfg)] →
  now w <= T →
  run 1 w
  = mkWorld T (fresh w) [] (self w) (trace w ++ [(T, burst w cfg)])
      (random w) (draws w) (frame_ms w).
Proof.
  intros Ht Hn. change 1%nat with (length [(id, cfg)]).
  rewrite (run_launches [(id, cfg)] T w Ht); [done| |done|done].
  repeat constructor. apply not_elem_of_nil.
Qed.

Lemma custom_delay (options : option obj) :
  num_or (default ∅ options !! "delay") 0 = num_or (field options "delay") 0.
Proof. by destruct options. Qed.

Lemma lookup_constructor (config : option obj) (k : string) :
  defaults (FastConfetti.constructor config) !! k
  = match field config k with
    | Some v => Some v
    | None => defaults (FastConfetti.constructor None) !! k
    end.
Proof.
  unfold FastConfetti.constructor. cbn [defaults].
  match goal with
  | |- literal ?l !! _ = _ =>
      change l with (removelast l ++ [Spread config])
  end.
  rewrite lookup_literal_spread.
  destruct (field config k); [done|].
  match goal with
  | |- _ = literal ?l !! _ =>
      change l with (removelast l ++ [Spread None])
  end.
  by rewrite lookup_literal_spread.
Qed.

(** X2.  From construction to the renderer.  On a page that holds a
    newly constructed [new Confetti(config)], [custom(options)] renders
    exactly one burst, [options.delay] ms after the call (at once when
    there is none), on the global renderer, and nothing remains pending.
    Each field of the burst comes from [options] when present there, else
    from [config], else from the built-in defaults of the class, which
    provide the eight fields colors, particleCount, spread, startVelocity,
    decay, scalar, angle and origin; with no [particleCount] in either
    object the burst carries 200. *)
Theorem constructed_custom_precedence (config options : option obj)
    (t0 : Z) (rnd : nat → Q) (frame : Z) :
  let w :=
    run 1 (FastConfetti.custom options
             (boot t0 (FastConfetti.constructor config) rnd frame)) in
  ∃ c,
    trace w
    = [(t0 + ms (num_or (field options "delay") 0), Render None c)]
    ∧ timers w = []
    ∧ (∀ k, c !! k
            = match field options k with
              | Some v => Some v
              | None =>
                  match field config k with
                  | Some v => Some v
                  | None => defaults (FastConfetti.constructor None) !! k
                  end
              end)
    ∧ Forall (λ k, is_Some (c !! k))
        ["colors"; "particleCount"; "spread"; "startVelocity"; "decay";
         "scalar"; "angle"; "origin"]
    ∧ (field options "particleCount" = None →
       field config "particleCount" = None →
       c !! "particleCount" = Some (VNum 200)).
Proof.
  intros w. subst w. unfold FastConfetti.custom.
  set (b := boot t0 (FastConfetti.constructor config) rnd frame).
  rewrite (run_launch_alone (fresh b) (default ∅ options)
             (now b + ms (num_or (default ∅ options !! "delay") 0)));
    [|reflexivity|pose proof (ms_nonneg (num_or (default ∅ options !! "delay") 0));
       cbn; lia].
  eexists. split; [|split; [reflexivity|]].
  { cbn [trace]. rewrite custom_delay. reflexivity. }
  assert (L : ∀ k,
    literal [Spread (Some (defaults (FastConfetti.constructor config)));
             Spread (Some (default ∅ options))] !! k
    = match field options k with
      | Some v => Some v
      | None =>
          match field config k with
          | Some v => Some v
          | None => defaults (FastConfetti.constructor None) !! k
          end
      end).
  { intros k. rewrite lookup_finalOptions, lookup_constructor.
    destruct options as [o|]; simpl; [done|]. by rewrite lookup_empty. }
  split; [exact L|]. split.
  - repeat (apply Forall_cons; split;
            [rewrite L; destruct (field options _); [by eexists|];
             destruct (field config _); by eexists|]).
    apply Forall_nil_2.
  - intros Ho Hc. by rewrite L, Ho, Hc.
Qed.

(** X3.  The canvas is read when a burst fires, not when it is scheduled.
    On an object with nothing else pending, a delayed burst followed by
    [customCanvas(c)] is rendered on [c] (on the global renderer when [c]
    is [null]), with the configuration it was scheduled with;
    [customCanvas] writes [confettiInstance] and no other field. *)
Theorem customCanvas_binds_late (c : option canvas) (cfg : obj) (w : world) :
  timers w = [] →
  let T := now w + ms (num_or (cfg !! "delay") 0) in
  let w' :=
    run 1 (FastConfetti.customCanvas c
             (FastConfetti.launchConfettiWithDelay cfg w)) in
  trace w'
  = trace w
      ++ [(T, Render c (literal [Spread (Some (defaults (self w)));
                                 Spread (Some cfg)]))]
  ∧ confettiInstance (self w') = c
  ∧ defaults (self w') = defaults (self w)
  ∧ timerId (self w') = timerId (self w)
  ∧ animationFrameId (self w') = animationFrameId (self w)
  ∧ timers w' = [].
Proof.
  intros Hw T w'. subst w'.
  rewrite (run_launch_alone (fresh w) cfg T).
  - unfold burst. by destruct c.
  - destruct c; cbn; by rewrite Hw.
  - pose proof (ms_nonneg (num_or (cfg !! "delay") 0)).
    subst T. destruct c; cbn; lia.
Qed.

Lemma customCanvas_binds_late_witness :
  timers page = []
  ∧ confettiInstance
      (self (run 1 (FastConfetti.customCanvas (Some 7%nat)
                      (FastConfetti.launchConfettiWithDelay ∅ page))))
    = Some 7%nat
  ∧ timers (run 1 (FastConfetti.customCanvas (Some 7%nat)
                     (FastConfetti.launchConfettiWithDelay ∅ page))) = [].
Proof.
  assert (Hp : timers page = []) by reflexivity.
  pose proof (customCanvas_binds_late (Some 7%nat) ∅ page Hp)
    as (_ & Hc & _ & _ & _ & Ht).
  split; [exact Hp|]. split; [exact Hc|exact Ht].
Defined.

(** ** The ranges of [randomDirection] *)

Lemma floor_scaled (r : Q) (n : Z) :
  0 < n → (0 <= r < 1)%Q → 0 <= Qfloor (r * inject_Z n) <= n - 1.
Proof.
  intros Hn [H0 H1].
  assert (Hq : (0 < inject_Z n)%Q) by (rewrite <- (Zlt_Qlt 0); lia).
  split.
  - change 0 with (Qfloor 0). apply Qfloor_resp_le.
    apply Qmult_le_0_compat; [done|by apply Qlt_le_weak].
  - assert (H : (inject_Z (Qfloor (r * inject_Z n)) < inject_Z n)%Q).
    { eapply Qle_lt_trans; [apply Qfloor_le|].
      rewrite <- (Qmult_1_l (inject_Z n)) at 2.
      by apply Qmult_lt_r. }
    rewrite <- Zlt_Qlt in H. lia.
Qed.

Lemma legacy_launch_alone (colors : option (list string))
    (options : option obj) (w : world) :
  timers w = [] →
  run 1 (ConfettiManager.launchConfettiWithDelay colors options w)
  = ConfettiManager.launchConfetti colors options
      (mkWorld (now w + ms (num_or (field options "delay") 0))
         (Pos.succ (fresh w)) [] (self w) (trace w) (random w) (draws w)
         (frame_ms w)).
Proof.
  intros Hw. unfold ConfettiManager.launchConfettiWithDelay.
  erewrite run_S; cycle 1.
  { apply (step_timeout _ [] []
             (mkTimer (fresh w)
                (now w + ms (num_or (field options "delay") 0))
                Timeout (CbLaunchColors colors options)));
      [cbn; rewrite Hw; reflexivity|reflexivity|constructor|constructor
      |constructor]. }
  cbn [run tcb exec app tid due set_now set_timers setTimeout register snd
       now fresh timers self trace random draws frame_ms].
  pose proof (ms_nonneg (num_or (field options "delay") 0)).
  by rewrite Z.max_r by lia.
Qed.

(** Reading a property of a literal whose last parts are property writes. *)
Ltac lookup_fields :=
  repeat (rewrite lookup_assign_field;
          first [rewrite decide_True by done | rewrite decide_False by done]);
  try reflexivity.

Ltac decide_fields :=
  repeat first [rewrite decide_True by done | rewrite decide_False by done].

(** X4.  The ranges of [randomDirection].  With [Math.random] in [0, 1),
    on an object with nothing else pending, the call draws three random
    numbers and renders one burst.  There are whole numbers
    [particleCount] in 0..299 and [spread], [angle] in 0..359 such that
    the options-object variant dispatches them unless [options] holds the
    field, which then wins, and the colours-array variant always
    dispatches them, whatever [options] holds. *)
Theorem randomDirection_ranges (options : option obj) (w : world) :
  timers w = [] →
  (∀ i, 0 <= random w i < 1)%Q →
  ∃ particleCount spread angle : Z,
    0 <= particleCount <= 299 ∧ 0 <= spread <= 359 ∧ 0 <= angle <= 359
    ∧ (∃ c,
         rendered (run 1 (FastConfetti.randomDirection options w))
         = rendered w ++ [c]
         ∧ c !! "particleCount"
           = Some (default (VNum (inject_Z particleCount))
                     (field options "particleCount"))
         ∧ c !! "spread"
           = Some (default (VNum (inject_Z spread)) (field options "spread"))
         ∧ c !! "angle"
           = Some (default (VNum (inject_Z angle)) (field options "angle")))
    ∧ (∀ colors, ∃ c,
         rendered (run 1 (ConfettiManager.randomDirection colors options w))
         = rendered w ++ [c]
         ∧ c !! "particleCount" = Some (VNum (inject_Z particleCount))
         ∧ c !! "spread" = Some (VNum (inject_Z spread))
         ∧ c !! "angle" = Some (VNum (inject_Z angle)))
    ∧ draws (FastConfetti.randomDirection options w) = (3 + draws w)%nat.
Proof.
  intros Hw Hr.
  exists (Qfloor (random w (draws w) * 300)),
    (Qfloor (random w (S (draws w)) * 360)),
    (Qfloor (random w (S (S (draws w))) * 360)).
  split; [apply (floor_scaled _ 300); [lia|apply Hr]|].
  split; [apply (floor_scaled _ 360); [lia|apply Hr]|].
  split; [apply (floor_scaled _ 360); [lia|apply Hr]|].
  split; [|split].
  - unfold FastConfetti.randomDirection, Math_random.
    cbn [now fresh timers self trace random draws frame_ms].
    set (cfg := literal (_ ++ [Spread options])).
    set (w3 := mkWorld _ _ _ _ _ _ _ _).
    rewrite (run_launch_alone (fresh w) cfg
               (now w + ms (num_or (cfg !! "delay") 0)) _);
      [|subst w3; cbn; by rewrite Hw
       |pose proof (ms_nonneg (num_or (cfg !! "delay") 0)); cbn; lia].
    eexists. split.
    { unfold rendered. cbn [trace]. rewrite omap_app. reflexivity. }
    subst cfg. rewrite !lookup_finalOptions, !lookup_literal_spread.
    split; [|split].
    + destruct (field options "particleCount"); reflexivity.
    + destruct (field options "spread"); reflexivity.
    + destruct (field options "angle"); reflexivity.
  - intros colors. unfold ConfettiManager.randomDirection, Math_random.
    cbn [now fresh timers self trace random draws frame_ms].
    rewrite legacy_launch_alone by (cbn; exact Hw).
    unfold ConfettiManager.launchConfetti. rewrite rendered_emit.
    eexists. split; [reflexivity|].
    cbn [self].
    match goal with
    | |- literal [?a; ?b; Spread ?o] !! _ = _ ∧ _ =>
        change [a; b; Spread o] with ([a; b] ++ [Spread o])
    end.
    rewrite !lookup_literal_spread. cbn [field mbind option_bind].
    unfold literal at 1 3 5. cbn [foldl]. unfold Math_floor.
    repeat split; lookup_fields.
  - reflexivity.
Qed.

Lemma randomDirection_ranges_witness :
  timers page = []
  ∧ (∀ i, 0 <= random page i < 1)%Q
  ∧ ∃ particleCount : Z,
      0 <= particleCount <= 299
      ∧ draws (FastConfetti.randomDirection None page) = (3 + draws page)%nat.
Proof.
  assert (Hp : timers page = []) by reflexivity.
  assert (Hr : (∀ i, 0 <= random page i < 1)%Q) by (intros i; cbn; lra).
  destruct (randomDirection_ranges None page Hp Hr)
    as (pc & sp & an & Hpc & _ & _ & _ & _ & Hd).
  split; [exact Hp|]. split; [exact Hr|].
  exists pc. split; [exact Hpc|exact Hd].
Defined.

(** ** The colours of the colours-array variant *)

(** X5.  The colours of a burst of the colours-array variant.
    [custom(colors, options)] on an object with nothing else pending
    renders one burst whose [colors] are those of [options] when it has
    the field, else the [colors] argument when it is a non-empty array,
    else the colours of the defaults of the object; every other field
    comes from [options], else from the defaults. *)
Theorem legacy_colors_precedence (colors : option (list string))
    (options : option obj) (w : world) :
  timers w = [] →
  ∃ c,
    rendered (run 1 (ConfettiManager.custom colors options w))
    = rendered w ++ [c]
    ∧ c !! "colors"
      = Some match field options "colors", colors with
             | Some v, _ => v
             | None, Some (x :: xs) => VColors (x :: xs)
             | None, _ => default VUndef (defaults (self w) !! "colors")
             end
    ∧ ∀ k, k ≠ "colors" →
        c !! k = match field options k with
                 | Some v => Some v
                 | None => defaults (self w) !! k
                 end.
Proof.
  intros Hw. unfold ConfettiManager.custom.
  rewrite legacy_launch_alone by exact Hw.
  unfold ConfettiManager.launchConfetti. rewrite rendered_emit.
  eexists. split; [reflexivity|]. cbn [self].
  assert (F : ∀ k, field (Some (default ∅ options)) k = field options k).
  { intros k. destruct options; [done|]. apply lookup_empty. }
  split.
  - match goal with
    | |- literal [?a; ?b; Spread ?o] !! _ = _ =>
        change [a; b; Spread o] with ([a; b] ++ [Spread o])
    end.
    rewrite lookup_literal_spread, F.
    destruct (field options "colors"); [done|].
    unfold literal. cbn [foldl app]. lookup_fields.
  - intros k Hk.
    match goal with
    | |- literal [?a; ?b; Spread ?o] !! _ = _ =>
        change [a; b; Spread o] with ([a; b] ++ [Spread o])
    end.
    rewrite lookup_literal_spread, F.
    destruct (field options k); [done|].
    unfold literal. cbn [foldl app].
    rewrite lookup_assign_field, decide_False by done.
    rewrite lookup_assign_spread. cbn [field mbind option_bind].
    destruct (defaults (self w) !! k); [done|apply lookup_empty].
Qed.

Lemma legacy_colors_precedence_witness :
  timers page = []
  ∧ ∃ c,
      rendered (run 1 (ConfettiManager.custom (Some ["#fff"]) None page))
      = rendered page ++ [c]
      ∧ c !! "colors" = Some (VColors ["#fff"]).
Proof.
  assert (Hp : timers page = []) by reflexivity.
  destruct (legacy_colors_precedence (Some ["#fff"]) None page Hp)
    as (c & Hr & Hc & _).
  split; [exact Hp|]. exists c. split; [exact Hr|exact Hc].
Defined.

(** ** [customShape]: one run of [shoot] *)

Lemma lookup_customShape_defaults (colors : option (list string))
    (options : option obj) (k : string) :
  CustomShape.customShape_defaults colors options !! k
  = match field options k with
    | Some v => Some v
    | None => CustomShape.customShape_defaults colors None !! k
    end.
Proof.
  unfold CustomShape.customShape_defaults.
  match goal with
  | |- literal ?l !! _ = _ =>
      change l with (removelast l ++ [Spread options])
  end.
  rewrite lookup_literal_spread.
  destruct (field options k); [done|].
  match goal with
  | |- _ = literal ?l !! _ =>
      change l with (removelast l ++ [Spread None])
  end.
  by rewrite lookup_literal_spread.
Qed.

(** A configuration that [shoot] hands over: the [defaults] of
    [customShape], then three property writes. *)
Lemma lookup_shoot_config (d : obj) (pc sc sh : value) (k : string) :
  literal [Spread (Some d); Field "particleCount" pc; Field "scalar" sc;
           Field "shapes" sh] !! k
  = if decide (k = "shapes") then Some sh
    else if decide (k = "scalar") then Some sc
    else if decide (k = "particleCount") then Some pc
    else d !! k.
Proof.
  unfold literal. cbn [foldl]. rewrite !lookup_assign_field.
  rewrite lookup_assign_spread. cbn [field mbind option_bind].
  repeat case_decide; subst; try done.
  destruct (d !! k); [done|apply lookup_empty].
Qed.

Lemma lookup_legacy_final (d o : obj) (cc : value) (k : string) :
  literal [Spread (Some d); Field "colors" cc; Spread (Some o)] !! k
  = match o !! k with
    | Some v => Some v
    | None => if decide (k = "colors") then Some cc else d !! k
    end.
Proof.
  change [Spread (Some d); Field "colors" cc; Spread (Some o)]
    with ([Spread (Some d); Field "colors" cc] ++ [Spread (Some o)]).
  rewrite lookup_literal_spread. cbn [field mbind option_bind].
  destruct (o !! k); [done|].
  unfold literal. cbn [foldl]. rewrite lookup_assign_field.
  rewrite lookup_assign_spread. cbn [field mbind option_bind].
  repeat case_decide; subst; try done.
  destruct (d !! k); [done|apply lookup_empty].
Qed.

(** X6.  One run of the inner [shoot] of [customShape] (colours-array
    variant), on an object with nothing else pending: two bursts are
    rendered together, after the delay of the options.  The first always
    carries [particleCount] 40, [scalar] 1.5 and the processed shapes, the
    second always 20, 1 and [['circle']]: these three fields are written
    after [options] has been spread, so [options] cannot change them.
    Both carry the [colors] of [options], else the [colors] argument, and
    [undefined] when there is neither: the colours of the defaults of the
    object are not used.  Any other field comes from [options], else from
    the defaults of [customShape], else from those of the object. *)
Theorem customShape_shoot_bursts (shapes : list shape)
    (colors : option (list string)) (options : option obj) (w : world) :
  timers w = [] →
  let processed := map (CustomShape.process_shape options) shapes in
  let T := now w + ms (num_or (field options "delay") 0) in
  let w' :=
    run 2 (CustomShape.shoot processed colors
             (CustomShape.customShape_defaults colors options) w) in
  ∃ c1 c2,
    trace w'
    = trace w ++ [(T, Render (confettiInstance (self w)) c1);
                  (T, Render (confettiInstance (self w)) c2)]
    ∧ timers w' = []
    ∧ (c1 !! "particleCount" = Some (VNum 40)
       ∧ c1 !! "scalar" = Some (VNum 1.5)
       ∧ c1 !! "shapes" = Some (VShapes processed))
    ∧ (c2 !! "particleCount" = Some (VNum 20)
       ∧ c2 !! "scalar" = Some (VNum 1)
       ∧ c2 !! "shapes" = Some (VShapes [ShName "circle"]))
    ∧ (∀ c, c ∈ [c1; c2] →
         c !! "colors"
         = Some (default (CustomShape.colors_value colors)
                   (field options "colors")))
    ∧ (∀ c k, c ∈ [c1; c2] →
         k ∉ ["particleCount"; "scalar"; "shapes"; "colors"] →
         c !! k
         = match field options k with
           | Some v => Some v
           | None =>
               match CustomShape.customShape_defaults colors None !! k with
               | Some v => Some v
               | None => defaults (self w) !! k
               end
           end).
Proof.
  intros Hw processed T w'. subst w'. unfold CustomShape.shoot.
  set (d := CustomShape.customShape_defaults colors options).
  set (cfg1 := literal [Spread (Some d); Field "particleCount" (VNum 40);
                        Field "scalar" (VNum 1.5);
                        Field "shapes" (VShapes processed)]).
  set (cfg2 := literal [Spread (Some d); Field "particleCount" (VNum 20);
                        Field "scalar" (VNum 1);
                        Field "shapes" (VShapes [ShName "circle"])]).
  assert (Hd : d !! "delay" = field options "delay").
  { subst d. rewrite lookup_customShape_defaults.
    by destruct (field options "delay"). }
  assert (D1 : now w + ms (num_or (field (Some cfg1) "delay") 0) = T).
  { subst cfg1 T. cbn [field mbind option_bind].
    by rewrite lookup_shoot_config, !decide_False, Hd by done. }
  assert (D2 : now w + ms (num_or (field (Some cfg2) "delay") 0) = T).
  { subst cfg2 T. cbn [field mbind option_bind].
    by rewrite lookup_shoot_config, !decide_False, Hd by done. }
  assert (HT : now w <= T).
  { subst T. pose proof (ms_nonneg (num_or (field options "delay") 0)). lia. }
  unfold ConfettiManager.launchConfettiWithDelay, setTimeout, register.
  cbn [snd now fresh timers self trace random draws frame_ms].
  rewrite Hw, D1, D2. cbn [app].
  erewrite run_S; cycle 1.
  { apply (step_timeout _ []
             [mkTimer (Pos.succ (fresh w)) T Timeout
                (CbLaunchColors colors (Some cfg2))]
             (mkTimer (fresh w) T Timeout (CbLaunchColors colors (Some cfg1))));
      [reflexivity|reflexivity|constructor| |].
    - repeat constructor. cbn. lia.
    - repeat constructor. cbn. lia. }
  cbn [tcb tid due exec app]. unfold ConfettiManager.launchConfetti.
  wnorm. cbn [self].
  erewrite run_S; cycle 1.
  { apply (step_timeout _ [] []
             (mkTimer (Pos.succ (fresh w)) T Timeout
                (CbLaunchColors colors (Some cfg2))));
      [reflexivity|reflexivity|constructor|constructor|constructor]. }
  cbn [tcb tid due exec app run]. unfold ConfettiManager.launchConfetti.
  wnorm. cbn [self trace timers now].
  rewrite !Z.max_r by lia. rewrite <- app_assoc. cbn [app].
  set (cc := match colors with
             | Some (c :: cs) => VColors (c :: cs)
             | _ => default VUndef (defaults (self w) !! "colors")
             end).
  eexists _, _. split; [reflexivity|]. split; [reflexivity|].
  assert (Hcol : d !! "colors"
                 = Some (default (CustomShape.colors_value colors)
                           (field options "colors"))).
  { subst d. rewrite lookup_customShape_defaults.
    by destruct (field options "colors"). }
  subst cfg1 cfg2.
  split; [|split; [|split]].
  - rewrite !lookup_legacy_final, !lookup_shoot_config.
    by decide_fields.
  - rewrite !lookup_legacy_final, !lookup_shoot_config.
    by decide_fields.
  - intros c Hc.
    apply elem_of_cons in Hc as [->|Hc];
      [|apply elem_of_cons in Hc as [->|Hc]; [|by apply elem_of_nil in Hc]];
      rewrite lookup_legacy_final, lookup_shoot_config, !decide_False, Hcol
        by done; done.
  - intros c k Hc Hk.
    rewrite !not_elem_of_cons in Hk. destruct Hk as (K1 & K2 & K3 & K4 & _).
    assert (Hk : d !! k
                 = match field options k with
                   | Some v => Some v
                   | None => CustomShape.customShape_defaults colors None !! k
                   end) by apply lookup_customShape_defaults.
    apply elem_of_cons in Hc as [->|Hc];
      [|apply elem_of_cons in Hc as [->|Hc]; [|by apply elem_of_nil in Hc]];
      rewrite lookup_legacy_final, lookup_shoot_config, !decide_False, Hk
        by done;
      destruct (field options k); [done| |done|];
      by destruct (CustomShape.customShape_defaults colors None !! k).
Qed.

Lemma customShape_shoot_bursts_witness :
  timers page = []
  ∧ ∃ c1 c2,
      map snd
        (trace (run 2 (CustomShape.shoot
                         (map (CustomShape.process_shape None)
                            [ShName "star"]) None
                         (CustomShape.customShape_defaults None None) page)))
      = [Render None c1; Render None c2]
      ∧ c1 !! "particleCount" = Some (VNum 40)
      ∧ c2 !! "particleCount" = Some (VNum 20).
Proof.
  assert (Hp : timers page = []) by reflexivity.
  destruct (customShape_shoot_bursts [ShName "star"] None None page Hp)
    as (c1 & c2 & Ht & _ & (H1 & _) & (H2 & _) & _).
  split; [exact Hp|]. exists c1, c2.
  split; [|split; [exact H1|exact H2]].
  rewrite Ht. reflexivity.
Defined.

(** ** The shape maps of [customShape] and [fall] *)


(** ** The ten bursts of [fall] *)

Lemma handle_at_0 (h : handle) : handle_at h 0 = h.
Proof. unfold handle_at. by rewrite Nat.add_0_r, Pos2Nat.id. Qed.

Lemma handle_at_S (h : handle) (i : nat) :
  handle_at h (S i) = Pos.succ (handle_at h i).
Proof.
  unfold handle_at. rewrite Nat.add_succ_r. apply Nat2Pos.inj_succ.
  pose proof (Pos2Nat.is_pos h). lia.
Qed.

Lemma handle_at_inj (h : handle) (i j : nat) :
  handle_at h i = handle_at h j → i = j.
Proof.
  unfold handle_at. intros H. pose proof (Pos2Nat.is_pos h).
  apply Nat2Pos.inj in H; lia.
Qed.

Lemma NoDup_handles (h : handle) (n : nat) :
  NoDup (map (handle_at h) (seq 0 n)).
Proof.
  apply NoDup_fmap_2_strong; [|apply NoDup_seq].
  intros i j _ _. apply handle_at_inj.
Qed.

Lemma fall_config_delay (ss : list shape) (options : option obj) (x r : Q) :
  literal (FastConfetti.fall_fields ss options x r ++ [Spread options])
    !! "delay"
  = field options "delay".
Proof.
  rewrite lookup_literal_spread. destruct (field options "delay"); [done|].
  unfold FastConfetti.fall_fields, literal. cbn [foldl].
  repeat (rewrite lookup_assign_field, decide_False by done).
  apply lookup_empty.
Qed.

(** The loop of [shoot], after [n] iterations. *)
Lemma iter_fall_burst (ss : list shape) (options : option obj) (n : nat)
    (u : world) :
  Nat.iter n (FastConfetti.fall_burst ss options) u
  = mkWorld (now u) (handle_at (fresh u) n)
      (timers u
         ++ map (λ i, launch_timer
                        (now u + ms (num_or (field options "delay") 0))
                        (handle_at (fresh u) i, fall_config ss options u i))
              (seq 0 n))
      (self u) (trace u) (random u) (draws u + 2 * n)%nat (frame_ms u).
Proof.
  induction n as [|n IH].
  - destruct u as [n0 f0 ts0 s0 tr0 r0 d0 fm0]. cbn [Nat.iter seq map fresh]. rewrite handle_at_0, app_nil_r.
    cbn [now fresh timers self trace random draws frame_ms].
    by rewrite Nat.add_0_r.
  - rewrite Nat.iter_succ, IH. unfold FastConfetti.fall_burst, Math_random.
    cbn [now fresh timers self trace random draws frame_ms].
    unfold FastConfetti.launchConfettiWithDelay, setTimeout, register.
    cbn [snd now fresh timers self trace random draws frame_ms].
    rewrite fall_config_delay, handle_at_S, seq_S, map_app, <- app_assoc.
    cbn [map Nat.add]. unfold launch_timer at 2, fall_config at 2.
    cbn [fst snd].
    replace (S (draws u + 2 * n)) with (draws u + 2 * n + 1)%nat by lia.
    f_equal. lia.
Qed.

Lemma fall_scheduled (options : option obj) (w : world) :
  timers w = [] →
  let processed :=
    map (FastConfetti.process_shape options)
      (FastConfetti.fall_shapes options) in
  FastConfetti.fall options w
  = mkWorld (now w) (Pos.succ (fresh w))
      [mkTimer (fresh w) (now w + ms (num_or (field options "delay") 0))
         Timeout (CbFallShoot (map fst processed) options)]
      (self w)
      (trace w ++ map (λ m, (now w, Warn m)) (concat (map snd processed)))
      (random w) (draws w) (frame_ms w).
Proof.
  intros Hw processed. unfold FastConfetti.fall. fold processed.
  cbv zeta. rewrite emit_warnings. unfold setTimeout, register.
  cbn [snd now fresh timers self trace random draws frame_ms].
  by rewrite Hw.
Qed.

(** X8.  The ten bursts of [fall].  On an object with nothing else
    pending, [fall(options)] logs its warnings at once and renders exactly
    ten bursts, all at the same instant, twice [options.delay] after the
    call: the delay is waited for once before [shoot] and once more by
    each delayed burst.  Nothing remains pending, no field of the object
    is written, and twenty random numbers are drawn.  With [Math.random]
    in [0, 1), each burst starts at the top edge ([origin.y = 0]) at a
    horizontal position in [0, 1) with a drift in [-1, 1), unless
    [options] holds the field. *)
Theorem fall_ten_bursts (options : option obj) (w : world) :
  timers w = [] →
  let processed :=
    map (FastConfetti.process_shape options)
      (FastConfetti.fall_shapes options) in
  let d := ms (num_or (field options "delay") 0) in
  let w' := run 11 (FastConfetti.fall options w) in
  trace w'
  = trace w
      ++ map (λ m, (now w, Warn m)) (concat (map snd processed))
      ++ map (λ i, (now w + 2 * d,
                    burst w (fall_config (map fst processed) options w i)))
           (seq 0 10)
  ∧ timers w' = []
  ∧ self w' = self w
  ∧ draws w' = (draws w + 20)%nat
  ∧ ((∀ i, 0 <= random w i < 1)%Q →
     ∀ i, ∃ x drift : Q,
       (0 <= x < 1)%Q ∧ (-1 <= drift < 1)%Q
       ∧ fall_config (map fst processed) options w i !! "origin"
         = Some (default (VOrigin (Some x) (Some 0%Q))
                   (field options "origin"))
       ∧ fall_config (map fst processed) options w i !! "drift"
         = Some (default (VNum drift) (field options "drift"))).
Proof.
  intros Hw processed d w'. subst w'.
  rewrite (fall_scheduled options w Hw). fold processed d.
  pose proof (ms_nonneg (num_or (field options "delay") 0)) as Hd.
  fold d in Hd.
  erewrite run_S; cycle 1.
  { apply (step_timeout _ [] []
             (mkTimer (fresh w) (now w + d) Timeout
                (CbFallShoot (map fst processed) options)));
      [reflexivity|reflexivity|constructor|constructor|constructor]. }
  cbn [tcb tid due exec app]. unfold FastConfetti.fall_shoot.
  rewrite iter_fall_burst. wnorm.
  cbn [now fresh timers self trace random draws frame_ms app].
  fold d. rewrite Z.max_r by lia.
  set (u := mkWorld _ _ _ _ _ _ _ _).
  set (cfgs := map (λ i, (handle_at (Pos.succ (fresh w)) i,
                          fall_config (map fst processed) options w i))
                 (seq 0 10)).
  change (run 10) with (run (length cfgs)).
  rewrite (run_launches cfgs (now w + d + d) u).
  - subst u cfgs. cbn [now fresh timers self trace random draws frame_ms].
    rewrite <- app_assoc, !map_map. cbn [snd].
    replace (now w + d + d) with (now w + 2 * d) by lia.
    split; [reflexivity|]. split; [reflexivity|]. split; [reflexivity|].
    split; [lia|].
    intros Hr i.
    exists (random w (draws w + 2 * i)),
      (random w (draws w + 2 * i + 1) * 2 - 1)%Q.
    destruct (Hr (draws w + 2 * i)%nat) as [H1 H2].
    destruct (Hr (draws w + 2 * i + 1)%nat) as [H3 H4].
    split; [done|]. split; [lra|].
    unfold fall_config. rewrite !lookup_literal_spread.
    split.
    + destruct (field options "origin"); [done|].
      unfold FastConfetti.fall_fields, literal. cbn [foldl]. lookup_fields.
    + destruct (field options "drift"); [done|].
      unfold FastConfetti.fall_fields, literal. cbn [foldl]. lookup_fields.
  - subst u cfgs. cbn [timers]. by rewrite map_map.
  - subst cfgs. rewrite map_map. cbn [fst]. apply NoDup_handles.
  - subst u. cbn [now]. lia.
  - done.
Qed.

Lemma fall_ten_bursts_witness :
  timers page = []
  ∧ timers (run 11 (FastConfetti.fall None page)) = []
  ∧ draws (run 11 (FastConfetti.fall None page)) = 20%nat.
Proof.
  assert (Hp : timers page = []) by reflexivity.
  pose proof (fall_ten_bursts None page Hp) as (_ & Ht & _ & Hd & _).
  split; [exact Hp|]. split; [exact Ht|exact Hd].
Defined.

(** ** [infinite('cannon', interval, duration)], for any period and
    duration *)

Lemma infinite_loop_at (p D : Z) (w : world) :
  timers w = [] → 0 <= p →
  FastConfetti.infinite m_cannon (Some (inject_Z p)) (Some (inject_Z D))
    None w
  = loop_at w p D (Pos.succ (fresh w)) 0.
Proof.
  intros H Hp. unfold FastConfetti.infinite, loop_at.
  cbn [default]. unfold setInterval, register, set_timerId, set_self.
  cbv beta iota zeta. unfold id. rewrite (ms_inject_Z p Hp).
  change (num_or (field None "delay") 0) with 0%Q.
  wcbn. rewrite H. change (seqZ 1 0) with (@nil Z). cbn [map concat app].
  rewrite app_nil_r. unfold Date_now, with_timerId, loop_tick.
  f_equal; [lia|]. do 2 f_equal. lia.
Qed.

Lemma loop_at_tick (b : world) (p D : Z) (next : handle) (k : Z) :
  (fresh b < next)%positive →
  1 <= p → 0 <= k → p * (k + 1) <= D →
  run 3 (loop_at b p D next k)
  = loop_at b p D (Pos.succ (Pos.succ next)) (k + 1).
Proof.
  intros Hid Hp Hk HD.
  set (T := now b + p * (k + 1)).
  remember (loop_at b p D (Pos.succ (Pos.succ next)) (k + 1)) as goal eqn:G.
  rewrite (run_S _ _ _
    (step_interval_alone (loop_at b p D next k)
       (mkTimer (fresh b) T (Interval p) (loop_tick b D)) p eq_refl eq_refl)).
  unfold loop_at, loop_tick. wcbn.
  unfold FastConfetti.infinite_tick. wcbn.
  unfold Date_now. wcbn.
  rewrite Qle_bool_inject_Z.
  rewrite Z.max_r by nia.
  rewrite (proj2 (Z.leb_le _ _)) by (subst T; lia).
  cbn [negb]. unfold setTimeout, register. change (ms 0) with 0. wcbn.
  unfold rearm. wcbn. rewrite Pos.eqb_refl. wcbn.
  unfold remove_timer.
  rewrite filter_cons_False by (cbn; congruence).
  rewrite filter_cons_True by (cbn; lia). rewrite filter_nil.
  unfold set_timers. wcbn.
  erewrite run_S; cycle 1.
  { apply (step_timeout _ []
             [mkTimer (fresh b) (T + p) (Interval p) (loop_tick b D)]
             (mkTimer next (T + 0) Timeout (CbInvoke m_cannon None)));
      [reflexivity|reflexivity|constructor| |].
    - repeat constructor. cbn. lia.
    - repeat constructor. cbn. lia. }
  wcbn. unfold FastConfetti.call_method, FastConfetti.cannon,
    FastConfetti.launchConfettiWithDelay.
  fold cannon_config. unfold setTimeout, register. rewrite cannon_delay.
  unfold set_timers, set_now, emit. wcbn.
  erewrite run_S; cycle 1.
  { apply (step_timeout _
             [mkTimer (fresh b) (T + p) (Interval p) (loop_tick b D)] []
             (mkTimer (Pos.succ next) (T `max` (T + 0) + 0) Timeout
                (CbLaunch cannon_config)));
      [reflexivity|reflexivity| |constructor|].
    - repeat constructor. cbn. lia.
    - repeat constructor. cbn. lia. }
  wcbn. unfold FastConfetti.launchConfetti, set_timers, set_now, emit. wcbn.
  cbn [run]. subst goal T. unfold loop_at, loop_tick.
  f_equal.
  - lia.
  - do 2 f_equal. lia.
  - rewrite <- !app_assoc. f_equal.
    rewrite seqZ_snoc by lia. rewrite map_app, concat_app. f_equal.
    cbn [map concat app loop_shot]. unfold burst. cbn.
    replace (1 + k) with (k + 1) by lia.
    repeat (f_equal; try lia).
Qed.

Lemma loop_at_ticks (b : world) (p D : Z) (k : nat) :
  1 <= p → ((0 < k)%nat → p * Z.of_nat k <= D) →
  ∃ next, (fresh b < next)%positive
          ∧ run (3 * k) (loop_at b p D (Pos.succ (fresh b)) 0)
            = loop_at b p D next (Z.of_nat k).
Proof.
  intros Hp. induction k as [|k IH]; intros Hk.
  - exists (Pos.succ (fresh b)). split; [lia|done].
  - specialize (Hk ltac:(lia)).
    destruct IH as (next & Hn & IH); [nia|].
    exists (Pos.succ (Pos.succ next)). split; [lia|].
    replace (3 * S k)%nat with (3 * k + 3)%nat by lia.
    rewrite run_add, IH, loop_at_tick by lia. f_equal. lia.
Qed.

Lemma loop_at_expires (b : world) (p D : Z) (next : handle) (k : Z) :
  1 <= p → 0 <= k → D < p * (k + 1) →
  step (loop_at b p D next k) = Some (loop_stopped b p next (k + 1)).
Proof.
  intros Hp Hk HD.
  rewrite (step_interval_alone (loop_at b p D next k)
       (mkTimer (fresh b) (now b + p * (k + 1)) (Interval p)
          (loop_tick b D)) p eq_refl eq_refl).
  f_equal. unfold loop_at, loop_tick, with_timerId. wcbn.
  unfold FastConfetti.infinite_tick. wcbn. unfold Date_now. wcbn.
  rewrite Qle_bool_inject_Z.
  rewrite Z.max_r by nia. rewrite (proj2 (Z.leb_gt _ _)) by lia.
  cbn [negb]. unfold FastConfetti.stopInfinite. wcbn.
  unfold rearm, set_timerId, set_self, clearInterval, set_timers, set_now.
  wcbn. rewrite (filter_clear_self (fresh b)) by reflexivity. wcbn.
  unfold loop_stopped, with_timerId.
  replace (k + 1 - 1) with k by lia. reflexivity.
Qed.

(** X9.  How often [infinite('cannon', p, D)] invokes [cannon], for whole
    numbers of milliseconds [p >= 1] and [D].  On an object with nothing
    else pending the interval ticks every [p] ms; each of the first
    [K = max 0 (D / p)] ticks (rounded down) invokes [cannon] and renders
    its burst at that instant, with the interval still pending and
    tracked; tick [K + 1] is the first later than [D]: it invokes nothing,
    clears the interval and empties [timerId], and nothing remains
    pending.  So the loop stops itself up to one period after the duration
    has passed, and a duration shorter than the period renders nothing. *)
Theorem infinite_cannon_invocations (p D : Z) (w : world) :
  timers w = [] →
  1 <= p →
  let K := Z.max 0 (D / p) in
  let w1 :=
    FastConfetti.infinite m_cannon (Some (inject_Z p)) (Some (inject_Z D))
      None w in
  (∀ k : nat, Z.of_nat k <= K →
     let wk := run (3 * k) w1 in
     now wk = now w + p * Z.of_nat k
     ∧ trace wk = trace w ++ concat (map (loop_shot w p) (seqZ 1 (Z.of_nat k)))
     ∧ timerId (self wk) = Some (fresh w)
     ∧ has_timer (fresh w) (timers wk) = true)
  ∧ (let w' := run (3 * Z.to_nat K + 1) w1 in
     now w' = now w + p * (K + 1)
     ∧ trace w' = trace w ++ concat (map (loop_shot w p) (seqZ 1 K))
     ∧ timers w' = []
     ∧ timerId (self w') = None)
  ∧ (p * K <= D ∨ K = 0) ∧ D < p * (K + 1).
Proof.
  intros Hw Hp K w1. subst w1.
  rewrite (infinite_loop_at p D w Hw ltac:(lia)).
  assert (HK : 0 <= K) by (subst K; lia).
  assert (Hlow : p * K <= D ∨ K = 0).
  { subst K. destruct (Z.max_spec 0 (D / p)) as [[H ->]|[H ->]].
    - left. apply Z.mul_div_le. lia.
    - by right. }
  assert (Hup : D < p * (K + 1)).
  { subst K.
    pose proof (Z.mul_succ_div_gt D p ltac:(lia)) as H.
    unfold Z.succ in H. nia. }
  split; [|split; [|done]].
  - intros k Hk wk. subst wk.
    destruct (loop_at_ticks w p D k Hp) as (next & Hn & ->).
    { intros Hpos. destruct Hlow as [H|H]; nia. }
    split; [reflexivity|]. split; [reflexivity|]. split; [reflexivity|].
    cbn. by rewrite Pos.eqb_refl.
  - intros w'. subst w'. rewrite run_add.
    destruct (loop_at_ticks w p D (Z.to_nat K) Hp) as (next & Hn & ->).
    { intros Hpos. destruct Hlow as [H|H]; nia. }
    rewrite Z2Nat.id by lia.
    rewrite (run_S _ _ _ (loop_at_expires w p D next K Hp HK Hup)).
    cbn [run]. unfold loop_stopped. cbn [now trace timers self with_timerId timerId].
    replace (K + 1 - 1) with K by lia. done.
Qed.

Lemma infinite_cannon_invocations_witness :
  timers page = []
  ∧ 1 <= 500
  ∧ timers (run 7 (FastConfetti.infinite m_cannon (Some 500%Q)
                     (Some 1200%Q) None page)) = []
  ∧ now (run 7 (FastConfetti.infinite m_cannon (Some 500%Q)
                  (Some 1200%Q) None page)) = 1500.
Proof.
  assert (Hp : timers page = []) by reflexivity.
  assert (H1 : 1 <= 500) by lia.
  pose proof (infinite_cannon_invocations 500 1200 page Hp H1)
    as (_ & (Hn & _ & Ht & _) & _).
  split; [exact Hp|]. split; [exact H1|]. split; [exact Ht|exact Hn].
Defined.

(** ** The [fireworks] loop *)












(** ** The [snow] loop *)














(** ** The [pride] loop *)











(** ** What [reset('instant')] cancels *)

(** X13.  What [reset('instant')] cancels, in any state: exactly the
    pending callbacks whose handle the object holds (the frame in
    [animationFrameId], the interval in [timerId]); every other pending
    callback stays pending.  It logs one global clear, empties both
    handles and keeps the defaults and the canvas.  A second
    [reset('instant')] only calls the global clear again. *)
Theorem reset_instant_cancels_tracked (options : option obj) (w : world) :
  let w' := FastConfetti.reset (Some "instant") options w in
  (∀ t, t ∈ timers w' ↔ t ∈ timers w ∧ ¬ tracks (self w) t)
  ∧ trace w' = trace w ++ [(now w, GlobalReset)]
  ∧ timerId (self w') = None
  ∧ animationFrameId (self w') = None
  ∧ defaults (self w') = defaults (self w)
  ∧ confettiInstance (self w') = confettiInstance (self w)
  ∧ FastConfetti.reset (Some "instant") options w' = emit GlobalReset w'.
Proof.
  intros w'. subst w'. rewrite !reset_instant.
  destruct (stop_frames_spec w) as (Hn & Ht & Hti & Haf & _).
  split.
  { intros t. cbn [emit timers].
    rewrite elem_of_clear_tracked, elem_of_stop_frames, Hti.
    unfold tracks. tauto. }
  rewrite stop_frames_self in *. unfold stop_frames.
  destruct w as [n0 f0 ts0 [d0 ci0 ti0 af0] tr0 r0 dr0 fm0].
  cbn [self animationFrameId timerId defaults confettiInstance].
  destruct af0 as [a|], ti0 as [i|]; wnorm; cbn [self timers trace now];
    done.
Qed.

(** ** An interval that the object has lost track of *)

Section orphaned.
Context (id : handle).

(** Nothing of what [orphan] speaks about changes. *)
Lemma orphan_same (w w' : world) :
  timers w' = timers w → timerId (self w') = timerId (self w) →
  fresh w' = fresh w → orphan id w → orphan id w'.
Proof. unfold orphan. by intros -> -> ->. Qed.

Lemma orphan_register (k : kind) (cb : callback) (delay : Z) (w : world) :
  orphan id w →
  orphan id (register k cb delay w).2 ∧ (id < (register k cb delay w).1)%positive.
Proof.
  intros ((t & Ht & Hid) & Hk & Hti & Hf). split; [|done].
  split; [|split; [|split]]; cbn.
  - exists t. split; [|done]. apply elem_of_app. by left.
  - intros u Hu Hu'. apply elem_of_app in Hu as [Hu|Hu]; [by apply Hk|].
    apply list_elem_of_singleton in Hu. subst u. cbn in Hu'. lia.
  - done.
  - lia.
Qed.

Lemma orphan_set_timerId (h : option handle) (w : world) :
  h ≠ Some id → orphan id w → orphan id (set_timerId h w).
Proof. intros Hh (H1 & H2 & _ & H4). by split. Qed.

Lemma orphan_clearInterval (x : handle) (w : world) :
  x ≠ id → orphan id w → orphan id (clearInterval x w).
Proof.
  intros Hx ((t & Ht & Hid) & Hk & Hti & Hf).
  split; [|split; [|split]]; cbn; [| |done|done].
  - exists t. split; [|done]. apply list_elem_of_filter. split; [|done].
    intros [_ E]. congruence.
  - intros u Hu. apply list_elem_of_filter in Hu as [_ Hu]. by apply Hk.
Qed.

Lemma orphan_cancelAnimationFrame (x : handle) (w : world) :
  orphan id w → orphan id (cancelAnimationFrame x w).
Proof.
  intros ((t & Ht & Hid) & Hk & Hti & Hf).
  split; [|split; [|split]]; cbn; [| |done|done].
  - exists t. split; [|done]. apply list_elem_of_filter. split; [|done].
    destruct (Hk t Ht Hid) as (p & e & d & m & o & Hkind & _).
    unfold is_frame. rewrite Hkind. by intros [? _].
  - intros u Hu. apply list_elem_of_filter in Hu as [_ Hu]. by apply Hk.
Qed.

Lemma orphan_remove_other (x : handle) (w : world) :
  x ≠ id → orphan id w → orphan id (set_timers (remove_timer x (timers w)) w).
Proof.
  intros Hx ((t & Ht & Hid) & Hk & Hti & Hf).
  split; [|split; [|split]]; cbn; [| |done|done].
  - exists t. split; [|done]. apply list_elem_of_filter. split; [|done].
    congruence.
  - intros u Hu. apply list_elem_of_filter in Hu as [_ Hu]. by apply Hk.
Qed.

Lemma orphan_clear_tracked (w : world) :
  orphan id w →
  orphan id match timerId (self w) with
            | Some x => set_timerId None (clearInterval x w)
            | None => w
            end.
Proof.
  intros H. destruct (timerId (self w)) as [x|] eqn:E; [|done].
  apply orphan_set_timerId; [done|].
  apply orphan_clearInterval; [|done].
  destruct H as (_ & _ & Hti & _). congruence.
Qed.

Lemma orphan_stop_frames (w : world) : orphan id w → orphan id (stop_frames w).
Proof.
  intros H. unfold stop_frames.
  destruct (animationFrameId (self w)) as [a|]; [|done].
  apply (orphan_same (cancelAnimationFrame a w)); try reflexivity.
  by apply orphan_cancelAnimationFrame.
Qed.

Lemma orphan_launchConfettiWithDelay (cfg : obj) (w : world) :
  orphan id w → orphan id (FastConfetti.launchConfettiWithDelay cfg w).
Proof. intros H. by apply orphan_register. Qed.

Lemma orphan_tracked_register (k : kind) (cb : callback) (delay : Z)
    (w : world) :
  orphan id w →
  orphan id (let '(h, w) := register k cb delay w in set_timerId (Some h) w).
Proof.
  intros H. rewrite let_pair.
  destruct (orphan_register k cb delay w H) as [H1 H2].
  apply orphan_set_timerId; [|done]. intros [= E]. cbn in E, H2. lia.
Qed.

Lemma orphan_frame (cb : callback) (w : world) :
  orphan id w →
  orphan id (let '(h, w) := requestAnimationFrame cb w in
             set_animationFrameId (Some h) w).
Proof.
  intros H. rewrite let_pair. unfold requestAnimationFrame.
  apply (orphan_same (register Frame cb (frame_ms w) w).2); try reflexivity.
  by apply orphan_register.
Qed.

Lemma orphan_random (w : world) : orphan id w → orphan id (Math_random w).2.
Proof. by apply orphan_same. Qed.

Lemma orphan_randomInRange (min max : Q) (w : world) :
  orphan id w → orphan id (FastConfetti.randomInRange min max w).2.
Proof. by apply orphan_same. Qed.

Lemma orphan_emit (e : event) (w : world) : orphan id w → orphan id (emit e w).
Proof. by apply orphan_same. Qed.

Lemma orphan_warnings (l : list string) (w : world) :
  orphan id w → orphan id (foldl (λ w m, emit (Warn m) w) w l).
Proof. rewrite emit_warnings. by apply orphan_same. Qed.

Ltac orphan_solve H :=
  repeat first
    [ exact H
    | lazymatch goal with
      | |- orphan _ (Math_random _).2 => apply orphan_random
      | |- orphan _ (FastConfetti.randomInRange _ _ _).2 =>
          apply orphan_randomInRange
      | |- orphan _ (emit _ _) => apply orphan_emit
      | |- orphan _ (foldl _ _ _) => apply orphan_warnings
      | |- orphan _ (stop_frames _) => apply orphan_stop_frames
      | |- orphan _ (FastConfetti.launchConfettiWithDelay _ _) =>
          apply orphan_launchConfettiWithDelay
      | |- orphan _ (FastConfetti.launchConfetti _ _) =>
          unfold FastConfetti.launchConfetti at 1; apply orphan_emit
      | |- orphan _ (FastConfetti.cannon _ _) => unfold FastConfetti.cannon
      | |- orphan _ (FastConfetti.stars _ _) =>
          unfold FastConfetti.stars; cbv zeta
      | |- orphan _ (FastConfetti.custom _ _) => unfold FastConfetti.custom
      end ].

Lemma orphan_reset (type : option string) (options : option obj) (w : world) :
  orphan id w → orphan id (FastConfetti.reset type options w).
Proof.
  intros H. unfold FastConfetti.reset. cbv zeta. fold (stop_frames w).
  destruct (String.eqb (default "smooth" type) "instant").
  { apply orphan_emit, (orphan_clear_tracked (stop_frames w)).
    orphan_solve H. }
  destruct (String.eqb (default "smooth" type) "smooth"); [|orphan_solve H].
  apply orphan_register. orphan_solve H.
Qed.

Lemma orphan_call_method (m : method) (options : option obj) (w : world) :
  orphan id w → orphan id (FastConfetti.call_method m options w).
Proof.
  intros H. destruct m; cbn [FastConfetti.call_method].
  - orphan_solve H.
  - unfold FastConfetti.randomDirection. rewrite !let_pair. orphan_solve H.
  - unfold FastConfetti.realistic, FastConfetti.realistic_fire.
    generalize FastConfetti.realistic_presets. intros l. revert w H.
    induction l as [|p l IH]; intros w H; [done|].
    cbn [foldl]. apply IH. orphan_solve H.
  - unfold FastConfetti.fireworks, setInterval.
    by apply orphan_tracked_register.
  - orphan_solve H.
  - unfold FastConfetti.snow, setTimeout. apply orphan_register. exact H.
  - unfold FastConfetti.fall, setTimeout. cbv zeta.
    apply orphan_register. orphan_solve H.
  - unfold FastConfetti.pride. by apply orphan_frame.
  - destruct options; by apply orphan_reset.
Qed.

Lemma orphan_fall_shoot (ss : list shape) (o : option obj) (w : world) :
  orphan id w → orphan id (FastConfetti.fall_shoot ss o w).
Proof.
  intros H. unfold FastConfetti.fall_shoot. generalize 10%nat.
  intros n. induction n as [|n IH]; [done|].
  rewrite Nat.iter_succ. unfold FastConfetti.fall_burst at 1.
  rewrite !let_pair. orphan_solve IH.
Qed.

(** Running a callback; [h] is the handle of the timer that fired. *)
Lemma orphan_exec (cb : callback) (h : handle) (w : world) :
  (h = id → ∃ e d m o, cb = CbInfiniteTick e d m o) →
  orphan id w → orphan id (exec cb h w).
Proof.
  intros Hh H.
  assert (Hne : (∀ e d m o, cb ≠ CbInfiniteTick e d m o) → h ≠ id).
  { intros Hcb ->. destruct (Hh eq_refl) as (e & d & m & o & ->).
    by apply (Hcb e d m o). }
  destruct cb; cbn [exec].
  - orphan_solve H.
  - unfold FastConfetti.infinite_tick, FastConfetti.stopInfinite, setTimeout.
    destruct (negb _); [by apply (orphan_clear_tracked w)|].
    by apply orphan_register.
  - apply orphan_call_method. orphan_solve H.
  - unfold FastConfetti.fireworks_tick. destruct (Qle_bool _ 0).
    + apply orphan_clearInterval; [by apply Hne|done].
    + unfold FastConfetti.fireworks_fire, FastConfetti.fireworks_burst.
      rewrite !let_pair. orphan_solve H.
  - unfold FastConfetti.snow_start. by apply orphan_frame.
  - unfold FastConfetti.snow_frame.
    destruct (_ || _); [done|]. cbv zeta. rewrite !let_pair.
    apply (orphan_frame _ (FastConfetti.launchConfetti _ _)).
    orphan_solve H.
  - by apply orphan_fall_shoot.
  - unfold FastConfetti.pride_frame.
    destruct (_ && _); [|done]. cbv zeta.
    apply (orphan_frame _ (FastConfetti.launchConfettiWithDelay _ _)).
    orphan_solve H.
  - unfold FastConfetti.reset_tick. cbv zeta.
    destruct (Qle_bool _ _); [|orphan_solve H].
    apply orphan_emit.
    apply (orphan_clear_tracked (clearInterval h (emit _ w))).
    apply orphan_clearInterval; [by apply Hne|]. orphan_solve H.
  - unfold ConfettiManager.launchConfetti. orphan_solve H.
Qed.

Lemma orphan_rearm (t : timer) (period : Z) (w : world) :
  (tid t = id → ∃ e d m o, tcb t = CbInfiniteTick e d m o) →
  orphan id w → orphan id (rearm t period w).
Proof.
  intros Ht H. unfold rearm.
  destruct (has_timer (tid t) (timers w)); [|done].
  destruct (decide (tid t = id)) as [E|E].
  - destruct (Ht E) as (e & d & m & o & Hcb).
    destruct H as (_ & _ & Hti & Hf).
    split; [|split; [|split]]; cbn [set_timers timers self fresh];
      [| |done|done].
    + eexists. split; [apply elem_of_app; right; left|done].
    + intros u Hu Hu'. apply elem_of_app in Hu as [Hu|Hu].
      * apply list_elem_of_filter in Hu as [Hu _]. congruence.
      * apply list_elem_of_singleton in Hu. subst u. cbn.
        rewrite Hcb. by eexists _, _, _, _, _.
  - apply (orphan_remove_other (tid t) w E) in H.
    destruct H as ((u & Hu & Hid) & Hk & Hti & Hf).
    split; [|split; [|split]]; cbn [set_timers timers self fresh];
      [| |done|done].
    + exists u. split; [|done]. apply elem_of_app. by left.
    + intros v Hv Hv'. apply elem_of_app in Hv as [Hv|Hv]; [by apply Hk|].
      apply list_elem_of_singleton in Hv. subst v. cbn in Hv'. done.
Qed.

Lemma orphan_step (w w' : world) :
  orphan id w → step w = Some w' → orphan id w'.
Proof.
  intros H. unfold step.
  destruct (earliest (timers w)) as [t|] eqn:E; [|done].
  apply earliest_elem in E.
  assert (Ht : tid t = id →
               ∃ p e d m o, tkind t = Interval p ∧ tcb t = CbInfiniteTick e d m o).
  { destruct H as (_ & Hk & _). by apply Hk. }
  assert (Hcb : tid t = id → ∃ e d m o, tcb t = CbInfiniteTick e d m o).
  { intros Hid. destruct (Ht Hid) as (p & e & d & m & o & _ & ->).
    by eexists _, _, _, _. }
  assert (Hnow : orphan id (set_now (now w `max` due t) w))
    by (by apply (orphan_same w)).
  destruct (tkind t) eqn:Hk; intros [= <-].
  - apply orphan_exec; [done|].
    apply (orphan_remove_other (tid t) (set_now (now w `max` due t) w));
      [|done].
    intros Hid. destruct (Ht Hid) as (p & _ & _ & _ & _ & ? & _). done.
  - apply orphan_rearm; [done|]. by apply orphan_exec.
  - apply orphan_exec; [done|].
    apply (orphan_remove_other (tid t) (set_now (now w `max` due t) w));
      [|done].
    intros Hid. destruct (Ht Hid) as (p & _ & _ & _ & _ & ? & _). done.
Qed.

Lemma orphan_perform (a : action) (w : world) :
  orphan id w → orphan id (perform a w).
Proof.
  intros H. destruct a; cbn [perform].
  - destruct (step w) as [w'|] eqn:E; [|done]. by apply (orphan_step w).
  - by apply (orphan_same w).
  - by apply orphan_call_method.
  - orphan_solve H.
  - unfold FastConfetti.infinite, setInterval. cbv zeta.
    by apply orphan_tracked_register.
  - by apply orphan_reset.
  - destruct c; by apply (orphan_same w).
Qed.

Lemma orphan_script (l : list action) (w : world) :
  orphan id w → orphan id (script l w).
Proof.
  unfold script. revert w. induction l as [|a l IH]; intros w H; [done|].
  cbn [foldl]. apply IH. by apply orphan_perform.
Qed.
End orphaned.

Lemma orphan_pending (id : handle) (w : world) :
  orphan id w → has_timer id (timers w) = true.
Proof.
  intros ((t & Ht & Hid) & Hk & _).
  destruct (Hk t Ht Hid) as (p & _ & _ & _ & _ & Hkind & _).
  unfold has_timer. apply existsb_exists. exists t.
  split; [by apply list_elem_of_In|].
  unfold is_frame. rewrite Hkind, Hid. cbn. apply Pos.eqb_refl.
Qed.

Lemma orphan_created (m : method) (interval duration : option Q)
    (options : option obj) (w : world) (second : action) :
  issued w → overwrites second →
  orphan (fresh w)
    (perform second (FastConfetti.infinite m interval duration options w)).
Proof.
  intros Hw Hsecond.
  assert (G : ∀ k cb delay,
    orphan (fresh w)
      (let '(h, u) :=
         register k cb delay
           (FastConfetti.infinite m interval duration options w) in
       set_timerId (Some h) u)).
  { intros k cb delay. unfold FastConfetti.infinite, setInterval.
    cbv zeta. rewrite !let_pair.
    split; [|split; [|split]];
      cbn [register fst snd set_timerId set_self timers self timerId fresh].
    - eexists. split; [apply elem_of_app; left; apply elem_of_app; right; left|].
      reflexivity.
    - intros t Ht Hid.
      apply elem_of_app in Ht as [Ht|Ht];
        [apply elem_of_app in Ht as [Ht|Ht]|].
      + pose proof (proj1 (Forall_forall _ _) Hw t Ht) as Hlt. cbn in Hlt. lia.
      + apply list_elem_of_singleton in Ht. subst t. by eexists _, _, _, _, _.
      + apply list_elem_of_singleton in Ht. subst t. cbn in Hid. lia.
    - intros [= E]. lia.
    - lia. }
  destruct second as [| |m' o'|o'|m' i' d' o'|type o'|c]; try done.
  - destruct m'; try done. cbn [perform FastConfetti.call_method].
    unfold FastConfetti.fireworks, setInterval. apply G.
  - cbn [perform]. unfold FastConfetti.infinite at 1, setInterval. cbv zeta.
    apply G.
Qed.

(** X14.  An [infinite] loop whose handle has been overwritten is never
    stopped.  Start [infinite] on an object whose handles were issued in
    order, then start [infinite] or [fireworks] again, then perform any
    sequence of calls of public methods (resets in any mode included),
    turns of the event loop and waiting: the interval of the first loop is
    still pending and still is that interval, and [timerId] does not hold
    its handle.  Its own expiry does not stop it either, since
    [stopInfinite] clears the handle in [timerId], not the interval that
    calls it. *)
Theorem overwritten_loop_is_never_stopped (m : method)
    (interval duration : option Q) (options : option obj) (w : world)
    (second : action) (rest : list action) :
  issued w →
  overwrites second →
  let w1 := FastConfetti.infinite m interval duration options w in
  let w' := script (second :: rest) w1 in
  timerId (self w1) = Some (fresh w)
  ∧ has_timer (fresh w) (timers w1) = true
  ∧ has_timer (fresh w) (timers w') = true
  ∧ timerId (self w') ≠ Some (fresh w)
  ∧ (∀ t, t ∈ timers w' → tid t = fresh w →
       ∃ p e d m' o, tkind t = Interval p ∧ tcb t = CbInfiniteTick e d m' o).
Proof.
  intros Hw Hsecond w1 w'.
  assert (H : orphan (fresh w) w').
  { subst w' w1. cbn [script foldl]. apply orphan_script.
    by apply orphan_created. }
  split; [reflexivity|]. split.
  { subst w1. unfold FastConfetti.infinite, setInterval. cbv zeta.
    rewrite let_pair. cbn [register fst snd set_timerId set_self timers].
    unfold has_timer. rewrite existsb_app. cbn. rewrite Pos.eqb_refl.
    apply orb_true_r. }
  split; [by apply orphan_pending|].
  destruct H as (_ & Hk & Hti & _). done.
Qed.

Lemma overwritten_loop_is_never_stopped_witness :
  issued page
  ∧ overwrites (Call m_fireworks None)
  ∧ has_timer 1%positive
      (timers (script [Call m_fireworks None; Turn;
                       CallReset (Some "instant") None; Turn]
                 (FastConfetti.infinite m_cannon None None None page)))
    = true.
Proof.
  assert (Hi : issued page) by constructor.
  assert (Ho : overwrites (Call m_fireworks None)) by exact I.
  pose proof (overwritten_loop_is_never_stopped m_cannon None None None page
                (Call m_fireworks None)
                [Turn; CallReset (Some "instant") None; Turn] Hi Ho)
    as (_ & _ & Ht & _).
  split; [exact Hi|]. split; [exact Ho|exact Ht].
Defined.

(** ** The colours-array [realistic] *)

Lemma run_legacy_launches_now (colors : option (list string))
    (cfgs : list (handle * option obj)) (w : world) :
  timers w = map (legacy_launch_timer colors (now w)) cfgs →
  NoDup (map fst cfgs) →
  run (length cfgs) w
  = mkWorld (now w) (fresh w) [] (self w)
      (trace w ++ map (λ c, (now w, legacy_burst w colors c.2)) cfgs)
      (random w) (draws w) (frame_ms w).
Proof.
  revert w. induction cfgs as [|c cfgs IH]; intros w Ht Hnd.
  - destruct w as [n0 f0 ts0 s0 tr0 r0 d0 fm0]. simpl in *. subst.
    by rewrite app_nil_r.
  - cbn [length]. cbn [map] in Ht, Hnd. apply NoDup_cons in Hnd as [Hid Hnd].
    erewrite run_S; cycle 1.
    { apply (step_timeout w [] (map (legacy_launch_timer colors (now w)) cfgs)
               (legacy_launch_timer colors (now w) c));
        [exact Ht|reflexivity|constructor| |].
      - apply Forall_forall. intros u Hu.
        apply list_elem_of_fmap in Hu as (c' & -> & _). cbn. lia.
      - cbn [app]. apply Forall_forall. intros u Hu.
        apply list_elem_of_fmap in Hu as (c' & -> & Hc). cbn.
        intros E. apply Hid. apply list_elem_of_fmap. by exists c'. }
    cbn [legacy_launch_timer tcb tid due exec app fst snd].
    rewrite Z.max_id. unfold ConfettiManager.launchConfetti.
    rewrite IH; [|reflexivity|done].
    destruct w as [n0 f0 ts0 s0 tr0 r0 d0 fm0].
    cbn [emit set_timers set_now now fresh timers self trace random draws
         frame_ms map]. unfold legacy_burst. cbn [self].
    by rewrite <- app_assoc.
Qed.

Lemma run_legacy_launches (colors : option (list string))
    (cfgs : list (handle * option obj)) (T : Z) (w : world) :
  timers w = map (legacy_launch_timer colors T) cfgs →
  NoDup (map fst cfgs) →
  now w <= T →
  cfgs ≠ [] →
  run (length cfgs) w
  = mkWorld T (fresh w) [] (self w)
      (trace w ++ map (λ c, (T, legacy_burst w colors c.2)) cfgs)
      (random w) (draws w) (frame_ms w).
Proof.
  intros Ht Hnd Hn Hne. destruct cfgs as [|c cfgs]; [done|].
  cbn [length]. cbn [map] in Ht, Hnd.
  pose proof Hnd as Hnd'. apply NoDup_cons in Hnd' as [Hid Hnd'].
  erewrite run_S; cycle 1.
  { apply (step_timeout w [] (map (legacy_launch_timer colors T) cfgs)
             (legacy_launch_timer colors T c));
      [exact Ht|reflexivity|constructor| |].
    - apply Forall_forall. intros u Hu.
      apply list_elem_of_fmap in Hu as (c' & -> & _). cbn. lia.
    - cbn [app]. apply Forall_forall. intros u Hu.
      apply list_elem_of_fmap in Hu as (c' & -> & Hc). cbn.
      intros E. apply Hid. apply list_elem_of_fmap. by exists c'. }
  cbn [legacy_launch_timer tcb tid due exec app fst snd].
  rewrite Z.max_r by lia. unfold ConfettiManager.launchConfetti.
  rewrite (run_legacy_launches_now colors cfgs); [|reflexivity|done].
  destruct w as [n0 f0 ts0 s0 tr0 r0 d0 fm0].
  cbn [emit set_timers set_now now fresh timers self trace random draws
       frame_ms map]. unfold legacy_burst. cbn [self].
  by rewrite <- app_assoc.
Qed.

Lemma legacy_realistic_delay (options : option obj) (cfg : obj) :
  cfg ∈ legacy_realistic_configs options →
  cfg !! "delay" = field options "delay".
Proof.
  unfold legacy_realistic_configs, FastConfetti.realistic_presets.
  cbn [map fst snd]. intros H.
  repeat (apply elem_of_cons in H as [->|H]);
    [..|by apply elem_of_nil in H];
    match goal with
    | |- literal [?a; ?b; ?c; Spread options] !! _ = _ =>
        change [a; b; c; Spread options] with ([a; b; c] ++ [Spread options])
    end;
    rewrite lookup_literal_spread;
    (destruct (field options "delay"); [done|]); reflexivity.
Qed.


Lemma legacy_realistic_options (options : option obj) (cfg : obj)
    (k : string) (v : value) :
  cfg ∈ legacy_realistic_configs options →
  field options k = Some v → cfg !! k = Some v.
Proof.
  unfold legacy_realistic_configs, FastConfetti.realistic_presets.
  cbn [map fst snd]. intros H Hk.
  repeat (apply elem_of_cons in H as [->|H]);
    [..|by apply elem_of_nil in H];
    match goal with
    | |- literal [?a; ?b; ?c; Spread options] !! _ = _ =>
        change [a; b; c; Spread options] with ([a; b; c] ++ [Spread options])
    end;
    by rewrite lookup_literal_spread, Hk.
Qed.

Lemma legacy_realistic_counts (options : option obj) :
  map (λ cfg, cfg !! "particleCount") (legacy_realistic_configs options)
  = map (λ n, Some (default (VNum n) (field options "particleCount")))
      [50%Q; 40%Q; 70%Q; 20%Q; 20%Q].
Proof.
  unfold legacy_realistic_configs, FastConfetti.realistic_presets.
  cbn [map fst snd].
  repeat match goal with
  | |- context [literal [?a; ?b; ?c; Spread options]] =>
      change [a; b; c; Spread options]
        with ([a; b; c] ++ [Spread options])
  end.
  rewrite !lookup_literal_spread.
  destruct (field options "particleCount"); [reflexivity|].
  vm_compute. reflexivity.
Qed.

Lemma legacy_realistic_schedule (colors : option (list string))
    (options : option obj) (w : world) :
  timers w = [] →
  timers (ConfettiManager.realistic colors options w)
  = map (legacy_launch_timer colors
           (now w + ms (num_or (field options "delay") 0)))
      (zip [fresh w; Pos.succ (fresh w); Pos.succ (Pos.succ (fresh w));
            Pos.succ (Pos.succ (Pos.succ (fresh w)));
            Pos.succ (Pos.succ (Pos.succ (Pos.succ (fresh w))))]
         (map Some (legacy_realistic_configs options))).
Proof.
  intros Hw.
  assert (Hd : Forall (λ cfg, cfg !! "delay" = field options "delay")
                 (legacy_realistic_configs options)).
  { apply Forall_forall. intros cfg. apply legacy_realistic_delay. }
  unfold legacy_realistic_configs, FastConfetti.realistic_presets in *.
  cbn [map fst snd] in Hd.
  apply Forall_cons in Hd as [H1 Hd]. apply Forall_cons in Hd as [H2 Hd].
  apply Forall_cons in Hd as [H3 Hd]. apply Forall_cons in Hd as [H4 Hd].
  apply Forall_cons in Hd as [H5 _].
  unfold ConfettiManager.realistic, FastConfetti.realistic_presets,
    ConfettiManager.realistic_fire,
    ConfettiManager.launchConfettiWithDelay, setTimeout, register.
  cbn [foldl fst snd now fresh timers self trace random draws frame_ms].
  rewrite Hw. cbn [app field mbind option_bind].
  rewrite H1, H2, H3, H4, H5.
  cbn [map zip zip_with fst snd legacy_launch_timer]. reflexivity.
Qed.

Lemma map_zip_snd {A B C} (g : B → C) (ids : list A) (l : list B) :
  length ids = length l →
  map (λ c : A * B, g c.2) (zip ids l) = map g l.
Proof.
  revert l. induction ids as [|i ids IH]; intros [|x l] H; try done.
  cbn. f_equal. apply IH. by injection H.
Qed.

Lemma legacy_realistic_run (colors : option (list string))
    (options : option obj) (w : world) :
  timers w = [] →
  let T := now w + ms (num_or (field options "delay") 0) in
  let w1 := ConfettiManager.realistic colors options w in
  run 5 w1
  = mkWorld T (fresh w1) [] (self w1)
      (trace w1
         ++ map (λ cfg, (T, legacy_burst w1 colors (Some cfg)))
              (legacy_realistic_configs options))
      (random w1) (draws w1) (frame_ms w1).
Proof.
  intros Hw T w1.
  pose proof (legacy_realistic_schedule colors options w Hw) as Ht.
  fold T w1 in Ht.
  set (cfgs := zip _ _) in Ht.
  assert (Hl : length cfgs = 5%nat) by reflexivity.
  assert (Hnd : NoDup (map fst cfgs)).
  { subst cfgs.
    unfold legacy_realistic_configs, FastConfetti.realistic_presets.
    cbn [map zip zip_with fst]. nodup_handles. }
  assert (Hne : cfgs ≠ []) by (intros E; by rewrite E in Hl).
  assert (Hnow : now w1 <= T).
  { pose proof (ms_nonneg (num_or (field options "delay") 0)).
    change (now w1) with (now w). subst T. lia. }
  rewrite <- Hl.
  rewrite (run_legacy_launches colors cfgs T w1 Ht Hnd Hnow Hne).
  f_equal.
Qed.

(** X15.  The five bursts of the colours-array [realistic].  On an object
    with nothing else pending, [realistic(colors, options)] renders
    exactly five bursts, in the order of its calls to [fire], all after
    the delay of the options; nothing remains pending and no field of the
    object is written.  Their particle counts are 50, 40, 70, 20 and 20
    unless [options] holds a [particleCount], and every field of
    [options] is handed to the launch primitive as given: unlike
    [cannon] and [randomDirection] of this variant, [realistic] spreads
    [options] last. *)
Theorem legacy_realistic_bursts (colors : option (list string))
    (options : option obj) (w : world) :
  timers w = [] →
  let T := now w + ms (num_or (field options "delay") 0) in
  let w' := run 5 (ConfettiManager.realistic colors options w) in
  trace w'
  = trace w
      ++ map (λ cfg, (T, legacy_burst w colors (Some cfg)))
           (legacy_realistic_configs options)
  ∧ timers w' = []
  ∧ self w' = self w
  ∧ map (λ cfg, cfg !! "particleCount") (legacy_realistic_configs options)
    = map (λ n, Some (default (VNum n) (field options "particleCount")))
        [50%Q; 40%Q; 70%Q; 20%Q; 20%Q]
  ∧ (∀ cfg k v, cfg ∈ legacy_realistic_configs options →
       field options k = Some v → cfg !! k = Some v).
Proof.
  intros Hw T w'. subst w'.
  pose proof (legacy_realistic_run colors options w Hw) as R.
  cbv zeta in R. fold T in R. rewrite R. clear R.
  split; [reflexivity|]. split; [reflexivity|]. split; [reflexivity|].
  split; [apply legacy_realistic_counts|].
  intros cfg k v. apply legacy_realistic_options.
Qed.

Lemma legacy_realistic_bursts_witness :
  timers page = []
  ∧ timers (run 5 (ConfettiManager.realistic None None page)) = []
  ∧ map (λ cfg, cfg !! "particleCount") (legacy_realistic_configs None)
    = [Some (VNum 50); Some (VNum 40); Some (VNum 70); Some (VNum 20);
       Some (VNum 20)].
Proof.
  assert (Hp : timers page = []) by reflexivity.
  pose proof (legacy_realistic_bursts None None page Hp)
    as (_ & Ht & _ & Hc & _).
  split; [exact Hp|]. split; [exact Ht|exact Hc].
Defined.
